(** * Photo map: area clustering, marker sizing and photo selection

    A shallow embedding of the clustering and marker-sizing code of the
    photo-map application, in its two generations:

    - the refactored managers: [DataManager] (js/modules/DataManager.js)
      and [MarkerManager] (js/modules/MarkerManager.js);
    - the legacy monolith [PhotoMapApp] (the class that follows the
      configuration constants).

    JavaScript numbers are modelled by rationals ([Q]); a field that
    may be [undefined] is an [option]; [None] also stands for [NaN], which
    is what [undefined] becomes in arithmetic.  The sums and quotients
    that place a cluster are the ones of the language, rounded to the
    nearest binary64 number ([JS.double]).  The values of [Math.sin],
    [Math.cos], [Math.atan2] and [Math.sqrt] are left to the engine by the
    language standard, so the code is embedded over an arbitrary [JSMath];
    [refMath] is one such engine, used to run the code on concrete data. *)

From Stdlib Require Import QArith Qabs Qround Qpower Lqa ZArith Lia List String.
From Stdlib Require Import Permutation Sorted DecimalString Ascii.
From stdpp Require Import base decidable list gmap strings.

Open Scope Q_scope.

(** ** JavaScript values *)

Module JS.

(** A number-valued property: [None] is [undefined] (or [NaN]). *)
Definition num := option Q.

(** [!!v] for a number-valued property: [undefined], [NaN] and [0]
    are falsy. *)
Definition truthy (v : num) : bool :=
  match v with
  | Some q => negb (Qeq_bool q 0)
  | None => false
  end.

(** [v || d] where [d] is a number. *)
Definition or_default (v : num) (d : Q) : Q :=
  match v with
  | Some q => if Qeq_bool q 0 then d else q
  | None => d
  end.

(** [a <= b]: false as soon as one side is [NaN]. *)
Definition le (a b : num) : bool :=
  match a, b with
  | Some x, Some y => Qle_bool x y
  | _, _ => false
  end.

(** The binary exponent of a number other than zero: the [e] with
    [2 ^ e <= |q| < 2 ^ (e + 1)]. *)
Definition binade (q : Q) : Z :=
  let k := (Z.log2 (Z.abs (Qnum q)) - Z.log2 (Zpos (Qden q)))%Z in
  if Qle_bool (2 ^ k) (Qabs q) then k else (k - 1)%Z.

(** The nearest integer, a half going to the even neighbour. *)
Definition roundEven (x : Q) : Z :=
  let f := Qfloor x in
  match Qcompare (x - inject_Z f) (1 # 2) with
  | Lt => f
  | Gt => (f + 1)%Z
  | Eq => if Z.even f then f else (f + 1)%Z
  end.

(** The Number value for [q]: the nearest binary64 number, a tie going
    to the even significand.  The significand has 53 bits down to the
    exponent -1022, below which the spacing stays [2 ^ -1074].  From
    [2 ^ 1024 - 2 ^ 970] on the language rounds to an infinity, which
    [num] does not have; degrees of latitude and longitude and their
    sums over the areas of a map stay far below. *)
Definition double (q : Q) : Q :=
  if Qeq_bool q 0 then 0
  else
    let ulp := 2 ^ (Z.max (binade q) (-1022) - 52) in
    Qred (inject_Z (roundEven (q / ulp)) * ulp).

(** [a + b] and [a / b] on numbers, [NaN] absorbing: the operands are
    Number values, the result is the Number value for their exact sum or
    quotient.  An operand that is a Number value already is left as it
    is ([double] is idempotent); one given by a numeral stands for the
    Number value of the numeral.  The divisors of the code are array
    lengths, never zero. *)
Definition add (a b : num) : num :=
  match a, b with
  | Some x, Some y => Some (double (double x + double y))
  | _, _ => None
  end.

Definition div (a b : num) : num :=
  match a, b with
  | Some x, Some y => Some (double (double x / double y))
  | _, _ => None
  end.

Definition of_nat (n : nat) : num := Some (inject_Z (Z.of_nat n)).

(** [Math.round]: the nearest integer, halves going up. *)
Definition Math_round (x : Q) : Z := Qfloor (x + (1 # 2)).

(** [xs.reduce(f)] without initial value: the first element seeds the
    accumulator; on an empty array the call throws ([None]). *)
Definition reduce1 {A} (f : A -> A -> A) (xs : list A) : option A :=
  match xs with
  | [] => None
  | x :: rest => Some (fold_left f rest x)
  end.

(** [f(a, b)] for a function of two numbers, [NaN] absorbing. *)
Definition lift2 (f : Q -> Q -> Q) (a b : num) : num :=
  match a, b with
  | Some x, Some y => Some (f x y)
  | _, _ => None
  end.

(** The engine's mathematical functions, on finite numbers; the square
    root of a negative number is [NaN]. *)
Record JSMath := {
  Math_sin : Q -> Q;
  Math_cos : Q -> Q;
  Math_sqrt : Q -> num;
  Math_atan2 : Q -> Q -> Q;
  Math_PI : Q
}.

(** A reference engine: truncated power series evaluated by Horner's
    rule on twenty decimal places, exact where the language standard
    fixes the value ([sin 0], [cos 0], [sqrt 0], [sqrt 1], [atan2 0 x]
    for positive [x]). *)
Definition fixed (q : Q) : Q :=
  (Qnum q * 10 ^ 20 / Zpos (Qden q))%Z # 10 ^ 20.

Definition ref_PI : Q := 3.141592653589793.

Definition ref_sin (x : Q) : Q :=
  let x := fixed x in
  let x2 := fixed (x * x) in
  let s9 := 1 - x2 / 72 in
  let s7 := 1 - fixed (x2 * s9) / 42 in
  let s5 := 1 - fixed (x2 * s7) / 20 in
  let s3 := 1 - fixed (x2 * s5) / 6 in
  fixed (x * s3).

Definition ref_cos (x : Q) : Q :=
  let x := fixed x in
  let x2 := fixed (x * x) in
  let c10 := 1 - x2 / 90 in
  let c8 := 1 - fixed (x2 * c10) / 56 in
  let c6 := 1 - fixed (x2 * c8) / 30 in
  let c4 := 1 - fixed (x2 * c6) / 12 in
  fixed (1 - fixed (x2 * c4) / 2).

Definition ref_root (x : Q) : Q :=
  Z.sqrt (Qnum x * 10 ^ 40 / Zpos (Qden x)) # 10 ^ 20.

Definition ref_sqrt (x : Q) : num :=
  if Qle_bool 0 x then Some (ref_root x) else None.

Definition ref_atan_series (t : Q) : Q :=
  let t := fixed t in
  let t2 := fixed (t * t) in
  let a9 := (1 # 9) - t2 / 11 in
  let a7 := (1 # 7) - fixed (t2 * a9) in
  let a5 := (1 # 5) - fixed (t2 * a7) in
  let a3 := (1 # 3) - fixed (t2 * a5) in
  fixed (t * (1 - fixed (t2 * a3))).

(** [tan (x / 2)] from [tan x]. *)
Definition ref_half_tan (t : Q) : Q :=
  fixed (t / (1 + ref_root (1 + t * t))).

Definition ref_atan (t : Q) : Q :=
  4 * ref_atan_series (ref_half_tan (ref_half_tan t)).

Definition ref_atan2 (y x : Q) : Q :=
  if Qlt_le_dec 0 x then ref_atan (y / x)
  else if Qlt_le_dec x 0 then
    (if Qle_bool 0 y then ref_atan (y / x) + ref_PI
     else ref_atan (y / x) - ref_PI)
  else if Qlt_le_dec 0 y then ref_PI / 2
  else if Qlt_le_dec y 0 then - (ref_PI / 2)
  else 0.

Definition refMath : JSMath :=
  {| Math_sin := ref_sin; Math_cos := ref_cos; Math_sqrt := ref_sqrt;
     Math_atan2 := ref_atan2; Math_PI := ref_PI |}.

End JS.

(** ** Data model *)

Module Area.
Record t := {
  id : string;
  name : string;
  center_lat : JS.num;
  center_lng : JS.num;
  radius : JS.num;
  is_active : bool
    (* a boolean in the data: [!a.is_active], [a.is_active === false]
       and [a.is_active !== false] all read this flag *)
}.
End Area.

Module Photo.
Record t := {
  id : string;
  latitude : JS.num;
  longitude : JS.num;
  taken_at : option Z;
    (* the time value of [new Date(taken_at)], in milliseconds; [None]
       for an invalid date, whose time value is [NaN] *)
  view_count : option Z;
  is_featured : bool
}.
End Photo.

(** A marker candidate: either an area with the [isCluster] flag added
  ([{ ...area, isCluster: false }]) or a cluster object literal.
  [areas] and [photos] are [undefined] where the object lacks them. *)
Module Cluster.
Record t := {
  id : string;
  name : string;
  center_lat : JS.num;
  center_lng : JS.num;
  radius : JS.num;
  is_active : bool;
  isCluster : bool;
  areas : option (list Area.t);
  photos : option (list Photo.t)
}.

(** The area-valued part of the object, as read by [getPhotosInArea]. *)
Definition as_area (c : t) : Area.t :=
  {| Area.id := id c; Area.name := name c;
     Area.center_lat := center_lat c; Area.center_lng := center_lng c;
     Area.radius := radius c; Area.is_active := is_active c |}.

(** The areas a marker candidate stands for. *)
Definition members (c : t) : list Area.t :=
  match areas c with
  | Some l => l
  | None => [as_area c]
  end.
End Cluster.

(** ** Configuration constants *)

Module APP_CONFIG.
Module MAP.
Definition MAX_ZOOM : Q := 18.
Definition MIN_ZOOM : Q := 10.
Definition CLUSTER_DISTANCE_KM : Q := 2.0.
Definition CLUSTER_ZOOM_THRESHOLD : Q := 12.
End MAP.
Module MARKER.
Definition DEFAULT_SIZE : Q := 30.
Definition MIN_SIZE : Q := 20.
Definition MAX_SIZE : Q := 50.
Definition SIZE_SCALE_FACTOR : Q := 1.5.
End MARKER.
End APP_CONFIG.

(** ** DataManager (js/modules/DataManager.js) *)

Module DataManager.
Section Engine.
Variable M : JS.JSMath.

Definition degToRad (deg : Q) : Q := deg * (JS.Math_PI M / 180).

(** Great-circle distance in kilometres.  With an [undefined] operand
    every intermediate value is [NaN], and so is the result; so it is
    when a square root is taken of a negative number. *)
Definition calculateDistance (lat1 lng1 lat2 lng2 : JS.num) : JS.num :=
  match lat1, lng1, lat2, lng2 with
  | Some lat1, Some lng1, Some lat2, Some lng2 =>
      let R := 6371 in
      let dLat := degToRad (lat2 - lat1) in
      let dLng := degToRad (lng2 - lng1) in
      let a :=
        JS.Math_sin M (dLat / 2) * JS.Math_sin M (dLat / 2) +
        JS.Math_cos M (degToRad lat1) * JS.Math_cos M (degToRad lat2) *
        JS.Math_sin M (dLng / 2) * JS.Math_sin M (dLng / 2) in
      let c :=
        JS.lift2 (fun y x => 2 * JS.Math_atan2 M y x)
          (JS.Math_sqrt M a) (JS.Math_sqrt M (1 - a)) in
      JS.lift2 Qmult (Some R) c
  | _, _, _, _ => None
  end.

(** [photos] is [this.photos]. *)
Definition getPhotosInArea (photos : list Photo.t) (area : Area.t)
  : list Photo.t :=
  if negb (JS.truthy (Area.center_lat area))
     || negb (JS.truthy (Area.center_lng area))
  then []
  else
    List.filter
      (fun photo =>
         let distance :=
           calculateDistance
             (Photo.latitude photo) (Photo.longitude photo)
             (Area.center_lat area) (Area.center_lng area) in
         JS.le distance (Some (JS.or_default (Area.radius area) 1.0)))
      photos.

End Engine.
End DataManager.

(** ** MarkerManager (js/modules/MarkerManager.js) *)

Module MarkerManager.

(** What [createAreaMarker] stores for a marker it adds to the layer. *)
Record Marker := {
  areaData : Cluster.t;
  photoCount : nat;
  iconSize : Z
}.

Definition getResponsiveMarkerSize (zoom : Q) (isCluster : bool) : Z :=
  let scaleFactor :=
    (zoom - APP_CONFIG.MAP.MIN_ZOOM)
    / (APP_CONFIG.MAP.MAX_ZOOM - APP_CONFIG.MAP.MIN_ZOOM) in
  let dynamicSize :=
    APP_CONFIG.MARKER.MIN_SIZE
    + (APP_CONFIG.MARKER.MAX_SIZE - APP_CONFIG.MARKER.MIN_SIZE) * scaleFactor in
  JS.Math_round
    (if isCluster then dynamicSize * APP_CONFIG.MARKER.SIZE_SCALE_FACTOR
     else dynamicSize).

Definition shouldClusterMarkers (zoom : Q) : bool :=
  Qle_bool zoom APP_CONFIG.MAP.CLUSTER_ZOOM_THRESHOLD.

(** [{ ...area, isCluster: false }] *)
Definition spread (area : Area.t) : Cluster.t :=
  {| Cluster.id := Area.id area; Cluster.name := Area.name area;
     Cluster.center_lat := Area.center_lat area;
     Cluster.center_lng := Area.center_lng area;
     Cluster.radius := Area.radius area;
     Cluster.is_active := Area.is_active area;
     Cluster.isCluster := false;
     Cluster.areas := None; Cluster.photos := None |}.

(** [areas.forEach((area, index) => ...)] visits these pairs. *)
Definition indexed {A} (l : list A) : list (nat * A) :=
  combine (seq 0 (length l)) l.

Section Engine.
Variable M : JS.JSMath.
Variable photos : list Photo.t.          (* this.dataManager.photos *)

(** The cluster object built from two or more nearby areas.  The center
    is [reduce((sum, a) => sum + a.center_lat, 0) / length] on Number
    values: every [JS.add] and the [JS.div] round to binary64. *)
Definition makeCluster (nearbyAreas : list Area.t) : Cluster.t :=
  let n := JS.of_nat (length nearbyAreas) in
  let centerLat :=
    JS.div (fold_left (fun sum a => JS.add sum (Area.center_lat a))
                      nearbyAreas (Some 0)) n in
  let centerLng :=
    JS.div (fold_left (fun sum a => JS.add sum (Area.center_lng a))
                      nearbyAreas (Some 0)) n in
  {| Cluster.id :=
       "cluster_" +:+ String.concat "_" (List.map Area.id nearbyAreas);
     Cluster.name :=
       match nearbyAreas with
       | a :: _ => Area.name a +:+ " エリア"
       | [] => ""            (* not reached: the seed comes first *)
       end;
     Cluster.center_lat := centerLat;
     Cluster.center_lng := centerLng;
     Cluster.radius := None;
     Cluster.is_active := true;
     Cluster.isCluster := true;
     Cluster.areas := Some nearbyAreas;
     Cluster.photos :=
       Some (flat_map (DataManager.getPhotosInArea M photos) nearbyAreas) |}.

(** The state of the outer loop: the [processed] set of indices and the
    [clusters] array. *)
Definition loop_state : Type := gset nat * list Cluster.t.

(** The distance test of the inner loop. *)
Definition near (area otherArea : Area.t) : bool :=
  let distance :=
    DataManager.calculateDistance M
      (Area.center_lat area) (Area.center_lng area)
      (Area.center_lat otherArea) (Area.center_lng otherArea) in
  JS.le distance (Some APP_CONFIG.MAP.CLUSTER_DISTANCE_KM).

(** The inner [areas.forEach]: the other areas, not yet processed, within
    [CLUSTER_DISTANCE_KM] of [area]. *)
Definition nearbyOf (areas : list Area.t) (processed : gset nat)
    (index : nat) (area : Area.t) : list (nat * Area.t) :=
  List.filter
    (fun '(otherIndex, otherArea) =>
       negb (Nat.eqb otherIndex index)
       && negb (bool_decide (otherIndex ∈ processed))
       && near area otherArea)
    (indexed areas).

(** What the outer loop pushes for [area] and the areas found near it. *)
Definition emit (area : Area.t) (others : list Area.t) : Cluster.t :=
  let nearbyAreas := area :: others in
  if (1 <? length nearbyAreas)%nat then makeCluster nearbyAreas
  else spread area.

(** One turn of the outer [areas.forEach]. *)
Definition visit (areas : list Area.t) (st : loop_state)
    (entry : nat * Area.t) : loop_state :=
  let '(processed, clusters) := st in
  let '(index, area) := entry in
  if bool_decide (index ∈ processed) then st
  else
    let nearby := nearbyOf areas processed index area in
    let nearbyIndices := index :: List.map fst nearby in
    let processed' :=
      fold_left (fun s idx => {[idx]} ∪ s) nearbyIndices processed in
    (processed', clusters ++ [emit area (List.map snd nearby)]).

(** [zoom] is [this.map.getZoom()]. *)
Definition createClusters (zoom : Q) (areas : list Area.t)
  : list Cluster.t :=
  if negb (shouldClusterMarkers zoom) then List.map spread areas
  else snd (fold_left (visit areas) (indexed areas) (∅, [])).

(** [createAreaMarker]: [None] when the guard returns early.  The icon
    is the one of the SVG path. *)
Definition createAreaMarker (zoom : Q) (cluster : Cluster.t)
    (photoCount : nat) : option Marker :=
  if negb (JS.truthy (Cluster.center_lat cluster))
     || negb (JS.truthy (Cluster.center_lng cluster))
     || negb (Cluster.is_active cluster)
  then None
  else Some {| areaData := cluster; photoCount := photoCount;
               iconSize := getResponsiveMarkerSize zoom
                             (Cluster.isCluster cluster) |}.

(** The photo list [addAreaMarkers] counts for a marker candidate. *)
Definition photosInArea (cluster : Cluster.t) : list Photo.t :=
  if Cluster.isCluster cluster
  then default [] (Cluster.photos cluster)
  else DataManager.getPhotosInArea M photos (Cluster.as_area cluster).

(** [addAreaMarkers]: the markers added to the area layer, in order.
    [areas] is [this.dataManager.getAreas()]. *)
Definition addAreaMarkers (zoom : Q) (areas : list Area.t) : list Marker :=
  flat_map
    (fun cluster =>
       let n := length (photosInArea cluster) in
       if (0 <? n)%nat
       then option_list (createAreaMarker zoom cluster n)
       else [])
    (createClusters zoom areas).

End Engine.
End MarkerManager.

(** ** PhotoMapApp (the legacy application class) *)

Module PhotoMapApp.

Record Marker := {
  clusterData : Cluster.t;
  photoCount : nat;
  iconSize : Z;
  representativePhoto : option Photo.t
}.

Definition shouldClusterMarkers (zoom : Q) : bool := Qle_bool zoom 12.

Definition getResponsiveMarkerSize (zoom : Q) (isCluster : bool) : Z :=
  if Qle_bool zoom 10 then (if isCluster then 16 else 12)%Z
  else if Qle_bool zoom 12 then (if isCluster then 24 else 18)%Z
  else if Qle_bool zoom 14 then (if isCluster then 36 else 30)%Z
  else if Qle_bool zoom 16 then (if isCluster then 48 else 42)%Z
  else (if isCluster then 60 else 54)%Z.

(** [photo.view_count || 0] *)
Definition views (photo : Photo.t) : Z :=
  match Photo.view_count photo with
  | Some v => if (v =? 0)%Z then 0%Z else v
  | None => 0%Z
  end.

Definition morePopular (best photo : Photo.t) : Photo.t :=
  if (views photo >? views best)%Z then photo else best.

(** [new Date(photo.taken_at) > new Date(newest.taken_at) ? photo :
    newest]: the comparison is false as soon as one date is invalid. *)
Definition moreRecent (newest photo : Photo.t) : Photo.t :=
  match Photo.taken_at photo, Photo.taken_at newest with
  | Some t, Some t' => if (t >? t')%Z then photo else newest
  | _, _ => newest
  end.

Definition getRepresentativePhoto (photos : list Photo.t)
  : option Photo.t :=
  if (length photos =? 0)%nat then None
  else
    let featuredPhotos := List.filter Photo.is_featured photos in
    if (0 <? length featuredPhotos)%nat
    then JS.reduce1 morePopular featuredPhotos
    else
      match JS.reduce1 morePopular photos with
      | None => None
      | Some popularPhoto =>
          let sameViewCountPhotos :=
            List.filter
              (fun photo => (views photo =? views popularPhoto)%Z) photos in
          JS.reduce1 moreRecent sameViewCountPhotos
      end.

(** [{ ...area }] read as a marker candidate: no [isCluster] (falsy),
    no [photos], no [areas]. *)
Definition of_area (area : Area.t) : Cluster.t :=
  {| Cluster.id := Area.id area; Cluster.name := Area.name area;
     Cluster.center_lat := Area.center_lat area;
     Cluster.center_lng := Area.center_lng area;
     Cluster.radius := Area.radius area;
     Cluster.is_active := Area.is_active area;
     Cluster.isCluster := false;
     Cluster.areas := None; Cluster.photos := None |}.

Section Engine.
Variable M : JS.JSMath.
Variable photos : list Photo.t.          (* this.photos *)

Definition calculateDistance (lat1 lng1 lat2 lng2 : JS.num) : JS.num :=
  match lat1, lng1, lat2, lng2 with
  | Some lat1, Some lng1, Some lat2, Some lng2 =>
      let R := 6371 in
      let dLat := (lat2 - lat1) * JS.Math_PI M / 180 in
      let dLng := (lng2 - lng1) * JS.Math_PI M / 180 in
      let a :=
        JS.Math_sin M (dLat / 2) * JS.Math_sin M (dLat / 2) +
        JS.Math_cos M (lat1 * JS.Math_PI M / 180)
        * JS.Math_cos M (lat2 * JS.Math_PI M / 180)
        * JS.Math_sin M (dLng / 2) * JS.Math_sin M (dLng / 2) in
      let c :=
        JS.lift2 (fun y x => 2 * JS.Math_atan2 M y x)
          (JS.Math_sqrt M a) (JS.Math_sqrt M (1 - a)) in
      JS.lift2 Qmult (Some R) c
  | _, _, _, _ => None
  end.

Definition getPhotosInArea (area : Area.t) : list Photo.t :=
  if negb (JS.truthy (Area.center_lat area))
     || negb (JS.truthy (Area.center_lng area))
     || negb (JS.truthy (Area.radius area))
  then []
  else
    List.filter
      (fun photo =>
         if negb (JS.truthy (Photo.latitude photo))
            || negb (JS.truthy (Photo.longitude photo))
         then false
         else
           let distance :=
             calculateDistance
               (Area.center_lat area) (Area.center_lng area)
               (Photo.latitude photo) (Photo.longitude photo) in
           JS.le distance (Area.radius area))
      photos.

(** The cluster object built around [area] and its neighbours.
    [totalLat] and [totalLng] start at 0 and grow by [+=] in the order of
    [clusterAreas]; the sums and the two quotients are Number values,
    rounded to binary64 by [JS.add] and [JS.div]. *)
Definition makeCluster (area : Area.t) (clusterAreas : list Area.t)
    (allPhotos : list Photo.t) : Cluster.t :=
  let totalLat :=
    fold_left (fun t a => JS.add t (Area.center_lat a)) clusterAreas (Some 0) in
  let totalLng :=
    fold_left (fun t a => JS.add t (Area.center_lng a)) clusterAreas (Some 0) in
  {| Cluster.id := "cluster_" +:+ Area.id area;
     Cluster.name :=
       String.concat "・" (List.map Area.name clusterAreas) +:+ "エリア";
     Cluster.center_lat := JS.div totalLat (JS.of_nat (length clusterAreas));
     Cluster.center_lng := JS.div totalLng (JS.of_nat (length clusterAreas));
     Cluster.radius := None;
     Cluster.is_active := true;
     Cluster.isCluster := true;
     Cluster.areas := Some clusterAreas;
     Cluster.photos := Some allPhotos |}.

(** [{ ...area, photos: areaPhotos, isCluster: false }] *)
Definition singleArea (area : Area.t) (areaPhotos : list Photo.t)
  : Cluster.t :=
  {| Cluster.id := Area.id area; Cluster.name := Area.name area;
     Cluster.center_lat := Area.center_lat area;
     Cluster.center_lng := Area.center_lng area;
     Cluster.radius := Area.radius area;
     Cluster.is_active := Area.is_active area;
     Cluster.isCluster := false;
     Cluster.areas := None; Cluster.photos := Some areaPhotos |}.

(** The state of the loop: [processedAreas] (a set of ids) and the
    [clusters] array. *)
Definition loop_state : Type := gset string * list Cluster.t.

Definition visit (areas : list Area.t) (st : loop_state) (area : Area.t)
  : loop_state :=
  let '(processedAreas, clusters) := st in
  if bool_decide (Area.id area ∈ processedAreas)
     || negb (Area.is_active area)
  then st
  else
    let nearbyAreas :=
      List.filter
        (fun otherArea =>
           if String.eqb (Area.id otherArea) (Area.id area)
              || bool_decide (Area.id otherArea ∈ processedAreas)
              || negb (Area.is_active otherArea)
           then false
           else
             JS.le
               (calculateDistance
                  (Area.center_lat area) (Area.center_lng area)
                  (Area.center_lat otherArea) (Area.center_lng otherArea))
               (Some 2.0))
        areas in
    if (0 <? length nearbyAreas)%nat
    then
      let clusterAreas := area :: nearbyAreas in
      let processedAreas' :=
        fold_left (fun s a => {[Area.id a]} ∪ s) clusterAreas processedAreas in
      let allPhotos := flat_map getPhotosInArea clusterAreas in
      if (0 <? length allPhotos)%nat
      then (processedAreas',
            clusters ++ [makeCluster area clusterAreas allPhotos])
      else (processedAreas', clusters)
    else
      let areaPhotos := getPhotosInArea area in
      if (0 <? length areaPhotos)%nat
      then ({[Area.id area]} ∪ processedAreas,
            clusters ++ [singleArea area areaPhotos])
      else st.

(** [areas] is [this.areas]. *)
Definition createPhotoClusters (areas : list Area.t) : list Cluster.t :=
  snd (fold_left (visit areas) areas (∅, [])).

(** [addAreaMarkers]: the markers added to the area layer, in order;
    [zoom] is [this.map.getZoom()]. *)
Definition addAreaMarkers (zoom : Q) (areas : list Area.t) : list Marker :=
  let clusters :=
    if shouldClusterMarkers zoom then createPhotoClusters areas
    else List.map of_area areas in
  flat_map
    (fun cluster =>
       if JS.truthy (Cluster.center_lat cluster)
          && JS.truthy (Cluster.center_lng cluster)
          && Cluster.is_active cluster
       then
         let clusterPhotos :=
           match Cluster.photos cluster with
           | Some l => l
           | None => getPhotosInArea (Cluster.as_area cluster)
           end in
         let photoCount := length clusterPhotos in
         if (photoCount =? 0)%nat then []
         else [ {| clusterData := cluster; photoCount := photoCount;
                   iconSize := getResponsiveMarkerSize zoom
                                 (Cluster.isCluster cluster);
                   representativePhoto :=
                     getRepresentativePhoto clusterPhotos |} ]
       else [])
    clusters.

End Engine.
End PhotoMapApp.

(** ** Sample data *)

Module Sample.

Definition area (id : string) (lat lng r : JS.num) (active : bool)
  : Area.t :=
  {| Area.id := id; Area.name := id; Area.center_lat := lat;
     Area.center_lng := lng; Area.radius := r; Area.is_active := active |}.

Definition photo (id : string) (lat lng : JS.num) (views : Z)
    (featured : bool) : Photo.t :=
  {| Photo.id := id; Photo.latitude := lat; Photo.longitude := lng;
     Photo.taken_at := Some 0%Z; Photo.view_count := Some views;
     Photo.is_featured := featured |}.

(** Scenario A of the specification. *)
Definition a1 : Area.t := area "a1" (Some 34.85) (Some 134.60) (Some 0.8) true.
Definition a2 : Area.t :=
  area "a2" (Some 34.8515) (Some 134.6021) (Some 0.8) true.
Definition p1 : Photo.t := photo "p1" (Some 34.85) (Some 134.60) 1 false.

(** At the place of [a2], too small to reach [p1], which lies 254 m
    away. *)
Definition a2_small : Area.t :=
  area "a2" (Some 34.8515) (Some 134.6021) (Some 0.05) true.

(** An area whose [center_lat] is missing, and one on the equator. *)
Definition a_missing : Area.t :=
  area "a0" None (Some 134.60) (Some 0.8) true.
Definition a_equator : Area.t :=
  area "a0" (Some 0) (Some 134.60) (Some 0.8) true.

(** An area 111 m north of [a_equator], and a photo at its center. *)
Definition a_north : Area.t :=
  area "b" (Some 0.001) (Some 134.60) (Some 0.8) true.
Definition p_north : Photo.t :=
  photo "q" (Some 0.001) (Some 134.60) 1 false.

End Sample.

(** * Specification-level definitions *)

(** The zoom bands of [markerSizeForZoom], in the words of the
    specification: the lower bound of each pair for a plain marker, the
    upper bound for a cluster marker. *)
Record StepBands (f : Q -> bool -> Z) : Prop := {
  band_le_10 : forall zoom c,
      zoom <= 10 -> f zoom c = (if c then 16 else 12)%Z;
  band_10_12 : forall zoom c,
      10 < zoom -> zoom <= 12 -> f zoom c = (if c then 24 else 18)%Z;
  band_12_14 : forall zoom c,
      12 < zoom -> zoom <= 14 -> f zoom c = (if c then 36 else 30)%Z;
  band_14_16 : forall zoom c,
      14 < zoom -> zoom <= 16 -> f zoom c = (if c then 48 else 42)%Z;
  band_gt_16 : forall zoom c,
      16 < zoom -> f zoom c = (if c then 60 else 54)%Z
}.

(** The arithmetic mean of a list of numbers. *)
Definition mean (qs : list Q) : Q :=
  fold_right Qplus 0 qs / inject_Z (Z.of_nat (length qs)).

(** A number-valued property that holds the number zero. *)
Definition is_zero (v : JS.num) : Prop := exists q, v = Some q /\ q == 0.

(** Greedy grouping as a recursion on the areas still to assign: the
    first one seeds a group and takes every later area within the
    cluster distance; the areas left over are grouped in the same way. *)
Fixpoint greedy (M : JS.JSMath) (photos : list Photo.t) (fuel : nat)
    (areas : list Area.t) : list Cluster.t :=
  match fuel, areas with
  | S fuel, area :: rest =>
      MarkerManager.emit M photos area
        (List.filter (MarkerManager.near M area) rest)
      :: greedy M photos fuel
           (List.filter (fun o => negb (MarkerManager.near M area o)) rest)
  | _, _ => []
  end.

(** The rendering test of [MarkerManager.addAreaMarkers] for one marker
    candidate: some photo, truthy coordinates, not inactive. *)
Definition rendered (M : JS.JSMath) (photos : list Photo.t)
    (c : Cluster.t) : bool :=
  (0 <? length (MarkerManager.photosInArea M photos c))%nat
  && JS.truthy (Cluster.center_lat c)
  && JS.truthy (Cluster.center_lng c)
  && Cluster.is_active c.

(** An area that is active and has at least one associated photo. *)
Definition photoBearing (M : JS.JSMath) (photos : list Photo.t)
    (a : Area.t) : bool :=
  Area.is_active a
  && (0 <? length (DataManager.getPhotosInArea M photos a))%nat.

(** The areas of [l] whose index is not in [processed]. *)
Definition unprocessed (processed : gset nat) (l : list (nat * Area.t))
  : list Area.t :=
  List.map snd
    (List.filter (fun x => negb (bool_decide (fst x ∈ processed))) l).

(** A marker candidate built from a seed area and areas found near it,
    all taken from [areas]. *)
Definition grouped (M : JS.JSMath) (photos : list Photo.t)
    (areas : list Area.t) (c : Cluster.t) : Prop :=
  exists a others,
    c = MarkerManager.emit M photos a others
    /\ In a areas /\ incl others areas
    /\ Forall (fun o => MarkerManager.near M a o = true) others.

(** The body of the loop of [MarkerManager.addAreaMarkers]. *)
Definition markerOf (M : JS.JSMath) (photos : list Photo.t) (zoom : Q)
    (c : Cluster.t) : list MarkerManager.Marker :=
  let n := length (MarkerManager.photosInArea M photos c) in
  if (0 <? n)%nat
  then option_list (MarkerManager.createAreaMarker zoom c n)
  else [].

(** An area that lacks a coordinate. *)
Definition missing (a : Area.t) : Prop :=
  Area.center_lat a = None \/ Area.center_lng a = None.

(** The distance test of [PhotoMapApp.createPhotoClusters]. *)
Definition legacyNear (M : JS.JSMath) (area otherArea : Area.t) : bool :=
  JS.le
    (PhotoMapApp.calculateDistance M
       (Area.center_lat area) (Area.center_lng area)
       (Area.center_lat otherArea) (Area.center_lng otherArea))
    (Some 2.0).

(** A marker candidate of the legacy clustering: an area with its
    photos, or a seed with the areas found near it. *)
Definition legacyGrouped (M : JS.JSMath) (photos : list Photo.t)
    (c : Cluster.t) : Prop :=
  (exists a, c = PhotoMapApp.singleArea a (PhotoMapApp.getPhotosInArea M photos a))
  \/ (exists a others,
        others <> []
        /\ Forall (fun o => legacyNear M a o = true) others
        /\ c = PhotoMapApp.makeCluster a (a :: others)
                 (flat_map (PhotoMapApp.getPhotosInArea M photos) (a :: others))).

(** [{ ...a, radius: r }] *)
Definition with_radius (r : JS.num) (a : Area.t) : Area.t :=
  {| Area.id := Area.id a; Area.name := Area.name a;
     Area.center_lat := Area.center_lat a;
     Area.center_lng := Area.center_lng a;
     Area.radius := r; Area.is_active := Area.is_active a |}.

(** [c] sits at the arithmetic mean of the centers of [members], all of
    which have both coordinates. *)
Definition CentroidOf (members : list Area.t) (c : Cluster.t) : Prop :=
  exists lats lngs clat clng,
    List.map Area.center_lat members = List.map Some lats
    /\ List.map Area.center_lng members = List.map Some lngs
    /\ Cluster.center_lat c = Some clat /\ clat == mean lats
    /\ Cluster.center_lng c = Some clng /\ clng == mean lngs.

(** The photo count of a cluster, in the words of the specification:
    the per-area counts added up, a photo counted once for each member
    area that contains it. *)
Definition photoTotal (count : Area.t -> nat) (members : list Area.t)
  : nat :=
  list_sum (List.map count members).

(** The mean of [qs] as both generations of the code compute it: the
    numbers are added to 0 in list order and the sum is divided by their
    count, each operation giving the nearest binary64 number. *)
Definition floatMean (qs : list Q) : Q :=
  JS.double
    (JS.double
       (fold_left (fun sum q => JS.double (JS.double sum + JS.double q))
                  qs 0)
     / JS.double (inject_Z (Z.of_nat (length qs)))).

(** [c] sits at the mean of the centers of [members] as the code computes
    it; all of [members] have both coordinates. *)
Definition FloatCentroidOf (members : list Area.t) (c : Cluster.t) : Prop :=
  exists lats lngs,
    List.map Area.center_lat members = List.map Some lats
    /\ List.map Area.center_lng members = List.map Some lngs
    /\ Cluster.center_lat c = Some (floatMean lats)
    /\ Cluster.center_lng c = Some (floatMean lngs).

(** The member lists of the greedy grouping: the first area seeds a
    group and takes every later area within the cluster distance; the
    areas left over are grouped in the same way. *)
Fixpoint greedyGroups (M : JS.JSMath) (fuel : nat) (areas : list Area.t)
  : list (list Area.t) :=
  match fuel, areas with
  | S fuel, area :: rest =>
      (area :: List.filter (MarkerManager.near M area) rest)
      :: greedyGroups M fuel
           (List.filter (fun o => negb (MarkerManager.near M area o)) rest)
  | _, _ => []
  end.

(** The member lists of the legacy grouping.  An active area whose id is
    not yet taken seeds a group with every other active area within 2 km
    whose id is not yet taken.  A group with a photo is kept; a group of
    two or more takes the ids of its members whether it is kept or not; a
    lone area without photo takes nothing. *)
Definition legacyGroupStep (M : JS.JSMath) (photos : list Photo.t)
    (areas : list Area.t) (st : gset string * list (list Area.t))
    (area : Area.t) : gset string * list (list Area.t) :=
  let '(taken, groups) := st in
  if bool_decide (Area.id area ∈ taken) || negb (Area.is_active area)
  then st
  else
    let others :=
      List.filter
        (fun o =>
           negb (String.eqb (Area.id o) (Area.id area))
           && negb (bool_decide (Area.id o ∈ taken))
           && Area.is_active o
           && legacyNear M area o)
        areas in
    let members := area :: others in
    let taken' := fold_left (fun s a => {[Area.id a]} ∪ s) members taken in
    if (length (flat_map (PhotoMapApp.getPhotosInArea M photos) members)
        =? 0)%nat
    then match others with
         | [] => st
         | _ :: _ => (taken', groups)
         end
    else (taken', groups ++ [members]).

Definition legacyGroups (M : JS.JSMath) (photos : list Photo.t)
    (areas : list Area.t) : list (list Area.t) :=
  snd (fold_left (legacyGroupStep M photos areas) areas (∅, [])).

(** The marker candidate [c] stands for the group [members]: a lone
    member gives no cluster; two members or more give a cluster that
    holds them in this order, sits at the mean of their centers as the
    code computes it, and carries a photo list as long as the per-area
    counts of the members added up. *)
Definition StandsFor (count : Area.t -> nat) (members : list Area.t)
    (c : Cluster.t) : Prop :=
  if (1 <? length members)%nat
  then Cluster.isCluster c = true
       /\ Cluster.areas c = Some members
       /\ FloatCentroidOf members c
       /\ exists ps,
            Cluster.photos c = Some ps
            /\ length ps = photoTotal count members
  else Cluster.isCluster c = false.

(** The area as the program holds it: the numbers of the data file are
    read as binary64 numbers. *)
Definition as_numbers (a : Area.t) : Area.t :=
  {| Area.id := Area.id a; Area.name := Area.name a;
     Area.center_lat := option_map JS.double (Area.center_lat a);
     Area.center_lng := option_map JS.double (Area.center_lng a);
     Area.radius := option_map JS.double (Area.radius a);
     Area.is_active := Area.is_active a |}.

(** [{ ...photo, taken_at: t }] *)
Definition with_date (t : option Z) (photo : Photo.t) : Photo.t :=
  {| Photo.id := Photo.id photo; Photo.latitude := Photo.latitude photo;
     Photo.longitude := Photo.longitude photo; Photo.taken_at := t;
     Photo.view_count := Photo.view_count photo;
     Photo.is_featured := Photo.is_featured photo |}.

(** [p] is the first element of [l] with the highest [key]: the elements
    before it have a smaller key and none after it has a greater one. *)
Definition FirstHighest {A} (key : A -> Z) (l : list A) (p : A) : Prop :=
  exists before after,
    l = before ++ p :: after
    /\ Forall (fun q => (key q < key p)%Z) before
    /\ Forall (fun q => (key q <= key p)%Z) after.

(** A photo taken before the time [t], and one taken no later than [t];
    a photo without a valid date counts as both. *)
Definition takenBefore (t : Z) (q : Photo.t) : Prop :=
  match Photo.taken_at q with
  | Some t' => (t' < t)%Z
  | None => True
  end.

Definition takenBy (t : Z) (q : Photo.t) : Prop :=
  match Photo.taken_at q with
  | Some t' => (t' <= t)%Z
  | None => True
  end.

(** [p] is the photo a run of date comparisons keeps from [l]: the first
    photo of [l] when that one has no valid date, and otherwise the first
    of the photos of [l] with the latest valid date. *)
Definition FirstLatest (l : list Photo.t) (p : Photo.t) : Prop :=
  exists first rest,
    l = first :: rest
    /\ match Photo.taken_at first with
       | None => p = first
       | Some _ =>
           exists t before after,
             Photo.taken_at p = Some t
             /\ l = before ++ p :: after
             /\ Forall (takenBefore t) before
             /\ Forall (takenBy t) after
       end.

(** The choice of the representative photo in the words of the
    specification: a featured photo when there is one, with the highest
    view count among the featured photos, otherwise a photo with the
    highest view count of all; and of the photos it ties with on the view
    count, none is more recent. *)
Definition representativeAsStated (photos : list Photo.t) (p : Photo.t)
  : Prop :=
  let pool :=
    if existsb Photo.is_featured photos
    then List.filter Photo.is_featured photos
    else photos in
  In p pool
  /\ (forall q, In q pool -> (PhotoMapApp.views q <= PhotoMapApp.views p)%Z)
  /\ (forall q t t',
        In q pool -> PhotoMapApp.views q = PhotoMapApp.views p ->
        Photo.taken_at q = Some t -> Photo.taken_at p = Some t' ->
        (t <= t')%Z).

(** * The marker layer, events, errors, loading and paging *)

(** ** MarkerManager: the marker layer, selection and zoom changes *)

(** The state the marker manager keeps between calls: the markers on the
    area layer, [markerLookup], the selection and [lastClusterState].  A
    Leaflet marker is an object with identity, whose icon [setIcon]
    replaces: markers are handles into a heap of marker objects.  A
    method is followed to its end, through the continuations of its
    [await]s, before the next one is called. *)
Module MarkerState.

(** What the code reads of an icon: [options.iconSize[0]], whether it is
    the highlighted SVG, and the text in the circle. *)
Record Icon := {
  iconSize : Q;
  highlighted : bool;
  label : string
}.

Record MarkerObj := {
  areaData : Cluster.t;
  clusterData : option Cluster.t;
  icon : Icon
}.

(** An entry of [markerLookup]. *)
Record MarkerInfo := {
  marker : nat;
  cluster : Cluster.t;
  photoCount : nat;
  originalIcon : Icon
}.

Record t := {
  objects : gmap nat MarkerObj;        (* the marker objects created so far *)
  areaLayer : list nat;                (* the markers on the layer, in order *)
  markerLookup : gmap string MarkerInfo;
  selectedMarker : option nat;
  selectedCluster : option Cluster.t;
  lastClusterState : option bool       (* [null] until the first zoom change *)
}.

(** The state the constructor builds. *)
Definition initial : t :=
  {| objects := ∅; areaLayer := []; markerLookup := ∅;
     selectedMarker := None; selectedCluster := None;
     lastClusterState := None |}.

(** [n.toString()] *)
Definition toString (n : nat) : string :=
  NilEmpty.string_of_uint (Nat.to_uint n).

(** [photoCount > 999 ? '999+' : photoCount.toString()] *)
Definition displayCount (photoCount : nat) : string :=
  if (999 <? photoCount)%nat then "999+"%string else toString photoCount.

(** The icon [createSVGMarker] and [L.icon] build. *)
Definition plainIcon (size : Z) (count : string) : Icon :=
  {| iconSize := inject_Z size; highlighted := false; label := count |}.

Definition selectedIcon (size : Z) (count : string) : Icon :=
  {| iconSize := inject_Z size * 1.2; highlighted := true; label := count |}.

(** [marker.setIcon(icon)] *)
Definition setIcon (h : nat) (i : Icon) (st : t) : t :=
  {| objects :=
       alter (fun o => {| areaData := areaData o;
                          clusterData := clusterData o; icon := i |})
             h (objects st);
     areaLayer := areaLayer st; markerLookup := markerLookup st;
     selectedMarker := selectedMarker st;
     selectedCluster := selectedCluster st;
     lastClusterState := lastClusterState st |}.

(** [createAreaMarker(cluster, photoCount)]: the marker is a new object,
    added to the layer and recorded under [cluster.id]. *)
Definition createAreaMarker (zoom : Q) (cluster : Cluster.t)
    (photoCount : nat) (st : t) : t :=
  if negb (JS.truthy (Cluster.center_lat cluster))
     || negb (JS.truthy (Cluster.center_lng cluster))
     || negb (Cluster.is_active cluster)
  then st
  else
    let count := String.substring 0 3 (displayCount photoCount) in
    let markerSize :=
      MarkerManager.getResponsiveMarkerSize zoom (Cluster.isCluster cluster) in
    let areaIcon := plainIcon markerSize count in
    let h := fresh (dom (objects st)) in
    {| objects :=
         <[h := {| areaData := cluster;
                   clusterData :=
                     if Cluster.isCluster cluster then Some cluster else None;
                   icon := areaIcon |}]> (objects st);
       areaLayer := areaLayer st ++ [h];
       markerLookup :=
         <[Cluster.id cluster :=
             {| marker := h; cluster := cluster; photoCount := photoCount;
                originalIcon := areaIcon |}]> (markerLookup st);
       selectedMarker := selectedMarker st;
       selectedCluster := selectedCluster st;
       lastClusterState := lastClusterState st |}.

(** [clearAreaMarkers] *)
Definition clearAreaMarkers (st : t) : t :=
  {| objects := objects st; areaLayer := []; markerLookup := ∅;
     selectedMarker := None; selectedCluster := None;
     lastClusterState := lastClusterState st |}.

(** [deselectCurrentMarker] *)
Definition deselectCurrentMarker (st : t) : t :=
  let st' :=
    match selectedMarker st, selectedCluster st with
    | Some h, Some c =>
        match markerLookup st !! Cluster.id c with
        | Some markerInfo => setIcon h (originalIcon markerInfo) st
        | None => st
        end
    | _, _ => st
    end in
  {| objects := objects st'; areaLayer := areaLayer st';
     markerLookup := markerLookup st';
     selectedMarker := None; selectedCluster := None;
     lastClusterState := lastClusterState st' |}.

(** [selectMarker(cluster)]; [zoom] is [this.map.getZoom()]. *)
Definition selectMarker (zoom : Q) (c : Cluster.t) (st : t) : t :=
  let st := deselectCurrentMarker st in
  match markerLookup st !! Cluster.id c with
  | Some markerInfo =>
      let markerSize :=
        MarkerManager.getResponsiveMarkerSize zoom (Cluster.isCluster c) in
      let shown := displayCount (photoCount markerInfo) in
      setIcon (marker markerInfo) (selectedIcon markerSize shown)
        {| objects := objects st; areaLayer := areaLayer st;
           markerLookup := markerLookup st;
           selectedMarker := Some (marker markerInfo);
           selectedCluster := Some c;
           lastClusterState := lastClusterState st |}
  | None => st
  end.

Section Engine.
Variable M : JS.JSMath.
Variable photos : list Photo.t.          (* this.dataManager.photos *)
Variable areas : list Area.t.            (* this.dataManager.getAreas() *)

(** The body of the loop of [addAreaMarkers]. *)
Definition addAreaMarker (zoom : Q) (st : t) (cluster : Cluster.t) : t :=
  let photosInArea := MarkerManager.photosInArea M photos cluster in
  if (0 <? length photosInArea)%nat
  then createAreaMarker zoom cluster (length photosInArea) st
  else st.

(** [addAreaMarkers] *)
Definition addAreaMarkers (zoom : Q) (st : t) : t :=
  fold_left (addAreaMarker zoom)
    (MarkerManager.createClusters M photos zoom areas) st.

(** [refreshAreaMarkers] *)
Definition refreshAreaMarkers (zoom : Q) (st : t) : t :=
  addAreaMarkers zoom (clearAreaMarkers st).

(** The body of the loop of [updateMarkerSizesSafely] for one marker of
    the layer. *)
Definition updateMarkerSize (zoom : Q) (st : t) (h : nat) : t :=
  match objects st !! h with
  | None => st
  | Some layer =>
      let isCluster :=
        match clusterData layer with
        | Some c => Cluster.isCluster c
        | None => false
        end in
      let newSize := MarkerManager.getResponsiveMarkerSize zoom isCluster in
      if Qeq_bool (iconSize (icon layer)) (inject_Z newSize) then st
      else
        let count :=
          match clusterData layer with
          | Some c =>
              match Cluster.photos c with
              | Some l => length l
              | None =>
                  length (DataManager.getPhotosInArea M photos
                            (Cluster.as_area (areaData layer)))
              end
          | None =>
              length (DataManager.getPhotosInArea M photos
                        (Cluster.as_area (areaData layer)))
          end in
        setIcon h (plainIcon newSize (displayCount count)) st
  end.

Definition updateMarkerSizesSafely (zoom : Q) (st : t) : t :=
  fold_left (updateMarkerSize zoom) (areaLayer st) st.

(** [handleZoomChange]; [zoom] is the zoom the map has reached. *)
Definition handleZoomChange (zoom : Q) (st : t) : t :=
  let shouldCluster := MarkerManager.shouldClusterMarkers zoom in
  let wasCluster := lastClusterState st in
  if negb (bool_decide (Some shouldCluster = wasCluster))
  then
    let st := refreshAreaMarkers zoom st in
    {| objects := objects st; areaLayer := areaLayer st;
       markerLookup := markerLookup st;
       selectedMarker := selectedMarker st;
       selectedCluster := selectedCluster st;
       lastClusterState := Some shouldCluster |}
  else updateMarkerSizesSafely zoom st.

End Engine.
End MarkerState.

(** The states the public methods of the marker manager lead to, from
    the state the constructor builds. *)
Inductive MarkerReachable (M : JS.JSMath) (photos : list Photo.t)
    (areas : list Area.t) : MarkerState.t -> Prop :=
| reach_initial : MarkerReachable M photos areas MarkerState.initial
| reach_addAreaMarkers zoom st :
    MarkerReachable M photos areas st ->
    MarkerReachable M photos areas
      (MarkerState.addAreaMarkers M photos areas zoom st)
| reach_refreshAreaMarkers zoom st :
    MarkerReachable M photos areas st ->
    MarkerReachable M photos areas
      (MarkerState.refreshAreaMarkers M photos areas zoom st)
| reach_clearAreaMarkers st :
    MarkerReachable M photos areas st ->
    MarkerReachable M photos areas (MarkerState.clearAreaMarkers st)
| reach_selectMarker zoom c st :
    MarkerReachable M photos areas st ->
    MarkerReachable M photos areas (MarkerState.selectMarker zoom c st)
| reach_deselectCurrentMarker st :
    MarkerReachable M photos areas st ->
    MarkerReachable M photos areas (MarkerState.deselectCurrentMarker st)
| reach_updateMarkerSizesSafely zoom st :
    MarkerReachable M photos areas st ->
    MarkerReachable M photos areas
      (MarkerState.updateMarkerSizesSafely M photos zoom st)
| reach_handleZoomChange zoom st :
    MarkerReachable M photos areas st ->
    MarkerReachable M photos areas
      (MarkerState.handleZoomChange M photos areas zoom st).

(** What the marker manager keeps true of its state. *)
Record MarkerInvariant (st : MarkerState.t) : Prop := {
  layer_in_heap : forall h,
      In h (MarkerState.areaLayer st) ->
      is_Some (MarkerState.objects st !! h);
  lookup_on_layer : forall k info,
      MarkerState.markerLookup st !! k = Some info ->
      In (MarkerState.marker info) (MarkerState.areaLayer st);
  cluster_data_shape : forall h o,
      MarkerState.objects st !! h = Some o ->
      MarkerState.clusterData o
      = if Cluster.isCluster (MarkerState.areaData o)
        then Some (MarkerState.areaData o) else None;
  highlighted_is_selected : forall h o,
      In h (MarkerState.areaLayer st) ->
      MarkerState.objects st !! h = Some o ->
      MarkerState.highlighted (MarkerState.icon o) = true ->
      MarkerState.selectedMarker st = Some h;
  selection_is_known : forall h,
      MarkerState.selectedMarker st = Some h ->
      exists c info,
        MarkerState.selectedCluster st = Some c
        /\ MarkerState.markerLookup st !! Cluster.id c = Some info;
  original_is_plain : forall k info,
      MarkerState.markerLookup st !! k = Some info ->
      MarkerState.highlighted (MarkerState.originalIcon info) = false
}.

(** The marker candidates the markers of the layer stand for, in layer
    order. *)
Definition layerClusters (st : MarkerState.t) : list Cluster.t :=
  omap (fun h => MarkerState.areaData <$> MarkerState.objects st !! h)
       (MarkerState.areaLayer st).

(** Every marker of the layer is an object of the heap. *)
Definition heaped (st : MarkerState.t) : Prop :=
  forall h,
    In h (MarkerState.areaLayer st) ->
    is_Some (MarkerState.objects st !! h).

(** Marker [h] carries an icon of the size its kind has at [zoom]. *)
Definition sizedFor (zoom : Q) (st : MarkerState.t) (h : nat) : Prop :=
  exists o,
    MarkerState.objects st !! h = Some o
    /\ MarkerState.iconSize (MarkerState.icon o)
       == inject_Z
            (MarkerManager.getResponsiveMarkerSize zoom
               (Cluster.isCluster (MarkerState.areaData o))).

(** The layer shows the markers of the clustering mode that
    [lastClusterState] records. *)
Definition inSync (M : JS.JSMath) (photos : list Photo.t)
    (areas : list Area.t) (st : MarkerState.t) : Prop :=
  forall zoom,
    MarkerState.lastClusterState st
    = Some (MarkerManager.shouldClusterMarkers zoom) ->
    layerClusters st
    = List.map MarkerManager.areaData
        (MarkerManager.addAreaMarkers M photos zoom areas).

(** A marker layer to run the marker manager on: area [a1] with its one
    photo, drawn at zoom 14. *)
Module SampleState.

Definition shown : MarkerState.t :=
  MarkerState.addAreaMarkers JS.refMath [Sample.p1] [Sample.a1] 14
    MarkerState.initial.

Definition c1 : Cluster.t := MarkerManager.spread Sample.a1.

(** The second area of scenario A, switched off. *)
Definition a2_inactive : Area.t :=
  Sample.area "a2" (Some 34.8515) (Some 134.6021) (Some 0.8) false.

(** An area some eleven kilometres north of [a1]. *)
Definition a_far : Area.t :=
  Sample.area "a3" (Some 34.95) (Some 134.60) (Some 0.8) true.

End SampleState.

(** What the legacy clustering promises of a marker candidate: it is
    active, it has at least one photo, and it stands for active areas of
    the input. *)
Definition legacyCandidate (areas : list Area.t) (c : Cluster.t) : Prop :=
  Cluster.is_active c = true
  /\ (exists p ps, Cluster.photos c = Some (p :: ps))
  /\ Forall (fun a => Area.is_active a = true /\ In a areas)
       (Cluster.members c).

(** What the loop of [PhotoMapApp.createPhotoClusters] keeps true of
    [processedAreas] and [clusters]. *)
Definition legacyLoopInvariant (areas : list Area.t)
    (st : PhotoMapApp.loop_state) : Prop :=
  Forall (legacyCandidate areas) (snd st)
  /\ (forall a, In a (flat_map Cluster.members (snd st)) ->
                Area.id a ∈ fst st)
  /\ (List.NoDup (List.map Area.id areas) ->
      List.NoDup (List.map Area.id (flat_map Cluster.members (snd st)))).

(** ** EventEmitter (js/utils/EventEmitter.js) *)

(** The listener table of an emitter and the methods that read and change
    it.  A listener function and a context object are references, here
    numbers; what a call of a listener does is given by [call].
    Listeners are taken not to register or remove listeners of the
    emitter they are called from, priorities to be integers, and what a
    listener throws to be an [Error]. *)
Module EventEmitter.

Record ListenerObj := {
  listener : nat;
  context : option nat;                (* [null] by default *)
  priority : Z;
  once : bool;
  id : string
}.

(** The [options] of [on]. *)
Record Options := {
  opt_context : option nat;
  opt_priority : Z;
  opt_once : bool
}.

(** [options = {}] *)
Definition no_options : Options :=
  {| opt_context := None; opt_priority := 0; opt_once := false |}.

(** [this.events] of [new EventEmitter()] *)
Definition initial : gmap string (list ListenerObj) := ∅.

(** [listeners.sort((a, b) => b.priority - a.priority)]: the sort of an
    array is stable, so it is the insertion sort that keeps listeners of
    equal priority in their order. *)
Fixpoint insert (x : ListenerObj) (l : list ListenerObj)
  : list ListenerObj :=
  match l with
  | [] => [x]
  | y :: l' =>
      if (priority x <? priority y)%Z then y :: insert x l'
      else x :: y :: l'
  end.

Definition sort (l : list ListenerObj) : list ListenerObj :=
  fold_right insert [] l.

(** [generateId()]; [stamp] stands for the time and the random digits. *)
Definition generateId (stamp : string) : string := "listener_" +:+ stamp.

(** [on(eventName, listener, options)]: the new table and the id
    returned. *)
Definition on (eventName : string) (fn : nat) (options : Options)
    (stamp : string) (events : gmap string (list ListenerObj))
  : gmap string (list ListenerObj) * string :=
  let existingListeners := default [] (events !! eventName) in
  let listenerObj :=
    {| listener := fn; context := opt_context options;
       priority := opt_priority options; once := opt_once options;
       id := generateId stamp |} in
  (<[eventName := sort (existingListeners ++ [listenerObj])]> events,
   id listenerObj).

(** [once(eventName, listener, options)] *)
Definition once_ (eventName : string) (fn : nat) (options : Options)
    (stamp : string) (events : gmap string (list ListenerObj))
  : gmap string (list ListenerObj) * string :=
  on eventName fn
    {| opt_context := opt_context options;
       opt_priority := opt_priority options; opt_once := true |}
    stamp events.

(** [listeners.findIndex(p)] and [listeners.splice(index, 1)]: [None]
    when nothing matches. *)
Fixpoint remove_first (p : ListenerObj -> bool) (l : list ListenerObj)
  : option (list ListenerObj) :=
  match l with
  | [] => None
  | x :: l' =>
      if p x then Some l'
      else match remove_first p l' with
           | Some r => Some (x :: r)
           | None => None
           end
  end.

(** The second argument of [off]: nothing, an id or a listener
    function. *)
Definition Target : Type := option (string + nat).

(** [!listenerOrId] *)
Definition no_target (listenerOrId : Target) : bool :=
  match listenerOrId with
  | None => true
  | Some (inl ident) => String.eqb ident ""
  | Some (inr _) => false
  end.

Definition matches (listenerOrId : Target) (l : ListenerObj) : bool :=
  match listenerOrId with
  | Some (inl ident) => String.eqb (id l) ident
  | Some (inr fn) => Nat.eqb (listener l) fn
  | None => false
  end.

(** [off(eventName, listenerOrId)] *)
Definition off (eventName : string) (listenerOrId : Target)
    (events : gmap string (list ListenerObj))
  : gmap string (list ListenerObj) * bool :=
  if no_target listenerOrId then (delete eventName events, true)
  else
    match events !! eventName with
    | None => (events, false)
    | Some listeners =>
        match remove_first (matches listenerOrId) listeners with
        | Some rest => (<[eventName := rest]> events, true)
        | None => (events, false)
        end
    end.

(** [offAll(context)]: the count adds up, for each event,
    [initialLength - listeners.length], both read from the array that
    [filter] leaves as it is. *)
Definition same_context (c1 c2 : option nat) : bool :=
  bool_decide (c1 = c2).

Definition offAll (ctx : option nat) (events : gmap string (list ListenerObj))
  : gmap string (list ListenerObj) * nat :=
  (List.filter (fun l => negb (same_context (context l) ctx)) <$> events,
   map_fold
     (fun _ listeners removedCount =>
        let initialLength := length listeners in
        (removedCount + (initialLength - length listeners))%nat)
     0%nat events).

(** [hasListeners(eventName)], read as a condition. *)
Definition hasListeners (eventName : string)
    (events : gmap string (list ListenerObj)) : bool :=
  match events !! eventName with
  | Some listeners => (0 <? length listeners)%nat
  | None => false
  end.

(** [getListenerCount(eventName)] *)
Definition getListenerCount (eventName : string)
    (events : gmap string (list ListenerObj)) : nat :=
  match events !! eventName with
  | Some listeners => length listeners
  | None => 0%nat
  end.

(** [clear()] *)
Definition clear (events : gmap string (list ListenerObj))
  : gmap string (list ListenerObj) := ∅.

Section Emit.
Variable Data Value : Type.

(** The object a listener is called with, but for [emitter]. *)
Record EventData := {
  type : string;
  data : Data;
  timestamp : Z
}.

Inductive Outcome :=
| Returned (result : Value)
| Thrown (message : string).

(** An entry of the array [emit] resolves to. *)
Inductive Result :=
| Success (ident : string) (result : Value)
| Failure (ident : string) (error : string).

Variable call : nat -> option nat -> EventData -> Outcome.

(** One turn of the loop of [emit]: [results] and [listenersToRemove]. *)
Definition notify (eventData : EventData)
    (acc : list Result * list string) (listenerObj : ListenerObj)
  : list Result * list string :=
  let '(results, listenersToRemove) := acc in
  match call (listener listenerObj) (context listenerObj) eventData with
  | Returned result =>
      (results ++ [Success (id listenerObj) result],
       if once listenerObj then listenersToRemove ++ [id listenerObj]
       else listenersToRemove)
  | Thrown message =>
      (results ++ [Failure (id listenerObj) message], listenersToRemove)
  end.

(** [emit(eventName, data)] with the synchronous default; [now] is
    [Date.now()]. *)
Definition emit (eventName : string) (payload : Data) (now : Z)
    (events : gmap string (list ListenerObj))
  : gmap string (list ListenerObj) * list Result :=
  match events !! eventName with
  | None => (events, [])
  | Some [] => (events, [])
  | Some listeners =>
      let eventData :=
        {| type := eventName; data := payload; timestamp := now |} in
      let '(results, listenersToRemove) :=
        fold_left (notify eventData) listeners ([], []) in
      (fold_left
         (fun events ident => fst (off eventName (Some (inl ident)) events))
         listenersToRemove events,
       results)
  end.

End Emit.

Arguments Returned {Value} result.
Arguments Thrown {Value} message.
Arguments Success {Value} ident result.
Arguments Failure {Value} ident error.
Arguments emit {Data Value} call eventName payload now events.
Arguments notify {Data Value} call eventData acc listenerObj.
Arguments Build_EventData {Data} type data timestamp.

End EventEmitter.

(** The listeners run in this order: by descending priority. *)
Definition descending (l : list EventEmitter.ListenerObj) : Prop :=
  StronglySorted
    (fun a b => (EventEmitter.priority b <= EventEmitter.priority a)%Z) l.

(** [x] put behind the listeners of its priority or a higher one. *)
Fixpoint place (x : EventEmitter.ListenerObj)
    (l : list EventEmitter.ListenerObj) : list EventEmitter.ListenerObj :=
  match l with
  | [] => [x]
  | y :: l' =>
      if (EventEmitter.priority y <? EventEmitter.priority x)%Z
      then x :: y :: l'
      else y :: place x l'
  end.

(** The tables the methods of an emitter lead to. *)
Inductive EmitterReachable {Data Value : Type}
    (call : nat -> option nat -> EventEmitter.EventData Data
            -> EventEmitter.Outcome Value)
  : gmap string (list EventEmitter.ListenerObj) -> Prop :=
| emitter_initial : EmitterReachable call EventEmitter.initial
| emitter_on eventName fn options stamp events :
    EmitterReachable call events ->
    EmitterReachable call
      (fst (EventEmitter.on eventName fn options stamp events))
| emitter_off eventName target events :
    EmitterReachable call events ->
    EmitterReachable call (fst (EventEmitter.off eventName target events))
| emitter_offAll ctx events :
    EmitterReachable call events ->
    EmitterReachable call (fst (EventEmitter.offAll ctx events))
| emitter_emit eventName payload now events :
    EmitterReachable call events ->
    EmitterReachable call
      (fst (EventEmitter.emit call eventName payload now events))
| emitter_clear events :
    EmitterReachable call events ->
    EmitterReachable call (EventEmitter.clear events).

(** A result entry is for the listener of this id. *)
Definition result_id {Value : Type} (r : EventEmitter.Result Value)
  : string :=
  match r with
  | EventEmitter.Success ident _ => ident
  | EventEmitter.Failure ident _ => ident
  end.

(** The listeners of every event are in descending priority and carry
    ids made by [generateId]. *)
Definition tidy (events : gmap string (list EventEmitter.ListenerObj))
  : Prop :=
  forall eventName l,
    events !! eventName = Some l ->
    descending l
    /\ Forall
         (fun x => exists stamp,
                     EventEmitter.id x = EventEmitter.generateId stamp) l.

(** The entry of the results for one listener, and whether the listener
    has run its one time. *)
Definition answered {Data Value : Type}
    (call : nat -> option nat -> EventEmitter.EventData Data
            -> EventEmitter.Outcome Value)
    (eventData : EventEmitter.EventData Data)
    (l : EventEmitter.ListenerObj) : EventEmitter.Result Value :=
  match call (EventEmitter.listener l) (EventEmitter.context l) eventData with
  | EventEmitter.Returned result =>
      EventEmitter.Success (EventEmitter.id l) result
  | EventEmitter.Thrown message =>
      EventEmitter.Failure (EventEmitter.id l) message
  end.

Definition spent {Data Value : Type}
    (call : nat -> option nat -> EventEmitter.EventData Data
            -> EventEmitter.Outcome Value)
    (eventData : EventEmitter.EventData Data)
    (l : EventEmitter.ListenerObj) : bool :=
  match call (EventEmitter.listener l) (EventEmitter.context l) eventData with
  | EventEmitter.Returned _ => EventEmitter.once l
  | EventEmitter.Thrown _ => false
  end.

(** The listeners left when those of the ids [ids] are taken out one
    after the other, as [emit] does with [off]. *)
Definition drop_ids (ids : list string)
    (l : list EventEmitter.ListenerObj) : list EventEmitter.ListenerObj :=
  fold_left
    (fun l ident =>
       default l
         (EventEmitter.remove_first
            (EventEmitter.matches (Some (inl ident))) l))
    ids l.

(** An emitter to run: listener 0 throws, every other listener returns
    its own number; on event [e], listener 1 with priority 5 and
    listener 0, registered for one call, with the default priority. *)
Module SampleEmitter.

Definition call (fn : nat) (ctx : option nat)
    (eventData : EventEmitter.EventData unit) : EventEmitter.Outcome nat :=
  if (fn =? 0)%nat then EventEmitter.Thrown "boom"
  else EventEmitter.Returned fn.

Definition events : gmap string (list EventEmitter.ListenerObj) :=
  fst (EventEmitter.once_ "e" 0 EventEmitter.no_options "b"
         (fst (EventEmitter.on "e" 1
                 {| EventEmitter.opt_context := Some 7%nat;
                    EventEmitter.opt_priority := 5;
                    EventEmitter.opt_once := false |}
                 "a" EventEmitter.initial))).

End SampleEmitter.

(** ** ErrorHandler (js/utils/ErrorHandler.js) *)

(** The counters of the error handler and what [handle] answers.  A
    [Map] keeps its keys in the order of their first [set]: it is a list
    of entries.  The fallback is taken not to call the error handler
    itself; what it does is given by its outcome. *)
Module ErrorHandler.

Definition maxRetries : nat := 3.

(** [map.get(key)] and [map.set(key, value)] *)
Fixpoint get (key : string) (entries : list (string * nat)) : option nat :=
  match entries with
  | [] => None
  | (k, v) :: rest => if String.eqb k key then Some v else get key rest
  end.

Fixpoint set (key : string) (value : nat) (entries : list (string * nat))
  : list (string * nat) :=
  match entries with
  | [] => [(key, value)]
  | (k, v) :: rest =>
      if String.eqb k key then (key, value) :: rest
      else (k, v) :: set key value rest
  end.

Record t := {
  errorCounts : list (string * nat);
  userNotificationShown : gset string;
  panels : nat                   (* notification panels appended so far *)
}.

(** The static fields as the class declares them; [resetErrorCounts]. *)
Definition initial : t :=
  {| errorCounts := []; userNotificationShown := ∅; panels := 0 |}.

Definition resetErrorCounts (st : t) : t :=
  {| errorCounts := []; userNotificationShown := ∅; panels := panels st |}.

(** [this.errorCounts.get(context) || 0] *)
Definition currentCount (context : string) (st : t) : nat :=
  match get context (errorCounts st) with
  | Some n => n
  | None => 0
  end.

(** [shouldRetry(context)] *)
Definition shouldRetry (context : string) (st : t) : bool :=
  (currentCount context st <? maxRetries)%nat.

(** [updateErrorCount(context)] *)
Definition updateErrorCount (context : string) (st : t) : t :=
  {| errorCounts :=
       set context (currentCount context st + 1) (errorCounts st);
     userNotificationShown := userNotificationShown st;
     panels := panels st |}.

(** [showUserNotification(errorInfo)], up to the timer it starts. *)
Definition showUserNotification (category context : string) (st : t) : t :=
  let notificationKey := category +:+ "-" +:+ context in
  if bool_decide (notificationKey ∈ userNotificationShown st) then st
  else
    {| errorCounts := errorCounts st;
       userNotificationShown :=
         {[notificationKey]} ∪ userNotificationShown st;
       panels := panels st + 1 |}.

(** The timer of [showUserNotification] running out. *)
Definition notificationTimeout (notificationKey : string) (st : t) : t :=
  {| errorCounts := errorCounts st;
     userNotificationShown := userNotificationShown st ∖ {[notificationKey]};
     panels := panels st |}.

Section Handle.
Variable Value : Type.

(** What running the fallback gives: a result, or the message of the
    error it throws. *)
Inductive FallbackOutcome :=
| FallbackReturned (result : Value)
| FallbackThrown (message : string).

Record Options := {
  category : string;
  showToUser : bool;
  fallback : option FallbackOutcome;
  retry : bool
}.

(** The object [handle] resolves to; of [errorInfo], its context. *)
Inductive Handled :=
| Retry (context : string)                       (* [{ retry: true }] *)
| Recovered (result : Value) (context : string)  (* [{ success: true }] *)
| Failed (context : string).                     (* [{ success: false }] *)

(** [handle(error, context, options)] *)
Definition handle (context : string) (options : Options) (st : t)
  : t * Handled :=
  let st := updateErrorCount context st in
  let st :=
    if showToUser options
    then showUserNotification (category options) context st
    else st in
  if retry options && shouldRetry context st then (st, Retry context)
  else
    match fallback options with
    | Some (FallbackReturned result) => (st, Recovered result context)
    | Some (FallbackThrown _) => (st, Failed (context +:+ " (Fallback)"))
    | None => (st, Failed context)
    end.

End Handle.

Arguments FallbackReturned {Value} result.
Arguments FallbackThrown {Value} message.
Arguments Build_Options {Value} category showToUser fallback retry.
Arguments category {Value} o.
Arguments showToUser {Value} o.
Arguments fallback {Value} o.
Arguments retry {Value} o.
Arguments Retry {Value} context.
Arguments Recovered {Value} result context.
Arguments Failed {Value} context.
Arguments handle {Value} context options st.

(** [getErrorStats().totalErrors] *)
Definition totalErrors (st : t) : nat :=
  fold_left (fun sum count => (sum + count)%nat)
    (List.map snd (errorCounts st)) 0%nat.

(** [getMostFrequentError()]; an empty context is falsy. *)
Definition getMostFrequentError (st : t) : option (string * nat) :=
  let '(maxCount, mostFrequent) :=
    fold_left
      (fun '(maxCount, mostFrequent) '(context, count) =>
         if (maxCount <? count)%nat then (count, Some context)
         else (maxCount, mostFrequent))
      (errorCounts st) (0%nat, None) in
  match mostFrequent with
  | Some context =>
      if String.eqb context "" then None else Some (context, maxCount)
  | None => None
  end.

End ErrorHandler.

(** The states of the error handler after the errors [calls], each a
    context and the options it is handled with, from [st] on. *)
Definition handleAll {Value : Type}
    (calls : list (string * ErrorHandler.Options Value))
    (st : ErrorHandler.t) : ErrorHandler.t :=
  fold_left (fun st c => fst (ErrorHandler.handle (fst c) (snd c) st))
    calls st.

(** How many of the errors [calls] have the context [context]. *)
Definition occurrences {Value : Type} (context : string)
    (calls : list (string * ErrorHandler.Options Value)) : nat :=
  length (List.filter (fun c => String.eqb (fst c) context) calls).

(** ** DataManager: loading and the response cache *)

(** [fetchWithCache] and [loadData] over a model of the Fetch interface:
    a [Response] is an object with identity whose body can be read once;
    [clone] makes a second object with a body of its own; [json] rejects
    when the body has been read.  What the network answers and what
    [Date.now()] returns are arguments.  The two fetches of [loadData]
    are followed one after the other; they work on different cache
    keys. *)
Module DataLoading.

(** [5 * 60 * 1000] *)
Definition cacheExpiry : Z := 5 * 60 * 1000.

Inductive Error :=
| NetworkError                     (* [fetch] rejects *)
| FetchFailed (key : string)       (* [!response.ok] *)
| BodyAlreadyRead                  (* [json()] on a body already read *)
| InvalidJson.                     (* [json()] on a body that does not parse *)

Record CacheEntry := {
  response : nat;
  timestamp : Z
}.

Section Load.
Variable Data : Type.
Variable embeddedPhotos embeddedAreas : Data.   (* [loadEmbeddedData] *)

Record Response := {
  ok : bool;
  body : option Data;              (* [None]: not JSON *)
  bodyUsed : bool
}.

(** What [fetch(url)] does. *)
Inductive Net :=
| Rejected
| Answered (ok : bool) (body : option Data).

Record t := {
  responses : gmap nat Response;   (* the response objects made so far *)
  cache : gmap string CacheEntry;
  photos : option Data;            (* [None]: the constructor's empty array *)
  areas : option Data;
  errors : ErrorHandler.t
}.

Definition with_responses (r : gmap nat Response) (st : t) : t :=
  {| responses := r; cache := cache st; photos := photos st;
     areas := areas st; errors := errors st |}.

(** [fetchWithCache(url, key)]; [now] and [stored] are the two readings
    of the clock. *)
Definition fetchWithCache (url key : string) (now : Z) (net : Net)
    (stored : Z) (st : t) : t * (Error + nat) :=
  let cacheKey := key +:+ "_" +:+ url in
  let fetch :=
    match net with
    | Rejected => (st, inl NetworkError)
    | Answered isOk content =>
        let h := fresh (dom (responses st)) in
        let fetched :=
          {| ok := isOk; body := content; bodyUsed := false |} in
        let st := with_responses (<[h := fetched]> (responses st)) st in
        if negb isOk then (st, inl (FetchFailed key))
        else
          let copy := fresh (dom (responses st)) in
          ({| responses := <[copy := fetched]> (responses st);
              cache :=
                <[cacheKey := {| response := copy; timestamp := stored |}]>
                  (cache st);
              photos := photos st; areas := areas st;
              errors := errors st |},
           inr h)
    end in
  match cache st !! cacheKey with
  | Some cached =>
      if (now - timestamp cached <? cacheExpiry)%Z
      then (st, inr (response cached))
      else fetch
  | None => fetch
  end.

(** [response.json()] *)
Definition json (h : nat) (st : t) : t * (Error + Data) :=
  match responses st !! h with
  | Some r =>
      if bodyUsed r then (st, inl BodyAlreadyRead)
      else
        (with_responses
           (<[h := {| ok := ok r; body := body r; bodyUsed := true |}]>
              (responses st)) st,
         match body r with
         | Some content => inr content
         | None => inl InvalidJson
         end)
  | None => (st, inl BodyAlreadyRead)
  end.

(** [clearCache()] *)
Definition clearCache (st : t) : t :=
  {| responses := responses st; cache := ∅; photos := photos st;
     areas := areas st; errors := errors st |}.

(** What [loadData] resolves to, or that it throws. *)
Inductive Loaded :=
| Returned (photos areas : Data)
| Thrown.

(** The [catch] of [loadData]: the error handler with the embedded data
    as the fallback. *)
Definition recover (st : t) : t * Loaded :=
  let '(handler, result) :=
    ErrorHandler.handle "DataManager.loadData"
      (ErrorHandler.Build_Options "data" true
         (Some (ErrorHandler.FallbackReturned
                  (embeddedPhotos, embeddedAreas)))
         false)
      (errors st) in
  ({| responses := responses st; cache := cache st;
      photos := Some embeddedPhotos; areas := Some embeddedAreas;
      errors := handler |},
   match result with
   | ErrorHandler.Recovered (p, a) _ => Returned p a
   | _ => Thrown
   end).

(** One reading of the clock and one answer of the network for each of
    the two files. *)
Record World := {
  photosNow : Z; photosNet : Net; photosStored : Z;
  areasNow : Z; areasNet : Net; areasStored : Z
}.

(** [loadData()] *)
Definition loadData (baseUrl : string) (w : World) (st : t) : t * Loaded :=
  let photosUrl := baseUrl +:+ "/data/photos.json" in
  let areasUrl := baseUrl +:+ "/data/areas.json" in
  let '(st, photosResponse) :=
    fetchWithCache photosUrl "photos" (photosNow w) (photosNet w)
      (photosStored w) st in
  let '(st, areasResponse) :=
    fetchWithCache areasUrl "areas" (areasNow w) (areasNet w)
      (areasStored w) st in
  match photosResponse, areasResponse with
  | inr photosResponse, inr areasResponse =>
      let '(st, photosData) := json photosResponse st in
      let '(st, areasData) := json areasResponse st in
      match photosData, areasData with
      | inr photosData, inr areasData =>
          ({| responses := responses st; cache := cache st;
              photos := Some photosData; areas := Some areasData;
              errors := errors st |},
           Returned photosData areasData)
      | _, _ => recover st
      end
  | _, _ => recover st
  end.

(** [new DataManager()], with the error handler as it is. *)
Definition initial (handler : ErrorHandler.t) : t :=
  {| responses := ∅; cache := ∅; photos := None; areas := None;
     errors := handler |}.

End Load.

Arguments ok {Data} r.
Arguments body {Data} r.
Arguments bodyUsed {Data} r.
Arguments Build_Response {Data} ok body bodyUsed.
Arguments Rejected {Data}.
Arguments Answered {Data} ok body.
Arguments responses {Data} t.
Arguments cache {Data} t.
Arguments photos {Data} t.
Arguments areas {Data} t.
Arguments errors {Data} t.
Arguments with_responses {Data} r st.
Arguments fetchWithCache {Data} url key now net stored st.
Arguments json {Data} h st.
Arguments clearCache {Data} st.
Arguments Returned {Data} photos areas.
Arguments Thrown {Data}.
Arguments recover {Data} embeddedPhotos embeddedAreas st.
Arguments loadData {Data} embeddedPhotos embeddedAreas baseUrl w st.
Arguments initial {Data} handler.
Arguments Build_World {Data}.
Arguments photosNow {Data} w.
Arguments photosNet {Data} w.
Arguments photosStored {Data} w.
Arguments areasNow {Data} w.
Arguments areasNet {Data} w.
Arguments areasStored {Data} w.

End DataLoading.

(** The body of response [h] is there to be read and holds [content]. *)
Definition readable {Data : Type} (st : DataLoading.t Data) (h : nat)
    (content : Data) : Prop :=
  exists r,
    DataLoading.responses st !! h = Some r
    /\ DataLoading.body r = Some content
    /\ DataLoading.bodyUsed r = false.

(** Both files are served from the cache at the times of [w]. *)
Definition cacheFresh {Data : Type} (baseUrl : string)
    (w : DataLoading.World Data) (st : DataLoading.t Data) : Prop :=
  (exists e,
      DataLoading.cache st !! ("photos_" +:+ baseUrl +:+ "/data/photos.json")
      = Some e
      /\ (DataLoading.photosNow w - DataLoading.timestamp e
          < DataLoading.cacheExpiry)%Z)
  /\ (exists e,
        DataLoading.cache st !! ("areas_" +:+ baseUrl +:+ "/data/areas.json")
        = Some e
        /\ (DataLoading.areasNow w - DataLoading.timestamp e
            < DataLoading.cacheExpiry)%Z).

(** Loads to run: the data are numbers, 0 stands for the embedded data;
    the first load is answered by the network, later ones find the
    network down. *)
Module SampleLoad.

Definition answered : DataLoading.World nat :=
  DataLoading.Build_World 0 (DataLoading.Answered true (Some 1%nat)) 5
    0 (DataLoading.Answered true (Some 2%nat)) 6.

Definition offline (now : Z) : DataLoading.World nat :=
  DataLoading.Build_World now DataLoading.Rejected now
    now DataLoading.Rejected now.

Definition loaded : DataLoading.t nat :=
  fst (DataLoading.loadData 0%nat 0%nat "" answered
         (DataLoading.initial ErrorHandler.initial)).

End SampleLoad.

(** ** PhotoMapApp: the pages of the photo grid *)

(** The paging state of the legacy application and the slice of
    [renderAreaPhotosGrid].  The page size starts at 12 and grows by 12;
    for a page size of 0, which JavaScript turns into [Infinity] pages,
    nothing is stated below. *)
Module Paging.

Record t := {
  filteredPhotos : list Photo.t;
  currentPage : nat;
  photosPerPage : nat
}.

(** The constructor, and [showAreaInfo] as far as paging goes. *)
Definition initial : t :=
  {| filteredPhotos := []; currentPage := 1%nat; photosPerPage := 12%nat |}.

Definition showAreaInfo (areaPhotos : list Photo.t) (st : t) : t :=
  {| filteredPhotos := areaPhotos; currentPage := 1%nat;
     photosPerPage := photosPerPage st |}.

(** [Math.ceil(this.filteredPhotos.length / this.photosPerPage)] *)
Definition totalPages (st : t) : nat :=
  ((length (filteredPhotos st) + photosPerPage st - 1)
   / photosPerPage st)%nat.

(** [array.slice(startIndex, endIndex)] for indices within the array *)
Definition slice {A} (l : list A) (startIndex endIndex : nat) : list A :=
  firstn (endIndex - startIndex) (skipn startIndex l).

(** [pagePhotos] of [renderAreaPhotosGrid] *)
Definition pagePhotos (st : t) : list Photo.t :=
  let startIndex := ((currentPage st - 1) * photosPerPage st)%nat in
  let endIndex :=
    Nat.min (startIndex + photosPerPage st)%nat
      (length (filteredPhotos st)) in
  slice (filteredPhotos st) startIndex endIndex.

(** [changePage(direction)] *)
Definition changePage (direction : Z) (st : t) : t :=
  if (direction =? 1)%Z && (currentPage st <? totalPages st)%nat
  then {| filteredPhotos := filteredPhotos st;
          currentPage := (currentPage st + 1)%nat;
          photosPerPage := photosPerPage st |}
  else if (direction =? -1)%Z && (1 <? currentPage st)%nat
  then {| filteredPhotos := filteredPhotos st;
          currentPage := (currentPage st - 1)%nat;
          photosPerPage := photosPerPage st |}
  else st.

(** [loadMorePhotos()] *)
Definition loadMorePhotos (st : t) : t :=
  {| filteredPhotos := filteredPhotos st; currentPage := currentPage st;
     photosPerPage := (photosPerPage st + 12)%nat |}.

(** The state at page [page]. *)
Definition at_page (page : nat) (st : t) : t :=
  {| filteredPhotos := filteredPhotos st; currentPage := page;
     photosPerPage := photosPerPage st |}.

End Paging.

(** ** PhotoMapApp: thumbnail addresses *)

(** A string is the sequence of the bytes of its UTF-8 form; looking for
    ASCII text in it and cutting it at an ASCII character give what
    JavaScript gives on the UTF-16 form. *)
Module Thumbnail.

(** [s.includes(needle)] *)
Fixpoint includes (needle s : string) : bool :=
  String.prefix needle s
  || match s with
     | EmptyString => false
     | String _ rest => includes needle rest
     end.

(** [s.split(c)[0]] *)
Fixpoint before (c : Ascii.ascii) (s : string) : string :=
  match s with
  | EmptyString => EmptyString
  | String a rest =>
      if Ascii.eqb a c then EmptyString else String a (before c rest)
  end.

(** [generateThumbnailUrl(imageUrl)] *)
Definition generateThumbnailUrl (imageUrl : string) : string :=
  if includes "unsplash.com" imageUrl
  then
    if includes "?" imageUrl
    then before "?"%char imageUrl +:+ "?w=200&h=200&fit=crop"
    else imageUrl +:+ "?w=200&h=200&fit=crop"
  else imageUrl.

End Thumbnail.

(** ** Engines that are exact at the origin *)

(** What the language standard fixes of the mathematical functions:
    [sin 0 = 0], [sqrt 0 = 0], [sqrt 1 = 1] (here: a positive number) and
    [atan2 0 x = 0] for a positive [x]. *)
Definition exactAtOrigin (M : JS.JSMath) : Prop :=
  (forall x, x == 0 -> JS.Math_sin M x == 0)
  /\ (forall x, x == 0 -> exists r, JS.Math_sqrt M x = Some r /\ r == 0)
  /\ (forall x, x == 1 -> exists r, JS.Math_sqrt M x = Some r /\ 0 < r)
  /\ (forall y x, y == 0 -> 0 < x -> JS.Math_atan2 M y x == 0).

(** ** PhotoMapApp: the tags of a photo *)

(** [parseTags] on strings as sequences of UTF-16 code units, so that
    [trim] can be given its white space: the characters [WhiteSpace] and
    [LineTerminator] of the language standard, all of one code unit. *)
Module Tags.

Definition comma : N := 44.

Definition whiteSpace : list N :=
  [9; 10; 11; 12; 13; 32; 160; 5760;
   8192; 8193; 8194; 8195; 8196; 8197; 8198; 8199; 8200; 8201; 8202;
   8232; 8233; 8239; 8287; 12288; 65279]%N.

Definition isWhite (c : N) : bool := existsb (N.eqb c) whiteSpace.

(** [s.trimStart()] and [s.trim()] *)
Fixpoint trimStart (s : list N) : list N :=
  match s with
  | [] => []
  | c :: rest => if isWhite c then trimStart rest else s
  end.

Definition trim (s : list N) : list N :=
  rev (trimStart (rev (trimStart s))).

(** [s.split(',')] *)
Fixpoint split (sep : N) (s : list N) : list (list N) :=
  match s with
  | [] => [[]]
  | c :: rest =>
      if (c =? sep)%N then [] :: split sep rest
      else
        match split sep rest with
        | first :: others => (c :: first) :: others
        | [] => [[c]]
        end
  end.

(** [tags.join(',')] *)
Fixpoint join (sep : N) (tags : list (list N)) : list N :=
  match tags with
  | [] => []
  | [tag] => tag
  | tag :: rest => tag ++ sep :: join sep rest
  end.

(** A string is truthy when it is not empty. *)
Definition nonEmpty (s : list N) : bool :=
  match s with
  | [] => false
  | _ :: _ => true
  end.

(** [parseTags(tagsString)]; [None] is [undefined] or [null]. *)
Definition parseTags (tagsString : option (list N)) : list (list N) :=
  match tagsString with
  | None => []
  | Some s =>
      if negb (nonEmpty (trim s)) then []
      else List.filter nonEmpty (List.map trim (split comma s))
  end.

End Tags.

(** * Marker size *)

Module MarkerSizeProofs.

Ltac qle_cases :=
  repeat match goal with
  | |- context [Qle_bool ?a ?b] =>
      let E := fresh "E" in
      destruct (Qle_bool a b) eqn:E;
      [ apply Qle_bool_iff in E
      | assert (~ a <= b) by (rewrite <- Qle_bool_iff; congruence); clear E ]
  end.

Ltac unfold_config :=
  unfold APP_CONFIG.MAP.MIN_ZOOM, APP_CONFIG.MAP.MAX_ZOOM,
    APP_CONFIG.MARKER.MIN_SIZE, APP_CONFIG.MARKER.MAX_SIZE,
    APP_CONFIG.MARKER.SIZE_SCALE_FACTOR, Qdiv;
  change (/ (18 - 10)) with (1 # 8).

Lemma legacy_bands : StepBands PhotoMapApp.getResponsiveMarkerSize.
Proof.
  split; intros zoom c; intros;
    unfold PhotoMapApp.getResponsiveMarkerSize;
    qle_cases; try reflexivity; lra.
Qed.

Lemma legacy_monotone z1 z2 c :
  z1 <= z2 ->
  (PhotoMapApp.getResponsiveMarkerSize z1 c
   <= PhotoMapApp.getResponsiveMarkerSize z2 c)%Z.
Proof.
  intros H. unfold PhotoMapApp.getResponsiveMarkerSize.
  qle_cases; destruct c; try lia; lra.
Qed.

Lemma legacy_extensional z1 z2 c :
  z1 == z2 ->
  PhotoMapApp.getResponsiveMarkerSize z1 c
  = PhotoMapApp.getResponsiveMarkerSize z2 c.
Proof.
  intros H. unfold PhotoMapApp.getResponsiveMarkerSize.
  qle_cases; try reflexivity; lra.
Qed.

(** The refactored size is a rounded linear function of the zoom. *)
Lemma manager_linear zoom c :
  MarkerManager.getResponsiveMarkerSize zoom c
  = Qfloor ((if c then 3 # 2 else 1) * (20 + (15 # 4) * (zoom - 10))
            + (1 # 2)).
Proof.
  unfold MarkerManager.getResponsiveMarkerSize, JS.Math_round.
  apply Qfloor_comp. unfold_config. destruct c; lra.
Qed.

Lemma manager_monotone z1 z2 c :
  z1 <= z2 ->
  (MarkerManager.getResponsiveMarkerSize z1 c
   <= MarkerManager.getResponsiveMarkerSize z2 c)%Z.
Proof.
  intros H. rewrite !manager_linear. apply Qfloor_resp_le.
  destruct c; lra.
Qed.

Lemma manager_extensional z1 z2 c :
  z1 == z2 ->
  MarkerManager.getResponsiveMarkerSize z1 c
  = MarkerManager.getResponsiveMarkerSize z2 c.
Proof.
  intros H. rewrite !manager_linear. apply Qfloor_comp.
  destruct c; lra.
Qed.

End MarkerSizeProofs.

(** One value per band, for both marker kinds. *)
Example legacy_sizes :
  List.map (fun z => (PhotoMapApp.getResponsiveMarkerSize z false,
                      PhotoMapApp.getResponsiveMarkerSize z true))
           [9; 10; 11; 12; 13; 14; 15; 16; 17; 18]
  = [(12, 16); (12, 16); (18, 24); (18, 24); (30, 36); (30, 36);
     (42, 48); (42, 48); (54, 60); (54, 60)]%Z.
Proof. reflexivity. Qed.

Example manager_sizes :
  List.map (fun z => (MarkerManager.getResponsiveMarkerSize z false,
                      MarkerManager.getResponsiveMarkerSize z true))
           [10; 11; 12; 13; 14; 18]
  = [(20, 30); (24, 36); (28, 41); (31, 47); (35, 53); (50, 75)]%Z.
Proof. reflexivity. Qed.

(** C5 (as amended).  The legacy [PhotoMapApp.getResponsiveMarkerSize] is
    the step function of the zoom bands: 12/16 px up to zoom 10, 18/24 px
    up to 12, 30/36 px up to 14, 42/48 px up to 16 and 54/60 px above, the
    lower value for a plain marker and the upper one for a cluster.  The
    refactored [MarkerManager.getResponsiveMarkerSize] is not a step
    function: it rounds the linear interpolation
    [20 + 30 * (zoom - 10) / 8], scaled by 1.5 for a cluster. *)
Theorem C5_marker_size_bands :
  StepBands PhotoMapApp.getResponsiveMarkerSize
  /\ forall zoom c,
      MarkerManager.getResponsiveMarkerSize zoom c
      = JS.Math_round
          ((if c then 1.5 else 1) * (20 + 30 * ((zoom - 10) / 8))).
Proof.
  split; [exact MarkerSizeProofs.legacy_bands |].
  intros zoom c. rewrite MarkerSizeProofs.manager_linear.
  unfold JS.Math_round. apply Qfloor_comp.
  unfold Qdiv. change (/ 8) with (1 # 8). destruct c; lra.
Qed.

(** C5 (as stated) fails for the refactored marker manager: at zoom 10 a
    plain marker is 20 px wide, not 12 px, so its sizes do not follow
    the bands. *)
Lemma C5_manager_is_not_banded :
  ~ StepBands MarkerManager.getResponsiveMarkerSize.
Proof.
  intros [H _ _ _ _].
  specialize (H 10 false ltac:(lra)). vm_compute in H. discriminate H.
Qed.

(** C6.  For a fixed cluster flag the marker size never decreases when
    the zoom grows, in both generations of the code, and equal zoom
    levels give equal sizes: the functions read their arguments and the
    configuration constants only. *)
Theorem C6_marker_size_monotone (z1 z2 : Q) (c : bool) :
  z1 <= z2 ->
  ((PhotoMapApp.getResponsiveMarkerSize z1 c
    <= PhotoMapApp.getResponsiveMarkerSize z2 c)%Z
   /\ (MarkerManager.getResponsiveMarkerSize z1 c
       <= MarkerManager.getResponsiveMarkerSize z2 c)%Z)
  /\ (z1 == z2 ->
      PhotoMapApp.getResponsiveMarkerSize z1 c
      = PhotoMapApp.getResponsiveMarkerSize z2 c
      /\ MarkerManager.getResponsiveMarkerSize z1 c
         = MarkerManager.getResponsiveMarkerSize z2 c).
Proof.
  intros H. split; [split | intros E; split].
  - now apply MarkerSizeProofs.legacy_monotone.
  - now apply MarkerSizeProofs.manager_monotone.
  - now apply MarkerSizeProofs.legacy_extensional.
  - now apply MarkerSizeProofs.manager_extensional.
Qed.

(** C6 at zoom levels 11 and 13, for a cluster marker. *)
Lemma C6_marker_size_monotone_witness :
  11 <= 13
  /\ ((PhotoMapApp.getResponsiveMarkerSize 11 true
       <= PhotoMapApp.getResponsiveMarkerSize 13 true)%Z
      /\ (MarkerManager.getResponsiveMarkerSize 11 true
          <= MarkerManager.getResponsiveMarkerSize 13 true)%Z).
Proof.
  split; [lra |].
  apply (C6_marker_size_monotone 11 13 true). lra.
Defined.

(** * Representative photo *)

Module RepresentativeProofs.
Import PhotoMapApp.

Section Reduce.
Context {A : Type}.
Variable key : A -> option Z.
Variable f : A -> A -> A.

(** The callback of both [reduce] calls: the element replaces the
    accumulator when both keys are defined and its own is greater. *)
Hypothesis f_spec : forall acc x,
  f acc x = match key x, key acc with
            | Some k, Some k' => if (k >? k')%Z then x else acc
            | _, _ => acc
            end.

Lemma fold_step_undefined rest acc :
  key acc = None -> fold_left f rest acc = acc.
Proof.
  intros Hk. induction rest as [|x rest IH]; [reflexivity |].
  simpl. rewrite f_spec, Hk. destruct (key x); exact IH.
Qed.

Lemma fold_step_first rest : forall acc k,
  key acc = Some k ->
  exists k' before after,
    key (fold_left f rest acc) = Some k'
    /\ (k <= k')%Z
    /\ acc :: rest = before ++ fold_left f rest acc :: after
    /\ Forall (fun q => match key q with
                        | Some k'' => (k'' < k')%Z
                        | None => True
                        end) before
    /\ Forall (fun q => match key q with
                        | Some k'' => (k'' <= k')%Z
                        | None => True
                        end) after.
Proof.
  induction rest as [|x rest IH]; intros acc k Hk.
  - exists k, [], []. simpl. repeat split; auto. lia.
  - simpl. rewrite f_spec, Hk.
    assert (Hkeep :
      (match key x with Some kx => (kx <= k)%Z | None => True end) ->
      exists k' before after,
        key (fold_left f rest acc) = Some k'
        /\ (k <= k')%Z
        /\ acc :: x :: rest = before ++ fold_left f rest acc :: after
        /\ Forall (fun q => match key q with
                            | Some k'' => (k'' < k')%Z
                            | None => True
                            end) before
        /\ Forall (fun q => match key q with
                            | Some k'' => (k'' <= k')%Z
                            | None => True
                            end) after).
    { intros Hx.
      destruct (IH acc k Hk)
        as (k' & before & after & Hr & Hkk & Hl & Hb & Ha).
      destruct before as [|b before]; simpl in Hl;
        injection Hl as Hacc Hrest.
      - exists k', [], (x :: after).
        split; [exact Hr |]. split; [exact Hkk |].
        split; [simpl; congruence |].
        split; [constructor |].
        constructor; [| exact Ha].
        rewrite <- Hacc in Hr. rewrite Hk in Hr. injection Hr as <-.
        exact Hx.
      - exists k', (acc :: x :: before), after.
        split; [exact Hr |]. split; [exact Hkk |].
        split; [simpl; congruence |].
        split; [| exact Ha].
        inversion Hb as [|? ? Hb1 Hb2]; subst b.
        constructor; [exact Hb1 |]. constructor; [| exact Hb2].
        rewrite Hk in Hb1. destruct (key x); [lia | exact I]. }
    destruct (key x) as [kx|] eqn:Hx; [| now apply Hkeep].
    destruct (Z.gtb_spec kx k) as [Hgt | Hle]; [| now apply Hkeep].
    destruct (IH x kx Hx)
      as (k' & before & after & Hr & Hkk & Hl & Hb & Ha).
    exists k', (acc :: before), after.
    split; [exact Hr |]. split; [lia |].
    split; [simpl; now rewrite Hl |]. split; [| exact Ha].
    constructor; [| exact Hb]. rewrite Hk. lia.
Qed.

End Reduce.

(** [reduce] with [morePopular] returns the first photo with the highest
    view count. *)
Lemma reduce_morePopular rest first :
  FirstHighest views (first :: rest) (fold_left morePopular rest first).
Proof.
  destruct (fold_step_first (fun q => Some (views q)) morePopular
              (fun acc x => eq_refl) rest first (views first) eq_refl)
    as (k & before & after & Hr & _ & Hl & Hb & Ha).
  injection Hr as <-.
  exists before, after. split; [exact Hl |]. split; assumption.
Qed.

(** [reduce] with [moreRecent] returns the first photo when its date is
    invalid, and otherwise the first photo with the latest valid date. *)
Lemma reduce_moreRecent rest first :
  FirstLatest (first :: rest) (fold_left moreRecent rest first).
Proof.
  exists first, rest. split; [reflexivity |].
  destruct (Photo.taken_at first) as [t|] eqn:Ht.
  - destruct (fold_step_first Photo.taken_at moreRecent
                (fun acc x => eq_refl) rest first t Ht)
      as (k & before & after & Hr & _ & Hl & Hb & Ha).
    exists k, before, after. repeat split; assumption.
  - apply (fold_step_undefined Photo.taken_at moreRecent
             (fun acc x => eq_refl) rest first Ht).
Qed.

Lemma FirstHighest_In {A} (key : A -> Z) l p :
  FirstHighest key l p ->
  In p l /\ forall q, In q l -> (key q <= key p)%Z.
Proof.
  intros (before & after & -> & Hb & Ha). split.
  - apply in_elt.
  - intros q Hq. apply in_app_or in Hq as [Hq | [<- | Hq]].
    + rewrite List.Forall_forall in Hb. specialize (Hb q Hq). lia.
    + lia.
    + rewrite List.Forall_forall in Ha. now apply Ha.
Qed.

Lemma FirstLatest_In l p : FirstLatest l p -> In p l.
Proof.
  intros (first & rest & -> & H).
  destruct (Photo.taken_at first).
  - destruct H as (t & before & after & _ & -> & _). apply in_elt.
  - subst p. now left.
Qed.

Lemma reduce1_nonempty {A} (f : A -> A -> A) (l : list A) :
  l <> [] -> exists first rest,
    l = first :: rest /\ JS.reduce1 f l = Some (fold_left f rest first).
Proof. destruct l as [|x l]; [congruence | eauto]. Qed.

Lemma filter_nonempty {A} (f : A -> bool) (l : list A) x :
  In x l -> f x = true -> List.filter f l <> [].
Proof.
  intros Hin Hf E.
  assert (H : In x (List.filter f l)) by (apply filter_In; auto).
  rewrite E in H. destruct H.
Qed.

Lemma featured_choice photos :
  List.filter Photo.is_featured photos <> [] ->
  exists p,
    getRepresentativePhoto photos = Some p /\ In p photos
    /\ FirstHighest views (List.filter Photo.is_featured photos) p.
Proof.
  intros Hne.
  destruct photos as [|p0 rest]; [now destruct Hne |].
  destruct (reduce1_nonempty morePopular _ Hne) as (f & r & Hl & Hred).
  assert (Hval : getRepresentativePhoto (p0 :: rest)
                 = Some (fold_left morePopular r f)).
  { unfold getRepresentativePhoto. cbn [length Nat.eqb].
    rewrite Hred, Hl. reflexivity. }
  pose proof (reduce_morePopular r f) as Hfirst. rewrite <- Hl in Hfirst.
  eexists; split; [exact Hval |]. split; [| exact Hfirst].
  apply FirstHighest_In in Hfirst as [Hin _].
  now apply filter_In in Hin.
Qed.

Lemma popular_choice p0 rest :
  let photos := p0 :: rest in
  List.filter Photo.is_featured photos = [] ->
  exists p,
    getRepresentativePhoto photos = Some p /\ In p photos
    /\ (forall q, In q photos -> (views q <= views p)%Z)
    /\ FirstLatest
         (List.filter (fun q => (views q =? views p)%Z) photos) p.
Proof.
  intros photos Hnone.
  destruct (FirstHighest_In _ _ _ (reduce_morePopular rest p0))
    as [Hpin Hpmax].
  set (popularPhoto := fold_left morePopular rest p0) in *.
  assert (Hne : List.filter
                  (fun photo => (views photo =? views popularPhoto)%Z)
                  photos <> []).
  { apply (filter_nonempty _ _ popularPhoto); [exact Hpin |].
    apply Z.eqb_refl. }
  destruct (reduce1_nonempty moreRecent _ Hne) as (f & r & Hl & Hred).
  assert (Hval : getRepresentativePhoto photos
                 = Some (fold_left moreRecent r f)).
  { unfold getRepresentativePhoto. rewrite Hnone.
    unfold photos at 1 2. cbn [length Nat.eqb Nat.ltb Nat.leb JS.reduce1].
    fold popularPhoto. fold photos. exact Hred. }
  pose proof (reduce_moreRecent r f) as Hlatest. rewrite <- Hl in Hlatest.
  pose proof (FirstLatest_In _ _ Hlatest) as Hin.
  apply filter_In in Hin as [Hin Hsame]. apply Z.eqb_eq in Hsame.
  eexists; split; [exact Hval |]. split; [exact Hin |]. split.
  - intros q Hq. rewrite Hsame. now apply Hpmax.
  - now rewrite Hsame.
Qed.

End RepresentativeProofs.

(** C8 (as amended).  [getRepresentativePhoto] returns [null] for an
    empty list.  For a non-empty list it returns one of the photos.  When
    some photo is featured, it is the first featured photo with the
    highest view count among the featured ones: dates play no part.
    Otherwise it has the highest view count of all, and among the photos
    with that view count, in their order, it is the first one when that
    one has no valid date, and else the first of those with the latest
    valid date.  On the three photos of property P6 the featured photo
    with five views is chosen. *)
Theorem C8_representative_photo :
  PhotoMapApp.getRepresentativePhoto [] = None
  /\ (forall p0 rest,
        let photos := p0 :: rest in
        exists p,
          PhotoMapApp.getRepresentativePhoto photos = Some p
          /\ In p photos
          /\ if existsb Photo.is_featured photos
             then FirstHighest PhotoMapApp.views
                    (List.filter Photo.is_featured photos) p
             else (forall q, In q photos ->
                      (PhotoMapApp.views q <= PhotoMapApp.views p)%Z)
                  /\ FirstLatest
                       (List.filter
                          (fun q =>
                             (PhotoMapApp.views q =? PhotoMapApp.views p)%Z)
                          photos) p)
  /\ PhotoMapApp.getRepresentativePhoto
       [Sample.photo "x" None None 10 false;
        Sample.photo "y" None None 1 true;
        Sample.photo "z" None None 5 true]
     = Some (Sample.photo "z" None None 5 true).
Proof.
  split; [reflexivity |]. split; [| reflexivity].
  intros p0 rest photos.
  destruct (existsb Photo.is_featured photos) eqn:E.
  - apply existsb_exists in E as (x & Hx & Hf).
    destruct (RepresentativeProofs.featured_choice photos) as (p & H);
      [now apply (RepresentativeProofs.filter_nonempty _ _ x) |].
    exists p. tauto.
  - destruct (RepresentativeProofs.popular_choice p0 rest) as (p & H).
    + destruct (List.filter Photo.is_featured (p0 :: rest)) as [|x l] eqn:F;
        [reflexivity |].
      assert (Hx : In x (List.filter Photo.is_featured (p0 :: rest)))
        by (rewrite F; now left).
      apply filter_In in Hx as [Hx Hf].
      assert (existsb Photo.is_featured photos = true)
        by (apply existsb_exists; eauto).
      congruence.
    + exists p. tauto.
Qed.

(** C8 (as stated) fails on two featured photos with the same view
    count: the first one is returned although the second is more
    recent. *)
Lemma C8_featured_tie_keeps_the_first :
  ~ (forall photos p,
        PhotoMapApp.getRepresentativePhoto photos = Some p ->
        representativeAsStated photos p).
Proof.
  intros H.
  specialize (H [with_date (Some 1%Z) (Sample.photo "x" None None 5 true);
                 with_date (Some 2%Z) (Sample.photo "y" None None 5 true)]
                _ eq_refl).
  destruct H as (_ & _ & H).
  assert (Hle : (2 <= 1)%Z).
  { apply (H (with_date (Some 2%Z) (Sample.photo "y" None None 5 true)));
      [right; left; reflexivity | reflexivity..]. }
  lia.
Qed.

(** Without a featured photo, a first photo whose date is invalid is
    returned even when a photo with the same view count has a date. *)
Example invalid_date_keeps_the_first :
  PhotoMapApp.getRepresentativePhoto
    [with_date None (Sample.photo "x" None None 5 false);
     with_date (Some 2%Z) (Sample.photo "y" None None 5 false)]
  = Some (with_date None (Sample.photo "x" None None 5 false)).
Proof. reflexivity. Qed.

(** * Clustering in the marker manager *)

Module ClusterProofs.
Import MarkerManager.

Lemma indexed_from {A} (l : list A) (k : nat) :
  List.map fst (combine (seq k (length l)) l) = seq k (length l)
  /\ List.map snd (combine (seq k (length l)) l) = l.
Proof.
  revert k. induction l as [|x l IH]; intros k; simpl; [easy |].
  destruct (IH (S k)) as [-> ->]. easy.
Qed.

Lemma indexed_fst {A} (l : list A) :
  List.map fst (indexed l) = seq 0 (length l).
Proof. apply indexed_from. Qed.

Lemma indexed_snd {A} (l : list A) : List.map snd (indexed l) = l.
Proof. apply indexed_from. Qed.

Lemma in_processed (l : list nat) (P : gset nat) (j : nat) :
  j ∈ fold_left (fun s idx => {[idx]} ∪ s) l P <-> j ∈ P \/ In j l.
Proof.
  revert P. induction l as [|x l IH]; intros P; simpl.
  - tauto.
  - rewrite IH. rewrite elem_of_union, elem_of_singleton. intuition.
Qed.

Lemma filter_length_le {A} (f : A -> bool) (l : list A) :
  (length (List.filter f l) <= length l)%nat.
Proof. induction l; simpl; [lia |]. destruct (f a); simpl; lia. Qed.

Lemma map_snd_filter {A B} (p : A * B -> bool) (q : B -> bool)
    (l : list (A * B)) :
  List.map snd (List.filter (fun x => p x && q (snd x)) l)
  = List.filter q (List.map snd (List.filter p l)).
Proof.
  induction l as [|x l IH]; simpl; [reflexivity |].
  destruct (p x); simpl; [| exact IH].
  destruct (q (snd x)); simpl; now rewrite IH.
Qed.

Lemma filter_none {A} (f : A -> bool) (l : list A) :
  (forall x, In x l -> f x = false) -> List.filter f l = [].
Proof.
  induction l as [|x l IH]; intros H; simpl; [reflexivity |].
  rewrite (H x) by now left. apply IH. intros y Hy. apply H. now right.
Qed.

Lemma NoDup_fst_inj {A B} (l : list (A * B)) x y :
  NoDup (List.map fst l) -> In x l -> In y l -> fst x = fst y -> x = y.
Proof.
  induction l as [|z l IH]; intros Hnd Hx Hy E; [destruct Hx |].
  cbn [List.map] in Hnd. apply NoDup_cons in Hnd as [Hz Hnd].
  destruct Hx as [-> | Hx], Hy as [-> | Hy]; auto.
  - exfalso. apply Hz. rewrite E. apply list_elem_of_In, in_map, Hy.
  - exfalso. apply Hz. rewrite <- E. apply list_elem_of_In, in_map, Hx.
Qed.

Section Engine.
Variable M : JS.JSMath.
Variable photos : list Photo.t.

Lemma greedy_fuel n m l :
  (length l <= n)%nat -> (length l <= m)%nat ->
  greedy M photos n l = greedy M photos m l.
Proof.
  revert m l. induction n as [|n IH]; intros m l Hn Hm.
  - destruct l; [| simpl in Hn; lia]. now destruct m.
  - destruct l as [|a l]; [now destruct m |].
    destruct m as [|m]; [simpl in Hm; lia |]. simpl. f_equal.
    simpl in Hn, Hm.
    pose proof (filter_length_le (fun o => negb (near M a o)) l).
    apply IH; lia.
Qed.

Lemma unprocessed_length processed l :
  (length (unprocessed processed l) <= length l)%nat.
Proof.
  unfold unprocessed. rewrite length_map. apply filter_length_le.
Qed.

Lemma unprocessed_cons processed i a l :
  unprocessed processed ((i, a) :: l)
  = if bool_decide (i ∈ processed) then unprocessed processed l
    else a :: unprocessed processed l.
Proof.
  unfold unprocessed. cbn [List.filter fst].
  now destruct (bool_decide (i ∈ processed)).
Qed.

Lemma loop_greedy (areas : list Area.t) :
  forall todo visited processed clusters,
    indexed areas = visited ++ todo ->
    (forall x, In x visited -> fst x ∈ processed) ->
    snd (fold_left (visit M photos areas) todo (processed, clusters))
    = clusters
      ++ greedy M photos (length todo) (unprocessed processed todo).
Proof.
  assert (Hnd : NoDup (List.map fst (indexed areas))).
  { rewrite indexed_fst. apply NoDup_ListNoDup, seq_NoDup. }
  induction todo as [|[i a] s IH]; intros visited processed clusters Hsplit Hpre.
  - simpl. now rewrite app_nil_r.
  - cbn [fold_left visit].
    destruct (bool_decide (i ∈ processed)) eqn:Hi.
    + rewrite (IH (visited ++ [(i, a)])).
      * f_equal. rewrite unprocessed_cons, Hi.
        pose proof (unprocessed_length processed s).
        apply greedy_fuel; cbn [length]; lia.
      * now rewrite <- app_assoc.
      * intros x Hx. apply in_app_or in Hx as [Hx | [<- | []]]; auto.
        now apply bool_decide_eq_true in Hi.
    + apply bool_decide_eq_false in Hi.
      rewrite Hsplit, map_app in Hnd.
      apply NoDup_app in Hnd as (_ & _ & Hnd). cbn [List.map fst] in Hnd.
      apply NoDup_cons in Hnd as [Hni Hnd].
      (* the indices still to visit differ from [i] and from each other *)
      assert (Hfresh : forall x, In x s -> fst x <> i).
      { intros x Hx E. apply Hni.
        rewrite <- E. apply list_elem_of_In, in_map, Hx. }
      assert (Hone : forall x y, In x s -> In y s -> fst x = fst y -> x = y).
      { intros x y. now apply NoDup_fst_inj. }
      (* what the inner loop finds *)
      set (free := fun x : nat * Area.t =>
                     negb (bool_decide (fst x ∈ processed))).
      assert (Hnear : nearbyOf M areas processed i a
                      = List.filter (fun x => free x && near M a (snd x)) s).
      { unfold nearbyOf. rewrite Hsplit, List.filter_app. cbn [List.filter].
        rewrite Nat.eqb_refl. cbn [negb andb].
        rewrite filter_none, app_nil_l.
        - apply filter_ext_in. intros [j o] Hx. unfold free. simpl.
          specialize (Hfresh _ Hx). simpl in Hfresh.
          apply Nat.eqb_neq in Hfresh. now rewrite Hfresh.
        - intros [j o] Hx. specialize (Hpre _ Hx). simpl in Hpre.
          rewrite (bool_decide_eq_true_2 _ Hpre).
          now rewrite andb_false_r. }
      rewrite Hnear.
      rewrite (IH (visited ++ [(i, a)])).
      * rewrite <- app_assoc. f_equal.
        rewrite unprocessed_cons, (proj2 (bool_decide_eq_false _) Hi).
        cbn [app length greedy].
        rewrite map_snd_filter. fold (unprocessed processed s).
        f_equal. f_equal.
        unfold unprocessed. rewrite <- map_snd_filter. f_equal.
        apply filter_ext_in. intros [j o] Hx. unfold free. cbn [fst snd].
        destruct (bool_decide (j ∈ processed)) eqn:Hj; cbn [negb andb].
        -- apply bool_decide_eq_true in Hj.
           apply negb_false_iff, bool_decide_eq_true, in_processed.
           left. apply elem_of_union. now right.
        -- apply bool_decide_eq_false in Hj.
           destruct (near M a o) eqn:Hn; cbn [negb].
           ++ apply negb_false_iff, bool_decide_eq_true, in_processed.
              right. apply in_map_iff. exists (j, o). split; [easy |].
              apply filter_In. split; [exact Hx |].
              unfold free. cbn [fst snd].
              now rewrite (proj2 (bool_decide_eq_false _) Hj), Hn.
           ++ apply negb_true_iff, bool_decide_eq_false.
              rewrite in_processed, elem_of_union, elem_of_singleton.
              intros [[E | Hp] | Hin].
              ** now apply (Hfresh _ Hx).
              ** contradiction.
              ** apply in_map_iff in Hin as ([j' o'] & E & Hin).
                 cbn [fst] in E. subst j'.
                 apply filter_In in Hin as [Hin Ht].
                 assert ((j, o') = (j, o)) by (apply Hone; auto).
                 cbn [snd] in Ht. replace o' with o in Ht by congruence.
                 rewrite Hn, andb_false_r in Ht. discriminate.
      * now rewrite <- app_assoc.
      * intros x Hx. apply in_processed. left. apply elem_of_union.
        apply in_app_or in Hx as [Hx | [<- | []]]; [right; auto |].
        left. now apply elem_of_singleton.
Qed.

Lemma unprocessed_empty l : unprocessed ∅ l = List.map snd l.
Proof.
  unfold unprocessed. f_equal. induction l as [|x l IH]; [reflexivity |].
  simpl. rewrite IH. reflexivity.
Qed.

(** Below the zoom threshold [createClusters] is the greedy grouping. *)
Lemma createClusters_greedy zoom areas :
  shouldClusterMarkers zoom = true ->
  createClusters M photos zoom areas
  = greedy M photos (length areas) areas.
Proof.
  intros Hz. unfold createClusters. rewrite Hz. cbn [negb].
  rewrite (loop_greedy areas (indexed areas) [] ∅ []);
    [| reflexivity | intros x []].
  rewrite unprocessed_empty, indexed_snd. cbn [app].
  apply greedy_fuel; [| lia].
  unfold indexed. rewrite length_combine, length_seq. lia.
Qed.

(** ** Members and shape of the clusters *)

Lemma as_area_spread a : Cluster.as_area (spread a) = a.
Proof. now destruct a. Qed.

Lemma members_emit a others :
  Cluster.members (emit M photos a others) = a :: others.
Proof.
  unfold emit. destruct others as [|o others]; cbn.
  - now destruct a.
  - reflexivity.
Qed.

Lemma filter_split {A} (f : A -> bool) (l : list A) :
  Permutation (List.filter f l ++ List.filter (fun x => negb (f x)) l) l.
Proof.
  induction l as [|x l IH]; simpl; [constructor |].
  destruct (f x); simpl.
  - now constructor.
  - symmetry. apply Permutation_cons_app. now symmetry.
Qed.

Lemma greedy_members n l :
  (length l <= n)%nat ->
  Permutation (flat_map Cluster.members (greedy M photos n l)) l.
Proof.
  revert l. induction n as [|n IH]; intros l Hn.
  - destruct l; [constructor | simpl in Hn; lia].
  - destruct l as [|a l]; [constructor |]. cbn [greedy flat_map].
    rewrite members_emit. cbn [app]. constructor.
    rewrite IH.
    + apply filter_split.
    + pose proof (filter_length_le (fun o => negb (near M a o)) l).
      simpl in Hn. lia.
Qed.

Lemma grouped_incl l l' c : incl l l' -> grouped M photos l c -> grouped M photos l' c.
Proof.
  intros Hl (a & others & -> & Ha & Ho & Hn).
  exists a, others. repeat split; auto. intros x Hx. auto.
Qed.

Lemma greedy_grouped n l : Forall (grouped M photos l) (greedy M photos n l).
Proof.
  revert l. induction n as [|n IH]; intros l; [constructor |].
  destruct l as [|a l]; [constructor |]. cbn [greedy]. constructor.
  - exists a, (List.filter (near M a) l). split; [reflexivity |].
    split; [now left |]. split.
    + intros x Hx. apply filter_In in Hx as [Hx _]. now right.
    + apply List.Forall_forall. intros x Hx. now apply filter_In in Hx.
  - eapply List.Forall_impl; [| apply IH].
    intros c. apply grouped_incl. intros x Hx.
    apply filter_In in Hx as [Hx _]. now right.
Qed.

Lemma createClusters_grouped zoom areas :
  Forall (grouped M photos areas) (createClusters M photos zoom areas).
Proof.
  destruct (shouldClusterMarkers zoom) eqn:Hz.
  - rewrite createClusters_greedy by exact Hz. apply greedy_grouped.
  - unfold createClusters. rewrite Hz. cbn [negb].
    apply List.Forall_forall. intros c Hc.
    apply in_map_iff in Hc as (a & E & Ha). subst c.
    exists a, []. split; [reflexivity |]. split; [exact Ha |].
    split; [intros x [] | constructor].
Qed.

Lemma createClusters_members zoom areas :
  Permutation
    (flat_map Cluster.members (createClusters M photos zoom areas)) areas.
Proof.
  destruct (shouldClusterMarkers zoom) eqn:Hz.
  - rewrite createClusters_greedy by exact Hz. now apply greedy_members.
  - unfold createClusters. rewrite Hz. cbn [negb].
    induction areas as [|a l IH]; [constructor |].
    cbn [List.map flat_map]. unfold Cluster.members at 1. cbn [spread Cluster.areas].
    fold (spread a). rewrite as_area_spread. cbn [app]. now constructor.
Qed.

(** ** Markers *)

Lemma addAreaMarkers_markerOf zoom areas :
  addAreaMarkers M photos zoom areas
  = flat_map (markerOf M photos zoom) (createClusters M photos zoom areas).
Proof. reflexivity. Qed.

Lemma markerOf_rendered zoom c :
  markerOf M photos zoom c
  = if rendered M photos c
    then [ {| areaData := c;
              photoCount := length (photosInArea M photos c);
              iconSize := getResponsiveMarkerSize zoom (Cluster.isCluster c) |} ]
    else [].
Proof.
  unfold markerOf, rendered, createAreaMarker.
  destruct (0 <? length (photosInArea M photos c))%nat; [| reflexivity].
  destruct (JS.truthy (Cluster.center_lat c)); [| reflexivity].
  destruct (JS.truthy (Cluster.center_lng c)); [| reflexivity].
  destruct (Cluster.is_active c); reflexivity.
Qed.

Lemma markers_rendered zoom clusters :
  List.map areaData (flat_map (markerOf M photos zoom) clusters)
  = List.filter (rendered M photos) clusters.
Proof.
  induction clusters as [|c l IH]; [reflexivity |].
  cbn [flat_map List.filter]. rewrite map_app, IH, markerOf_rendered.
  now destruct (rendered M photos c).
Qed.

Lemma getPhotosInArea_falsy a :
  JS.truthy (Area.center_lat a) = false
  \/ JS.truthy (Area.center_lng a) = false ->
  DataManager.getPhotosInArea M photos a = [].
Proof.
  intros [H | H]; unfold DataManager.getPhotosInArea; rewrite H;
    [reflexivity | now rewrite orb_true_r].
Qed.

Lemma rendered_spread a :
  rendered M photos (spread a) = photoBearing M photos a.
Proof.
  unfold rendered, photoBearing, photosInArea.
  cbn [spread Cluster.isCluster Cluster.center_lat Cluster.center_lng
       Cluster.is_active].
  fold (spread a). rewrite as_area_spread.
  destruct (JS.truthy (Area.center_lat a)) eqn:Hlat;
    [destruct (JS.truthy (Area.center_lng a)) eqn:Hlng |].
  - rewrite !andb_true_r. apply andb_comm.
  - rewrite getPhotosInArea_falsy by auto. cbn.
    now rewrite andb_false_r.
  - rewrite getPhotosInArea_falsy by auto. cbn.
    now rewrite andb_false_r.
Qed.

(** ** Areas without coordinates *)

Lemma near_defined a o :
  near M a o = true ->
  (exists lat lng, Area.center_lat a = Some lat
                   /\ Area.center_lng a = Some lng)
  /\ (exists lat lng, Area.center_lat o = Some lat
                      /\ Area.center_lng o = Some lng).
Proof.
  unfold near, DataManager.calculateDistance.
  destruct (Area.center_lat a), (Area.center_lng a),
    (Area.center_lat o), (Area.center_lng o);
    cbn; try discriminate; intros _; split; eauto.
Qed.

Lemma near_missing_l a o : missing a -> near M a o = false.
Proof.
  intros Hm. destruct (near M a o) eqn:E; [| reflexivity].
  apply near_defined in E as [(x & y & Hx & Hy) _].
  destruct Hm; congruence.
Qed.

Lemma near_missing_r a o : missing o -> near M a o = false.
Proof.
  intros Hm. destruct (near M a o) eqn:E; [| reflexivity].
  apply near_defined in E as [_ (x & y & Hx & Hy)].
  destruct Hm; congruence.
Qed.

Lemma missing_falsy a :
  missing a ->
  JS.truthy (Area.center_lat a) = false
  \/ JS.truthy (Area.center_lng a) = false.
Proof. intros [-> | ->]; auto. Qed.

Lemma markerOf_falsy zoom a :
  JS.truthy (Area.center_lat a) = false
  \/ JS.truthy (Area.center_lng a) = false ->
  markerOf M photos zoom (spread a) = [].
Proof.
  intros H. rewrite markerOf_rendered, rendered_spread.
  unfold photoBearing. rewrite getPhotosInArea_falsy by exact H.
  cbn. now rewrite andb_false_r.
Qed.

Lemma filter_all {A} (f : A -> bool) (l : list A) :
  (forall x, In x l -> f x = true) -> List.filter f l = l.
Proof.
  induction l as [|x l IH]; intros H; simpl; [reflexivity |].
  rewrite (H x) by now left. f_equal. apply IH. intros y Hy. apply H. now right.
Qed.

Lemma greedy_skip zoom a :
  missing a ->
  forall n l1 l2,
    (length (l1 ++ a :: l2) <= n)%nat ->
    flat_map (markerOf M photos zoom) (greedy M photos n (l1 ++ a :: l2))
    = flat_map (markerOf M photos zoom) (greedy M photos n (l1 ++ l2)).
Proof.
  intros Hm. induction n as [|n IH]; intros l1 l2 Hn.
  - rewrite length_app in Hn. simpl in Hn. lia.
  - destruct l1 as [|b l1].
    + cbn [app] in *. cbn [length] in Hn.
      rewrite (greedy_fuel (S n) n l2) by lia.
      cbn [greedy flat_map].
      rewrite filter_none by (intros; now apply near_missing_l).
      rewrite filter_all
        by (intros; apply negb_true_iff; now apply near_missing_l).
      unfold emit. cbn [length Nat.ltb Nat.leb].
      now rewrite markerOf_falsy by now apply missing_falsy.
    + cbn [app greedy flat_map]. rewrite !List.filter_app. cbn [List.filter].
      rewrite (near_missing_r b a Hm). cbn [negb]. f_equal.
      apply IH. simpl in Hn. rewrite length_app in *. simpl in *.
      pose proof (filter_length_le (fun o => negb (near M b o)) l1).
      pose proof (filter_length_le (fun o => negb (near M b o)) l2).
      lia.
Qed.

Lemma markers_skip zoom a l1 l2 :
  missing a ->
  addAreaMarkers M photos zoom (l1 ++ a :: l2)
  = addAreaMarkers M photos zoom (l1 ++ l2).
Proof.
  intros Hm. rewrite !addAreaMarkers_markerOf.
  destruct (shouldClusterMarkers zoom) eqn:Hz.
  - rewrite !createClusters_greedy by exact Hz.
    rewrite greedy_skip by (exact Hm || lia). f_equal.
    apply greedy_fuel; rewrite !length_app; simpl; lia.
  - unfold createClusters. rewrite Hz. cbn [negb].
    rewrite !map_app, !flat_map_app. cbn [List.map flat_map].
    now rewrite markerOf_falsy by now apply missing_falsy.
Qed.

Lemma photoBearing_defined a : photoBearing M photos a = true -> ~ missing a.
Proof.
  intros Hb Hm. unfold photoBearing in Hb.
  rewrite getPhotosInArea_falsy in Hb by now apply missing_falsy.
  cbn in Hb. now rewrite andb_false_r in Hb.
Qed.

(** A rendered marker stands for areas with coordinates only. *)
Lemma rendered_members_defined areas c a :
  grouped M photos areas c -> rendered M photos c = true ->
  In a (Cluster.members c) -> ~ missing a.
Proof.
  intros (s & others & -> & _ & _ & Hnear) Hr Ha.
  rewrite members_emit in Ha.
  destruct others as [|o others].
  - destruct Ha as [<- | []].
    change (emit M photos s []) with (spread s) in Hr.
    rewrite rendered_spread in Hr. now apply photoBearing_defined.
  - intros Hm. destruct Ha as [<- | Ha].
    + apply List.Forall_inv in Hnear.
      now rewrite near_missing_l in Hnear.
    + rewrite List.Forall_forall in Hnear. specialize (Hnear _ Ha).
      now rewrite near_missing_r in Hnear.
Qed.

(** ** Singletons and multi-member clusters *)

Lemma emit_single a others :
  Cluster.isCluster (emit M photos a others) = false ->
  others = [] /\ emit M photos a others = spread a.
Proof.
  destruct others as [|o others]; [now split |]. cbn. discriminate.
Qed.

Lemma emit_multi a others :
  Cluster.isCluster (emit M photos a others) = true ->
  others <> [] /\ emit M photos a others = makeCluster M photos (a :: others).
Proof.
  destruct others as [|o others]; [cbn; discriminate |]. now split.
Qed.

Lemma sum_defined (f : Area.t -> JS.num) l : forall qs acc,
  List.map f l = List.map Some qs ->
  fold_left (fun sum a => JS.add sum (f a)) l (Some acc)
  = Some (fold_left
            (fun sum q => JS.double (JS.double sum + JS.double q)) qs acc).
Proof.
  induction l as [|a l IH]; intros [|q qs] acc E; try discriminate;
    [reflexivity |].
  cbn in E. injection E as Ea El. cbn [fold_left]. rewrite Ea. cbn [JS.add].
  now apply IH.
Qed.

Lemma mean_of_sum (f : Area.t -> JS.num) l qs :
  List.map f l = List.map Some qs ->
  JS.div (fold_left (fun sum a => JS.add sum (f a)) l (Some 0))
         (JS.of_nat (length l))
  = Some (floatMean qs).
Proof.
  intros E. rewrite (sum_defined f l qs 0 E).
  assert (length l = length qs) as ->.
  { rewrite <- (length_map f l), E. apply length_map. }
  reflexivity.
Qed.

Lemma near_coordinates a others :
  others <> [] -> Forall (fun o => near M a o = true) others ->
  exists lats lngs,
    List.map Area.center_lat (a :: others) = List.map Some lats
    /\ List.map Area.center_lng (a :: others) = List.map Some lngs.
Proof.
  intros Hne Hnear.
  assert (Ha : exists lat lng, Area.center_lat a = Some lat
                               /\ Area.center_lng a = Some lng).
  { destruct others as [|o others]; [congruence |].
    apply List.Forall_inv in Hnear. now apply near_defined in Hnear. }
  destruct Ha as (lat & lng & Hlat & Hlng).
  assert (Ho : exists lats lngs,
             List.map Area.center_lat others = List.map Some lats
             /\ List.map Area.center_lng others = List.map Some lngs).
  { clear Hne. induction Hnear as [|o l Ho _ IH].
    - now exists [], [].
    - destruct IH as (lats & lngs & E1 & E2).
      apply near_defined in Ho as [_ (x & y & Hx & Hy)].
      exists (x :: lats), (y :: lngs). cbn. now rewrite Hx, Hy, E1, E2. }
  destruct Ho as (lats & lngs & E1 & E2).
  exists (lat :: lats), (lng :: lngs). cbn. now rewrite Hlat, Hlng, E1, E2.
Qed.

Lemma flat_map_length {A B} (f : A -> list B) (l : list A) :
  length (flat_map f l) = list_sum (List.map (fun a => length (f a)) l).
Proof.
  induction l as [|a l IH]; [reflexivity |].
  cbn. now rewrite length_app, IH.
Qed.

End Engine.
End ClusterProofs.

(** * Clustering in the legacy application *)

Module LegacyProofs.
Import PhotoMapApp.

Section Engine.
Variable M : JS.JSMath.
Variable photos : list Photo.t.

Lemma visit_grouped areas st area :
  Forall (legacyGrouped M photos) (snd st) ->
  Forall (legacyGrouped M photos) (snd (visit M photos areas st area)).
Proof.
  destruct st as [processedAreas clusters]. intros Hst. unfold visit.
  destruct (bool_decide (Area.id area ∈ processedAreas)
            || negb (Area.is_active area)); [exact Hst |].
  match goal with
  | |- context [List.filter ?f areas] => set (nearbyAreas := List.filter f areas)
  end.
  assert (Hnear : Forall (fun o => legacyNear M area o = true) nearbyAreas).
  { apply List.Forall_forall. intros o Ho.
    apply filter_In in Ho as [_ Ho].
    destruct (_ || _ || _); [discriminate | exact Ho]. }
  destruct nearbyAreas as [|o others] eqn:E.
  - change (0 <? length (@nil Area.t))%nat with false. cbv iota.
    destruct (getPhotosInArea M photos area) as [|p ps] eqn:Ep;
      [exact Hst |].
    change (0 <? length (p :: ps))%nat with true. cbv iota.
    cbn [snd] in *. apply Forall_app. split; [exact Hst |].
    constructor; [| constructor]. left. exists area. now rewrite Ep.
  - change (0 <? length (o :: others))%nat with true. cbv iota.
    match goal with
    | |- context [(0 <? length ?l)%nat] => destruct (0 <? length l)%nat
    end; [| exact Hst].
    cbn [snd] in *. apply Forall_app. split; [exact Hst |].
    constructor; [| constructor]. right. exists area, (o :: others).
    split; [discriminate |]. split; [exact Hnear | reflexivity].
Qed.

Lemma createPhotoClusters_grouped areas :
  Forall (legacyGrouped M photos) (createPhotoClusters M photos areas).
Proof.
  unfold createPhotoClusters.
  generalize areas at 1 as fixed. intros fixed.
  assert (H : Forall (legacyGrouped M photos)
                (snd ((∅, []) : loop_state))) by constructor.
  revert H. generalize ((∅, []) : loop_state) as st.
  induction areas as [|a l IH]; intros st Hst; [exact Hst |].
  cbn [fold_left]. apply IH. now apply visit_grouped.
Qed.

Lemma legacyNear_defined a o :
  legacyNear M a o = true ->
  (exists lat lng, Area.center_lat a = Some lat
                   /\ Area.center_lng a = Some lng)
  /\ (exists lat lng, Area.center_lat o = Some lat
                      /\ Area.center_lng o = Some lng).
Proof.
  unfold legacyNear, calculateDistance.
  destruct (Area.center_lat a), (Area.center_lng a),
    (Area.center_lat o), (Area.center_lng o);
    cbn; try discriminate; intros _; split; eauto.
Qed.

Lemma legacyNear_coordinates a others :
  others <> [] -> Forall (fun o => legacyNear M a o = true) others ->
  exists lats lngs,
    List.map Area.center_lat (a :: others) = List.map Some lats
    /\ List.map Area.center_lng (a :: others) = List.map Some lngs.
Proof.
  intros Hne Hnear.
  assert (Ha : exists lat lng, Area.center_lat a = Some lat
                               /\ Area.center_lng a = Some lng).
  { destruct others as [|o others]; [congruence |].
    apply List.Forall_inv in Hnear. now apply legacyNear_defined in Hnear. }
  destruct Ha as (lat & lng & Hlat & Hlng).
  assert (Ho : exists lats lngs,
             List.map Area.center_lat others = List.map Some lats
             /\ List.map Area.center_lng others = List.map Some lngs).
  { clear Hne. induction Hnear as [|o l Ho _ IH].
    - now exists [], [].
    - destruct IH as (lats & lngs & E1 & E2).
      apply legacyNear_defined in Ho as [_ (x & y & Hx & Hy)].
      exists (x :: lats), (y :: lngs). cbn. now rewrite Hx, Hy, E1, E2. }
  destruct Ho as (lats & lngs & E1 & E2).
  exists (lat :: lats), (lng :: lngs). cbn. now rewrite Hlat, Hlng, E1, E2.
Qed.

Lemma legacy_photos_falsy a :
  JS.truthy (Area.center_lat a) = false
  \/ JS.truthy (Area.center_lng a) = false
  \/ JS.truthy (Area.radius a) = false ->
  getPhotosInArea M photos a = [].
Proof.
  intros [H | [H | H]]; unfold getPhotosInArea; rewrite H;
    rewrite ?orb_true_r; reflexivity.
Qed.

Lemma as_area_of_area a : Cluster.as_area (of_area a) = a.
Proof. now destruct a. Qed.

(** An area without photos, alone on the map, gets no marker. *)
Lemma alone_without_photos zoom a :
  getPhotosInArea M photos a = [] ->
  addAreaMarkers M photos zoom [a] = [].
Proof.
  intros Hp. unfold addAreaMarkers.
  destruct (shouldClusterMarkers zoom).
  - unfold createPhotoClusters. cbn [fold_left visit List.filter].
    rewrite bool_decide_eq_false_2 by apply not_elem_of_empty.
    rewrite String.eqb_refl. cbn [orb].
    destruct (Area.is_active a); cbn [negb]; [| reflexivity].
    cbn [length Nat.ltb Nat.leb]. now rewrite Hp.
  - cbn [List.map flat_map]. rewrite app_nil_r.
    destruct (_ && _ && _); [| reflexivity].
    cbn [of_area Cluster.photos]. fold (of_area a).
    now rewrite as_area_of_area, Hp.
Qed.

End Engine.
End LegacyProofs.

(** * Coverage, zoom gating and areas without coordinates *)

Module CoverageProofs.
Import MarkerManager ClusterProofs.

Lemma Permutation_filter {A} (f : A -> bool) (l l' : list A) :
  Permutation l l' -> Permutation (List.filter f l) (List.filter f l').
Proof.
  induction 1 as [| x l l' _ IH | x y l | l l' l'' _ IH1 _ IH2]; simpl.
  - constructor.
  - destruct (f x); [now constructor | exact IH].
  - destruct (f x), (f y); try reflexivity. constructor.
  - now transitivity (List.filter f l').
Qed.

Section Engine.
Variable M : JS.JSMath.
Variable photos : list Photo.t.

Lemma marker_cluster zoom areas m :
  In m (addAreaMarkers M photos zoom areas) ->
  In (areaData m) (createClusters M photos zoom areas)
  /\ rendered M photos (areaData m) = true
  /\ photoCount m = length (photosInArea M photos (areaData m)).
Proof.
  rewrite addAreaMarkers_markerOf. intros Hm.
  apply in_flat_map in Hm as (c & Hc & Hm).
  rewrite markerOf_rendered in Hm.
  destruct (rendered M photos c) eqn:Hr; [| destruct Hm].
  destruct Hm as [<- | []]. cbn. auto.
Qed.

Lemma shown_rendered zoom areas :
  List.map areaData (addAreaMarkers M photos zoom areas)
  = List.filter (rendered M photos) (createClusters M photos zoom areas).
Proof. rewrite addAreaMarkers_markerOf. apply markers_rendered. Qed.

Lemma photoBearing_photos a :
  photoBearing M photos a = true ->
  DataManager.getPhotosInArea M photos a <> [].
Proof.
  unfold photoBearing. intros H E. rewrite E in H. cbn in H.
  now rewrite andb_false_r in H.
Qed.

Lemma flat_map_nonempty {A B} (f : A -> list B) (l : list A) a :
  In a l -> f a <> [] -> flat_map f l <> [].
Proof.
  intros Ha Hf E. destruct (f a) as [|b bs] eqn:Efa; [congruence |].
  assert (Hb : In b (flat_map f l)).
  { apply in_flat_map. exists a. split; [exact Ha |]. rewrite Efa. now left. }
  rewrite E in Hb. destruct Hb.
Qed.

Lemma rendered_makeCluster l a :
  In a l -> photoBearing M photos a = true ->
  JS.truthy (Cluster.center_lat (makeCluster M photos l)) = true ->
  JS.truthy (Cluster.center_lng (makeCluster M photos l)) = true ->
  rendered M photos (makeCluster M photos l) = true.
Proof.
  intros Ha Hb Hlat Hlng. unfold rendered. rewrite Hlat, Hlng.
  cbn [makeCluster Cluster.is_active]. rewrite !andb_true_r.
  unfold photosInArea. cbn [makeCluster Cluster.isCluster Cluster.photos default].
  apply Nat.ltb_lt.
  pose proof (flat_map_nonempty (DataManager.getPhotosInArea M photos) l a Ha
                (photoBearing_photos a Hb)) as Hne.
  destruct (flat_map _ l); [congruence | simpl; lia].
Qed.

End Engine.
End CoverageProofs.

(** C1 (as amended).  Every area of the input that is active and has at
    least one associated photo is a member of exactly one marker
    candidate built by [createClusters]: among the members of the
    candidates these areas occur exactly as often as in the input.  The
    rendered candidates are those with a photo, truthy center coordinates
    and no inactive flag, in the order built.  The candidate of an active
    area with a photo is rendered when it is a singleton, and when it is
    a cluster whose averaged center coordinates are truthy.  The
    singleton of an area that is inactive or has no photo is not
    rendered. *)
Theorem C1_coverage (M : JS.JSMath) (photos : list Photo.t) (zoom : Q)
    (areas : list Area.t) :
  let clusters := MarkerManager.createClusters M photos zoom areas in
  let shown :=
    List.map MarkerManager.areaData
      (MarkerManager.addAreaMarkers M photos zoom areas) in
  Permutation
    (List.filter (photoBearing M photos)
       (flat_map Cluster.members clusters))
    (List.filter (photoBearing M photos) areas)
  /\ shown = List.filter (rendered M photos) clusters
  /\ (forall c a,
        In c clusters -> In a (Cluster.members c) ->
        photoBearing M photos a = true ->
        Cluster.isCluster c = false
        \/ (JS.truthy (Cluster.center_lat c) = true
            /\ JS.truthy (Cluster.center_lng c) = true) ->
        In c shown)
  /\ (forall c,
        In c clusters -> Cluster.isCluster c = false ->
        photoBearing M photos (Cluster.as_area c) = false ->
        ~ In c shown).
Proof.
  intros clusters shown.
  assert (Hshown : shown = List.filter (rendered M photos) clusters)
    by apply CoverageProofs.shown_rendered.
  pose proof (ClusterProofs.createClusters_grouped M photos zoom areas)
    as Hgr. fold clusters in Hgr. rewrite List.Forall_forall in Hgr.
  split; [| split; [exact Hshown | split]].
  - apply CoverageProofs.Permutation_filter,
      ClusterProofs.createClusters_members.
  - intros c a Hc Ha Hb Hcenter. rewrite Hshown. apply filter_In.
    split; [exact Hc |].
    destruct (Hgr c Hc) as (s & others & -> & _ & _ & _).
    rewrite ClusterProofs.members_emit in Ha.
    destruct (Cluster.isCluster (MarkerManager.emit M photos s others))
      eqn:Hk.
    + apply ClusterProofs.emit_multi in Hk as [_ Hk]. rewrite Hk in *.
      destruct Hcenter as [? | [Hlat Hlng]]; [discriminate |].
      now apply (CoverageProofs.rendered_makeCluster M photos _ a).
    + apply ClusterProofs.emit_single in Hk as [-> Hk]. rewrite Hk.
      destruct Ha as [<- | []]. now rewrite ClusterProofs.rendered_spread.
  - intros c Hc Hk Hnb. rewrite Hshown. intros Hin.
    apply filter_In in Hin as [_ Hr].
    destruct (Hgr c Hc) as (s & others & -> & _ & _ & _).
    apply ClusterProofs.emit_single in Hk as [-> Hk]. rewrite Hk in *.
    rewrite ClusterProofs.rendered_spread in Hr.
    rewrite ClusterProofs.as_area_spread in Hnb. congruence.
Qed.

(** C2.  Above the zoom threshold the markers are, in input order, one
    singleton per active area with at least one associated photo, each
    with [isCluster = false]; their number is the number of such areas. *)
Theorem C2_zoom_gating (M : JS.JSMath) (photos : list Photo.t) (zoom : Q)
    (areas : list Area.t) :
  APP_CONFIG.MAP.CLUSTER_ZOOM_THRESHOLD < zoom ->
  let markers := MarkerManager.addAreaMarkers M photos zoom areas in
  List.map MarkerManager.areaData markers
  = List.map MarkerManager.spread
      (List.filter (photoBearing M photos) areas)
  /\ Forall (fun m => Cluster.isCluster (MarkerManager.areaData m) = false)
       markers
  /\ length markers = length (List.filter (photoBearing M photos) areas).
Proof.
  intros Hz markers.
  assert (Hoff : MarkerManager.shouldClusterMarkers zoom = false).
  { unfold MarkerManager.shouldClusterMarkers.
    destruct (Qle_bool zoom APP_CONFIG.MAP.CLUSTER_ZOOM_THRESHOLD) eqn:E;
      [| reflexivity].
    apply Qle_bool_iff in E. apply Qle_not_lt in E. contradiction. }
  assert (Hmap : List.map MarkerManager.areaData markers
                 = List.map MarkerManager.spread
                     (List.filter (photoBearing M photos) areas)).
  { unfold markers. rewrite CoverageProofs.shown_rendered.
    unfold MarkerManager.createClusters. rewrite Hoff. cbn [negb].
    clear. induction areas as [|a l IH]; [reflexivity |].
    cbn [List.map List.filter]. rewrite ClusterProofs.rendered_spread.
    destruct (photoBearing M photos a); cbn [List.map]; now rewrite IH. }
  split; [exact Hmap | split].
  - apply List.Forall_forall. intros m Hm.
    assert (Hin : In (MarkerManager.areaData m)
                    (List.map MarkerManager.areaData markers))
      by now apply in_map.
    rewrite Hmap in Hin. apply in_map_iff in Hin as (a & <- & _).
    reflexivity.
  - rewrite <- (length_map MarkerManager.areaData), Hmap.
    apply length_map.
Qed.

(** C9.  An area without [center_lat] or [center_lng] changes nothing:
    the markers computed for the list that contains it are those
    computed for the list without it, and none of them has it among its
    members.  [addAreaMarkers] is a total function: no exception is
    raised on the way. *)
Theorem C9_missing_coordinate_skipped (M : JS.JSMath)
    (photos : list Photo.t) (zoom : Q) (l1 : list Area.t) (a : Area.t)
    (l2 : list Area.t) :
  missing a ->
  MarkerManager.addAreaMarkers M photos zoom (l1 ++ a :: l2)
  = MarkerManager.addAreaMarkers M photos zoom (l1 ++ l2)
  /\ Forall
       (fun m => ~ In a (Cluster.members (MarkerManager.areaData m)))
       (MarkerManager.addAreaMarkers M photos zoom (l1 ++ a :: l2)).
Proof.
  intros Hm. split; [now apply ClusterProofs.markers_skip |].
  apply List.Forall_forall. intros m Hin Ha.
  apply CoverageProofs.marker_cluster in Hin as (Hc & Hr & _).
  pose proof (ClusterProofs.createClusters_grouped M photos zoom
                (l1 ++ a :: l2)) as Hgr.
  rewrite List.Forall_forall in Hgr.
  exact (ClusterProofs.rendered_members_defined M photos _ _ _
           (Hgr _ Hc) Hr Ha Hm).
Qed.

(** * Falsy coordinates and radius *)

Module GuardProofs.

Lemma is_zero_falsy v : is_zero v -> JS.truthy v = false.
Proof.
  intros (q & -> & Hq). cbn. apply negb_false_iff, Qeq_bool_iff, Hq.
Qed.

Lemma missing_falsy_one v : v = None -> JS.truthy v = false.
Proof. now intros ->. Qed.

Section Engine.
Variable M : JS.JSMath.
Variable photos : list Photo.t.

Lemma createClusters_alone zoom a :
  MarkerManager.createClusters M photos zoom [a] = [MarkerManager.spread a].
Proof.
  destruct (MarkerManager.shouldClusterMarkers zoom) eqn:Hz.
  - now rewrite ClusterProofs.createClusters_greedy.
  - unfold MarkerManager.createClusters. now rewrite Hz.
Qed.

(** What the two [getPhotosInArea] and the marker guard do with an area
    one of whose coordinates is falsy. *)
Lemma falsy_coordinate zoom a n :
  JS.truthy (Area.center_lat a) = false
  \/ JS.truthy (Area.center_lng a) = false ->
  DataManager.getPhotosInArea M photos a = []
  /\ PhotoMapApp.getPhotosInArea M photos a = []
  /\ MarkerManager.createAreaMarker zoom (MarkerManager.spread a) n = None
  /\ MarkerManager.addAreaMarkers M photos zoom [a] = []
  /\ PhotoMapApp.addAreaMarkers M photos zoom [a] = [].
Proof.
  intros H.
  assert (Hl : PhotoMapApp.getPhotosInArea M photos a = [])
    by (apply LegacyProofs.legacy_photos_falsy; tauto).
  split; [| split; [exact Hl | split; [| split]]].
  4: now apply LegacyProofs.alone_without_photos.
  - now apply ClusterProofs.getPhotosInArea_falsy.
  - unfold MarkerManager.createAreaMarker. cbn.
    destruct H as [-> | ->]; [reflexivity | now rewrite orb_true_r].
  - rewrite ClusterProofs.addAreaMarkers_markerOf, createClusters_alone.
    cbn [flat_map]. now rewrite ClusterProofs.markerOf_falsy.
Qed.

(** A marker of the marker manager that stands for an area with a falsy
    coordinate stands for a cluster: the area has no marker of its
    own. *)
Lemma falsy_not_alone zoom areas a m :
  JS.truthy (Area.center_lat a) = false
  \/ JS.truthy (Area.center_lng a) = false ->
  In m (MarkerManager.addAreaMarkers M photos zoom areas) ->
  In a (Cluster.members (MarkerManager.areaData m)) ->
  Cluster.isCluster (MarkerManager.areaData m) = true
  /\ (2 <= length (Cluster.members (MarkerManager.areaData m)))%nat.
Proof.
  intros Hf Hm Ha.
  apply CoverageProofs.marker_cluster in Hm as (Hc & Hr & _).
  pose proof (ClusterProofs.createClusters_grouped M photos zoom areas)
    as Hgr.
  rewrite List.Forall_forall in Hgr.
  destruct (Hgr _ Hc) as (s & others & E & _).
  destruct (Cluster.isCluster (MarkerManager.areaData m)) eqn:Hk.
  { split; [reflexivity |]. rewrite E in Hk |- *.
    apply ClusterProofs.emit_multi in Hk as [Hne _].
    rewrite ClusterProofs.members_emit.
    destruct others; [congruence | simpl; lia]. }
  exfalso.
  rewrite E in Hk, Hr, Ha.
  apply ClusterProofs.emit_single in Hk as [-> Hs].
  rewrite Hs in Hr, Ha.
  change (Cluster.members (MarkerManager.spread s))
    with [Cluster.as_area (MarkerManager.spread s)] in Ha.
  rewrite ClusterProofs.as_area_spread in Ha. destruct Ha as [<- | []].
  rewrite ClusterProofs.rendered_spread in Hr. unfold photoBearing in Hr.
  rewrite ClusterProofs.getPhotosInArea_falsy in Hr by exact Hf.
  cbn in Hr. now rewrite andb_false_r in Hr.
Qed.

(** The marker candidates of the legacy [addAreaMarkers] that get a
    marker: grouped areas or plain areas, with truthy coordinates. *)
Lemma legacy_marker_cluster zoom areas m :
  In m (PhotoMapApp.addAreaMarkers M photos zoom areas) ->
  (legacyGrouped M photos (PhotoMapApp.clusterData m)
   \/ exists a, PhotoMapApp.clusterData m = PhotoMapApp.of_area a)
  /\ JS.truthy (Cluster.center_lat (PhotoMapApp.clusterData m)) = true
  /\ JS.truthy (Cluster.center_lng (PhotoMapApp.clusterData m)) = true.
Proof.
  unfold PhotoMapApp.addAreaMarkers. intros Hm.
  apply in_flat_map in Hm as (c & Hc & Hm).
  destruct (JS.truthy (Cluster.center_lat c)) eqn:Hlat; [| destruct Hm].
  destruct (JS.truthy (Cluster.center_lng c)) eqn:Hlng; [| destruct Hm].
  destruct (Cluster.is_active c); [| destruct Hm].
  cbn [andb] in Hm.
  match type of Hm with
  | In _ (if ?b then _ else _) => destruct b; [destruct Hm |]
  end.
  destruct Hm as [<- | []].
  cbn [PhotoMapApp.clusterData]. split; [| now split].
  destruct (PhotoMapApp.shouldClusterMarkers zoom).
  - left.
    pose proof (LegacyProofs.createPhotoClusters_grouped M photos areas)
      as Hgr.
    rewrite List.Forall_forall in Hgr. now apply Hgr.
  - right. apply in_map_iff in Hc as (a & <- & _). now exists a.
Qed.

Lemma as_area_singleArea a ps :
  Cluster.as_area (PhotoMapApp.singleArea a ps) = a.
Proof. now destruct a. Qed.

(** The same for the legacy markers. *)
Lemma legacy_falsy_not_alone zoom areas a m :
  JS.truthy (Area.center_lat a) = false
  \/ JS.truthy (Area.center_lng a) = false ->
  In m (PhotoMapApp.addAreaMarkers M photos zoom areas) ->
  In a (Cluster.members (PhotoMapApp.clusterData m)) ->
  Cluster.isCluster (PhotoMapApp.clusterData m) = true
  /\ (2 <= length (Cluster.members (PhotoMapApp.clusterData m)))%nat.
Proof.
  intros Hf Hm Ha.
  apply legacy_marker_cluster in Hm as (Hc & Hlat & Hlng).
  destruct Hc as [[(s & E) | (s & others & Hne & _ & E)] | (s & E)];
    rewrite E in *;
    [exfalso | split; [reflexivity |]; cbn;
               destruct others; [congruence | simpl; lia] | exfalso].
  - change (Cluster.members (PhotoMapApp.singleArea s _))
      with [Cluster.as_area
              (PhotoMapApp.singleArea s
                 (PhotoMapApp.getPhotosInArea M photos s))] in Ha.
    rewrite as_area_singleArea in Ha. destruct Ha as [<- | []].
    cbn in Hlat, Hlng. destruct Hf; congruence.
  - change (Cluster.members (PhotoMapApp.of_area s))
      with [Cluster.as_area (PhotoMapApp.of_area s)] in Ha.
    rewrite LegacyProofs.as_area_of_area in Ha. destruct Ha as [<- | []].
    cbn in Hlat, Hlng. destruct Hf; congruence.
Qed.

(** A legacy marker stands for areas with coordinates only. *)
Lemma legacy_members_defined zoom areas a m :
  In m (PhotoMapApp.addAreaMarkers M photos zoom areas) ->
  In a (Cluster.members (PhotoMapApp.clusterData m)) -> ~ missing a.
Proof.
  intros Hm Ha Hmiss.
  destruct (Cluster.isCluster (PhotoMapApp.clusterData m)) eqn:Hk.
  - apply legacy_marker_cluster in Hm as (Hc & _).
    destruct Hc as [[(s & E) | (s & others & Hne & Hnear & E)] | (s & E)];
      rewrite E in *; try discriminate Hk.
    cbn in Ha.
    assert (Hd : exists lat lng, Area.center_lat a = Some lat
                                 /\ Area.center_lng a = Some lng).
    { destruct Ha as [<- | Ha].
      - destruct others as [|o others]; [congruence |].
        apply List.Forall_inv in Hnear.
        now apply LegacyProofs.legacyNear_defined in Hnear.
      - rewrite List.Forall_forall in Hnear. specialize (Hnear _ Ha).
        now apply LegacyProofs.legacyNear_defined in Hnear. }
    destruct Hd as (lat & lng & Hlat & Hlng).
    destruct Hmiss; congruence.
  - destruct (legacy_falsy_not_alone zoom areas a m) as [Hk' _];
      [now apply ClusterProofs.missing_falsy | exact Hm | exact Ha |].
    congruence.
Qed.

(** Above the zoom threshold no marker is the marker of a cluster. *)
Lemma plain_above_threshold zoom areas m :
  APP_CONFIG.MAP.CLUSTER_ZOOM_THRESHOLD < zoom ->
  In m (MarkerManager.addAreaMarkers M photos zoom areas) ->
  Cluster.isCluster (MarkerManager.areaData m) = false.
Proof.
  intros Hz Hm.
  assert (Hs : MarkerManager.shouldClusterMarkers zoom = false).
  { unfold MarkerManager.shouldClusterMarkers.
    destruct (Qle_bool zoom APP_CONFIG.MAP.CLUSTER_ZOOM_THRESHOLD) eqn:E;
      [| reflexivity].
    apply Qle_bool_iff in E. apply Qlt_not_le in Hz. contradiction. }
  apply CoverageProofs.marker_cluster in Hm as (Hc & _).
  unfold MarkerManager.createClusters in Hc. rewrite Hs in Hc.
  cbn [negb] in Hc. apply in_map_iff in Hc as (a & <- & _). reflexivity.
Qed.

Lemma legacy_plain_above_threshold zoom areas m :
  APP_CONFIG.MAP.CLUSTER_ZOOM_THRESHOLD < zoom ->
  In m (PhotoMapApp.addAreaMarkers M photos zoom areas) ->
  Cluster.isCluster (PhotoMapApp.clusterData m) = false.
Proof.
  intros Hz Hm.
  assert (Hs : PhotoMapApp.shouldClusterMarkers zoom = false).
  { unfold PhotoMapApp.shouldClusterMarkers.
    destruct (Qle_bool zoom 12) eqn:E; [| reflexivity].
    apply Qle_bool_iff in E. apply Qlt_not_le in Hz. contradiction. }
  unfold PhotoMapApp.addAreaMarkers in Hm. rewrite Hs in Hm.
  apply in_flat_map in Hm as (c & Hc & Hm).
  apply in_map_iff in Hc as (a & <- & _).
  destruct (_ && _ && _); [| destruct Hm].
  match type of Hm with
  | In _ (if ?b then _ else _) => destruct b; [destruct Hm |]
  end.
  destruct Hm as [<- | []]. reflexivity.
Qed.

Lemma default_radius a :
  JS.truthy (Area.radius a) = false ->
  DataManager.getPhotosInArea M photos a
  = DataManager.getPhotosInArea M photos (with_radius (Some 1.0) a).
Proof.
  intros H. unfold DataManager.getPhotosInArea. cbn [with_radius Area.center_lat Area.center_lng Area.radius].
  assert (E : JS.or_default (Area.radius a) 1.0 = 1.0).
  { destruct (Area.radius a) as [q|]; [| reflexivity]. cbn in *.
    apply negb_false_iff in H. now rewrite H. }
  now rewrite E.
Qed.

End Engine.
End GuardProofs.

(** C7 (as amended).  For an area whose radius is undefined or zero the
    legacy [PhotoMapApp.getPhotosInArea] returns no photo, and the area
    alone on the map gets no marker there.  [DataManager.getPhotosInArea]
    instead falls back on a radius of 1.0 km ([area.radius || 1.0]): it
    returns what it returns for the same area with radius 1.0. *)
Theorem C7_radius_default (M : JS.JSMath) (photos : list Photo.t)
    (zoom : Q) (area : Area.t) :
  JS.truthy (Area.radius area) = false ->
  PhotoMapApp.getPhotosInArea M photos area = []
  /\ PhotoMapApp.addAreaMarkers M photos zoom [area] = []
  /\ DataManager.getPhotosInArea M photos area
     = DataManager.getPhotosInArea M photos (with_radius (Some 1.0) area).
Proof.
  intros H.
  assert (Hp : PhotoMapApp.getPhotosInArea M photos area = [])
    by (apply LegacyProofs.legacy_photos_falsy; tauto).
  split; [exact Hp | split].
  - now apply LegacyProofs.alone_without_photos.
  - now apply GuardProofs.default_radius.
Qed.

(** C7 (as amended) for the first area of scenario A without its
    radius. *)
Lemma C7_radius_default_witness :
  PhotoMapApp.getPhotosInArea JS.refMath [Sample.p1]
    (with_radius None Sample.a1) = []
  /\ PhotoMapApp.addAreaMarkers JS.refMath [Sample.p1] 14
       [with_radius None Sample.a1] = []
  /\ DataManager.getPhotosInArea JS.refMath [Sample.p1]
       (with_radius None Sample.a1)
     = DataManager.getPhotosInArea JS.refMath [Sample.p1]
         (with_radius (Some 1.0) (with_radius None Sample.a1)).
Proof.
  apply (C7_radius_default JS.refMath [Sample.p1] 14
           (with_radius None Sample.a1)).
  reflexivity.
Defined.

(** C7 (as stated) fails in the data manager: an area without radius
    matches the photo taken at its center. *)
Lemma C7_undefined_radius_matches_photos :
  ~ (forall (M : JS.JSMath) (photos : list Photo.t) (area : Area.t),
        JS.truthy (Area.radius area) = false ->
        DataManager.getPhotosInArea M photos area = []).
Proof.
  intros H.
  specialize (H JS.refMath [Sample.p1] (with_radius None Sample.a1)
                eq_refl).
  vm_compute in H. discriminate H.
Qed.

(** C10 (as amended).  For an area one of whose center coordinates is
    the number zero, as for an area that lacks a coordinate, both
    [getPhotosInArea] return no photo, the guard of [createAreaMarker]
    returns before any marker is created, the area alone on the map gets
    no marker from either [addAreaMarkers], and whatever the other areas
    and the zoom a marker that stands for the area is the marker of a
    cluster of two areas or more: the area never has a marker of its own,
    and above the zoom threshold it is a member of no marker.  An area
    that lacks a coordinate is a member of no marker at any zoom. *)
Theorem C10_zero_coordinate (M : JS.JSMath) (photos : list Photo.t)
    (zoom : Q) (area : Area.t) (n : nat) :
  is_zero (Area.center_lat area) \/ is_zero (Area.center_lng area) ->
  (DataManager.getPhotosInArea M photos area = []
   /\ PhotoMapApp.getPhotosInArea M photos area = []
   /\ MarkerManager.createAreaMarker zoom (MarkerManager.spread area) n
      = None
   /\ MarkerManager.addAreaMarkers M photos zoom [area] = []
   /\ PhotoMapApp.addAreaMarkers M photos zoom [area] = [])
  /\ (forall areas,
        Forall
          (fun m =>
             In area (Cluster.members (MarkerManager.areaData m)) ->
             Cluster.isCluster (MarkerManager.areaData m) = true
             /\ (2 <= length (Cluster.members (MarkerManager.areaData m)))%nat)
          (MarkerManager.addAreaMarkers M photos zoom areas)
        /\ Forall
             (fun m =>
                In area (Cluster.members (PhotoMapApp.clusterData m)) ->
                Cluster.isCluster (PhotoMapApp.clusterData m) = true
                /\ (2 <= length
                            (Cluster.members (PhotoMapApp.clusterData m)))%nat)
             (PhotoMapApp.addAreaMarkers M photos zoom areas))
  /\ (APP_CONFIG.MAP.CLUSTER_ZOOM_THRESHOLD < zoom ->
      forall areas,
        Forall
          (fun m => ~ In area (Cluster.members (MarkerManager.areaData m)))
          (MarkerManager.addAreaMarkers M photos zoom areas)
        /\ Forall
             (fun m =>
                ~ In area (Cluster.members (PhotoMapApp.clusterData m)))
             (PhotoMapApp.addAreaMarkers M photos zoom areas))
  /\ (forall area',
        missing area' ->
        (DataManager.getPhotosInArea M photos area' = []
         /\ PhotoMapApp.getPhotosInArea M photos area' = []
         /\ MarkerManager.createAreaMarker zoom (MarkerManager.spread area') n
            = None
         /\ MarkerManager.addAreaMarkers M photos zoom [area'] = []
         /\ PhotoMapApp.addAreaMarkers M photos zoom [area'] = [])
        /\ forall areas,
             Forall
               (fun m =>
                  ~ In area' (Cluster.members (MarkerManager.areaData m)))
               (MarkerManager.addAreaMarkers M photos zoom areas)
             /\ Forall
                  (fun m =>
                     ~ In area' (Cluster.members (PhotoMapApp.clusterData m)))
                  (PhotoMapApp.addAreaMarkers M photos zoom areas)).
Proof.
  intros H.
  assert (Hf : JS.truthy (Area.center_lat area) = false
               \/ JS.truthy (Area.center_lng area) = false).
  { destruct H as [H | H]; [left | right];
      now apply GuardProofs.is_zero_falsy. }
  split; [now apply GuardProofs.falsy_coordinate |]. split; [| split].
  - intros areas. split; apply List.Forall_forall; intros m Hm Ha.
    + exact (GuardProofs.falsy_not_alone M photos zoom areas area m
               Hf Hm Ha).
    + exact (GuardProofs.legacy_falsy_not_alone M photos zoom areas area m
               Hf Hm Ha).
  - intros Hz areas. split; apply List.Forall_forall; intros m Hm Ha.
    + destruct (GuardProofs.falsy_not_alone M photos zoom areas area m
                  Hf Hm Ha) as [Hk _].
      rewrite (GuardProofs.plain_above_threshold M photos zoom areas m
                 Hz Hm) in Hk. discriminate Hk.
    + destruct (GuardProofs.legacy_falsy_not_alone M photos zoom areas
                  area m Hf Hm Ha) as [Hk _].
      rewrite (GuardProofs.legacy_plain_above_threshold M photos zoom
                 areas m Hz Hm) in Hk. discriminate Hk.
  - intros area' Hm. split.
    + apply GuardProofs.falsy_coordinate.
      now apply ClusterProofs.missing_falsy.
    + intros areas. split; apply List.Forall_forall; intros m Hin Ha.
      * apply CoverageProofs.marker_cluster in Hin as (Hc & Hr & _).
        pose proof (ClusterProofs.createClusters_grouped M photos zoom
                      areas) as Hgr.
        rewrite List.Forall_forall in Hgr.
        exact (ClusterProofs.rendered_members_defined M photos _ _ _
                 (Hgr _ Hc) Hr Ha Hm).
      * exact (GuardProofs.legacy_members_defined M photos zoom areas
                 area' m Hin Ha Hm).
Qed.

(** C10 (as stated) fails: at zoom 10 an area on the equator and an area
    111 m north of it that has a photo are grouped, and the marker of
    their cluster is drawn; an area without latitude is in no marker. *)
Lemma C10_zero_coordinate_area_in_drawn_cluster :
  ~ (forall (M : JS.JSMath) (photos : list Photo.t) (zoom : Q)
            (areas : list Area.t) (area : Area.t)
            (m : MarkerManager.Marker),
        is_zero (Area.center_lat area) \/ is_zero (Area.center_lng area) ->
        In area areas ->
        In m (MarkerManager.addAreaMarkers M photos zoom areas) ->
        ~ In area (Cluster.members (MarkerManager.areaData m))).
Proof.
  intros H.
  let markers :=
    eval vm_compute in
      (MarkerManager.addAreaMarkers JS.refMath [Sample.p_north] 10
         [Sample.a_equator; Sample.a_north]) in
  match markers with
  | [?m] =>
      apply (H JS.refMath [Sample.p_north] 10
               [Sample.a_equator; Sample.a_north] Sample.a_equator m)
  end.
  - left. exists 0. split; reflexivity.
  - left. reflexivity.
  - vm_compute. left. reflexivity.
  - vm_compute. left. reflexivity.
Qed.

(** The cluster of that map in both generations: named after the area on
    the equator, half way between the two areas. *)
Example equator_cluster :
  List.map
    (fun m => (Cluster.id (MarkerManager.areaData m),
               Cluster.center_lat (MarkerManager.areaData m),
               MarkerManager.photoCount m))
    (MarkerManager.addAreaMarkers JS.refMath [Sample.p_north] 10
       [Sample.a_equator; Sample.a_north])
  = [("cluster_a0_b"%string, Some (JS.double 0.0005), 1%nat)]
  /\ List.map
       (fun m => (Cluster.id (PhotoMapApp.clusterData m),
                  Cluster.center_lat (PhotoMapApp.clusterData m),
                  PhotoMapApp.photoCount m))
       (PhotoMapApp.addAreaMarkers JS.refMath [Sample.p_north] 10
          [Sample.a_equator; Sample.a_north])
     = [("cluster_a0"%string, Some (JS.double 0.0005), 1%nat)].
Proof. split; vm_compute; reflexivity. Qed.

(** * Cluster center, photo count and id *)

(** ** Rounding to binary64 *)

Module RoundingProofs.

Lemma roundEven_error x :
  Qabs (inject_Z (JS.roundEven x) - x) <= 1 # 2.
Proof.
  unfold JS.roundEven.
  pose proof (Qfloor_le x) as Hlo. pose proof (Qlt_floor x) as Hhi.
  rewrite inject_Z_plus in Hhi. change (inject_Z 1) with 1 in Hhi.
  apply Qabs_Qle_condition.
  destruct (Qcompare_spec (x - inject_Z (Qfloor x)) (1 # 2)) as [E | E | E].
  - destruct (Z.even (Qfloor x)); rewrite ?inject_Z_plus;
      change (inject_Z 1) with 1; split; lra.
  - split; lra.
  - rewrite inject_Z_plus. change (inject_Z 1) with 1. split; lra.
Qed.

Lemma two_neq_0 : ~ 2 == 0.
Proof. discriminate. Qed.

Lemma pow2_inject k : (0 <= k)%Z -> 2 ^ k == inject_Z (2 ^ k).
Proof. intros Hk. now rewrite Zpower_Qpower. Qed.

(** The exponent [binade] finds is not too high. *)
Lemma binade_le q : ~ q == 0 -> 2 ^ JS.binade q <= Qabs q.
Proof.
  intros Hq. unfold JS.binade.
  set (n := Z.abs (Qnum q)). set (d := Z.pos (Qden q)).
  destruct (Qle_bool (2 ^ (Z.log2 n - Z.log2 d)) (Qabs q)) eqn:E;
    [now apply Qle_bool_iff |]. clear E.
  assert (Hn : (0 < n)%Z).
  { unfold n. destruct q as [a b]. unfold Qeq in Hq. cbn in *. lia. }
  assert (Hd : (0 < d)%Z) by reflexivity.
  destruct (Z.log2_spec n Hn) as [HA _].
  destruct (Z.log2_spec d Hd) as [_ HB].
  pose proof (Z.log2_nonneg n) as Hln. pose proof (Z.log2_nonneg d) as Hld.
  replace (Z.log2 n - Z.log2 d - 1)%Z
    with (Z.log2 n - Z.succ (Z.log2 d))%Z by lia.
  rewrite (Qpower_minus 2 _ _ two_neq_0).
  rewrite !pow2_inject by lia.
  assert (Habs : Qabs q == inject_Z n / inject_Z d).
  { destruct q as [a b]. unfold n, d. cbn [Qabs Qnum Qden].
    apply Qmake_Qdiv. }
  rewrite Habs.
  set (A := (2 ^ Z.log2 n)%Z) in *. set (B := (2 ^ Z.succ (Z.log2 d))%Z) in *.
  assert (HA0 : (0 < A)%Z) by (apply Z.pow_pos_nonneg; lia).
  apply Qle_shift_div_r;
    [change 0 with (inject_Z 0); rewrite <- Zlt_Qlt; lia |].
  assert (Eswap : inject_Z n / inject_Z d * inject_Z B
                  == inject_Z n * inject_Z B / inject_Z d)
    by (unfold Qdiv; ring).
  rewrite Eswap.
  apply Qle_shift_div_l;
    [change 0 with (inject_Z 0); rewrite <- Zlt_Qlt; lia |].
  rewrite <- !inject_Z_mult, <- Zle_Qle. nia.
Qed.

(** Rounding to binary64 moves a number by at most half a unit in the
    last place: by [2 ^ -53] of its magnitude, or by [2 ^ -1075] where
    the spacing is that of the smallest numbers. *)
Lemma double_error q b :
  Qabs q <= b ->
  Qabs (JS.double q - q) <= 2 ^ (-53) * b + 2 ^ (-1075).
Proof.
  intros Hb. pose proof (Qabs_nonneg q) as Hq0.
  assert (Hu : 0 < 2 ^ (-53)) by (apply Qpower_0_lt; reflexivity).
  assert (Heta : 0 < 2 ^ (-1075)) by (apply Qpower_0_lt; reflexivity).
  assert (Hub : 0 <= 2 ^ (-53) * b).
  { apply Qmult_le_0_compat; [now apply Qlt_le_weak |].
    now apply Qle_trans with (Qabs q). }
  unfold JS.double. destruct (Qeq_bool q 0) eqn:E.
  - apply Qeq_bool_iff in E.
    assert (E0 : 0 - q == 0) by (rewrite E; reflexivity).
    rewrite E0. change (Qabs 0) with 0.
    apply Qlt_le_weak in Heta.
    apply Qle_trans with (0 + 0); [apply Qle_refl |].
    now apply Qplus_le_compat.
  - apply Qeq_bool_neq in E.
    set (e := Z.max (JS.binade q) (-1022)).
    set (ulp := 2 ^ (e - 52)).
    assert (Hulp : 0 < ulp) by (apply Qpower_0_lt; reflexivity).
    rewrite Qred_correct.
    assert (Esplit : inject_Z (JS.roundEven (q / ulp)) * ulp - q
                     == (inject_Z (JS.roundEven (q / ulp)) - q / ulp) * ulp).
    { field. intros H0. rewrite H0 in Hulp. discriminate Hulp. }
    rewrite Esplit, Qabs_Qmult.
    rewrite (Qabs_pos ulp) by now apply Qlt_le_weak.
    apply Qle_trans with ((1 # 2) * ulp).
    { apply Qmult_le_compat_r; [apply roundEven_error |].
      now apply Qlt_le_weak. }
    destruct (Z.max_spec (JS.binade q) (-1022)) as [[Hlt He] | [Hle He]].
    + assert (Eulp : (1 # 2) * ulp == 2 ^ (-1075)).
      { unfold ulp, e. rewrite He. reflexivity. }
      rewrite Eulp.
      apply Qle_trans with (0 + 2 ^ (-1075)); [rewrite Qplus_0_l; apply Qle_refl |].
      apply Qplus_le_compat; [exact Hub | apply Qle_refl].
    + assert (Eulp : (1 # 2) * ulp == 2 ^ (-53) * 2 ^ JS.binade q).
      { unfold ulp, e. rewrite He.
        replace (JS.binade q - 52)%Z with (JS.binade q + -52)%Z by lia.
        rewrite (Qpower_plus 2 _ _ two_neq_0).
        assert (Ehalf : 2 ^ (-53) == (1 # 2) * 2 ^ (-52)) by reflexivity.
        rewrite Ehalf. ring. }
      rewrite Eulp.
      apply Qle_trans with (2 ^ (-53) * b + 0);
        [| apply Qplus_le_compat;
           [apply Qle_refl | now apply Qlt_le_weak]].
      rewrite Qplus_0_r. rewrite !(Qmult_comm (2 ^ (-53))).
      apply Qmult_le_compat_r; [| now apply Qlt_le_weak].
      apply Qle_trans with (Qabs q); [now apply binade_le | exact Hb].
Qed.

(** The exponent [binade] finds is not too low either. *)
Lemma binade_lt q : ~ q == 0 -> Qabs q < 2 ^ (JS.binade q + 1).
Proof.
  intros Hq. unfold JS.binade.
  set (n := Z.abs (Qnum q)). set (d := Z.pos (Qden q)).
  destruct (Qle_bool (2 ^ (Z.log2 n - Z.log2 d)) (Qabs q)) eqn:E.
  - clear E.
    assert (Hn : (0 < n)%Z).
    { unfold n. destruct q as [a b]. unfold Qeq in Hq. cbn in *. lia. }
    assert (Hd : (0 < d)%Z) by reflexivity.
    destruct (Z.log2_spec n Hn) as [_ HA].
    destruct (Z.log2_spec d Hd) as [HB _].
    pose proof (Z.log2_nonneg n) as Hln.
    pose proof (Z.log2_nonneg d) as Hld.
    replace (Z.log2 n - Z.log2 d + 1)%Z
      with (Z.succ (Z.log2 n) - Z.log2 d)%Z by lia.
    rewrite (Qpower_minus 2 _ _ two_neq_0).
    rewrite !pow2_inject by lia.
    assert (Habs : Qabs q == inject_Z n / inject_Z d).
    { destruct q as [a b]. unfold n, d. cbn [Qabs Qnum Qden].
      apply Qmake_Qdiv. }
    rewrite Habs.
    set (A := (2 ^ Z.succ (Z.log2 n))%Z) in *.
    set (B := (2 ^ Z.log2 d)%Z) in *.
    assert (HB0 : (0 < B)%Z) by (apply Z.pow_pos_nonneg; lia).
    apply Qlt_shift_div_r;
      [change 0 with (inject_Z 0); rewrite <- Zlt_Qlt; lia |].
    assert (Eswap : inject_Z A / inject_Z B * inject_Z d
                    == inject_Z A * inject_Z d / inject_Z B)
      by (unfold Qdiv; ring).
    rewrite Eswap.
    apply Qlt_shift_div_l;
      [change 0 with (inject_Z 0); rewrite <- Zlt_Qlt; lia |].
    rewrite <- !inject_Z_mult, <- Zlt_Qlt. nia.
  - replace (Z.log2 n - Z.log2 d - 1 + 1)%Z
      with (Z.log2 n - Z.log2 d)%Z by lia.
    apply Qnot_le_lt. intros H. apply Qle_bool_iff in H. congruence.
Qed.

Lemma one_lt_two : 1 < 2.
Proof. reflexivity. Qed.

(** [binade] finds the one exponent of a number. *)
Lemma binade_unique x k :
  2 ^ k <= Qabs x -> Qabs x < 2 ^ (k + 1) -> JS.binade x = k.
Proof.
  intros Hlo Hhi.
  assert (Hpos : 0 < 2 ^ k) by (apply Qpower_0_lt; reflexivity).
  assert (Hx : ~ x == 0).
  { intros E. apply Qabs_wd in E. change (Qabs 0) with 0 in E.
    rewrite E in Hlo. apply Qlt_not_le in Hpos. contradiction. }
  pose proof (binade_le x Hx) as Hb. pose proof (binade_lt x Hx) as Hb'.
  assert (H1 : (JS.binade x < k + 1)%Z).
  { apply (Qpower_lt_compat_l_inv 2); [| exact one_lt_two].
    now apply Qle_lt_trans with (Qabs x). }
  assert (H2 : (k < JS.binade x + 1)%Z).
  { apply (Qpower_lt_compat_l_inv 2); [| exact one_lt_two].
    now apply Qle_lt_trans with (Qabs x). }
  lia.
Qed.

Lemma roundEven_comp x y : x == y -> JS.roundEven x = JS.roundEven y.
Proof.
  intros E. unfold JS.roundEven. rewrite (Qfloor_comp x y E).
  assert (E' : x - inject_Z (Qfloor y) == y - inject_Z (Qfloor y))
    by (rewrite E; reflexivity).
  now rewrite (Qcompare_comp _ _ E' (1 # 2) (1 # 2) (Qeq_refl _)).
Qed.

(** An integer is its own nearest integer. *)
Lemma roundEven_Z z : JS.roundEven (inject_Z z) = z.
Proof.
  unfold JS.roundEven. rewrite Qfloor_Z.
  destruct (Qcompare_spec (inject_Z z - inject_Z z) (1 # 2)) as [E | E | E];
    [lra | reflexivity | lra].
Qed.
(** A number with a significand of at most 53 bits, at an exponent the
    format has, is a binary64 number. *)
Lemma double_scaled x r e :
  (-1022 <= e)%Z -> r <> 0%Z -> (Z.abs r < 2 ^ 53)%Z ->
  (2 ^ 52 <= Z.abs r)%Z \/ e = (-1022)%Z ->
  x == inject_Z r * 2 ^ (e - 52) ->
  JS.double x = Qred (inject_Z r * 2 ^ (e - 52)).
Proof.
  intros He Hr Hhi Hlo Ex.
  set (ulp := 2 ^ (e - 52)) in *.
  assert (Hulp : 0 < ulp) by (apply Qpower_0_lt; reflexivity).
  assert (Habs : Qabs x == inject_Z (Z.abs r) * ulp).
  { rewrite (Qabs_wd _ _ Ex), Qabs_Qmult, (Qabs_pos ulp)
      by now apply Qlt_le_weak.
    reflexivity. }
  assert (E52 : 2 ^ e == inject_Z (2 ^ 52) * ulp).
  { unfold ulp. replace e with (52 + (e - 52))%Z at 1 by lia.
    rewrite (Qpower_plus 2 _ _ two_neq_0). reflexivity. }
  assert (E53 : 2 ^ (e + 1) == inject_Z (2 ^ 53) * ulp).
  { unfold ulp. replace (e + 1)%Z with (53 + (e - 52))%Z by lia.
    rewrite (Qpower_plus 2 _ _ two_neq_0). reflexivity. }
  assert (Hx0 : ~ x == 0).
  { intros E. apply Qabs_wd in E. change (Qabs 0) with 0 in E.
    rewrite Habs in E.
    assert (H1 : 1 * ulp <= inject_Z (Z.abs r) * ulp).
    { apply Qmult_le_compat_r; [| now apply Qlt_le_weak].
      change 1 with (inject_Z 1). rewrite <- Zle_Qle. lia. }
    lra. }
  assert (Hmax : Z.max (JS.binade x) (-1022) = e).
  { destruct (Z.le_gt_cases (2 ^ 52) (Z.abs r)) as [Hn | Hs].
    - rewrite (binade_unique x e); [lia | |].
      + rewrite E52, Habs.
        apply Qmult_le_compat_r; [| now apply Qlt_le_weak].
        now rewrite <- Zle_Qle.
      + rewrite E53, Habs. apply Qmult_lt_compat_r; [exact Hulp |].
        now rewrite <- Zlt_Qlt.
    - destruct Hlo as [Hlo | ->]; [lia |].
      assert (Hb : (JS.binade x < -1022)%Z).
      { apply (Qpower_lt_compat_l_inv 2); [| exact one_lt_two].
        apply Qle_lt_trans with (Qabs x); [now apply binade_le |].
        rewrite E52, Habs. apply Qmult_lt_compat_r; [exact Hulp |].
        now rewrite <- Zlt_Qlt. }
      lia. }
  unfold JS.double.
  destruct (Qeq_bool x 0) eqn:E0;
    [apply Qeq_bool_iff in E0; contradiction |].
  cbv zeta. rewrite Hmax. fold ulp.
  assert (Er : x / ulp == inject_Z r).
  { rewrite Ex. field. intros H0. rewrite H0 in Hulp. discriminate Hulp. }
  now rewrite (roundEven_comp _ _ Er), roundEven_Z.
Qed.
Lemma abs_ge_cases c x : c <= Qabs x -> x <= - c \/ c <= x.
Proof.
  intros H. destruct (Qlt_le_dec x 0) as [Hneg | Hpos].
  - left. rewrite (Qabs_neg x) in H by now apply Qlt_le_weak. lra.
  - right. now rewrite (Qabs_pos x) in H.
Qed.

(** Rounding a binary64 number gives it back: the operands that
    [JS.add] and [JS.div] round are left as they are once they are
    Number values. *)
Lemma double_idempotent q : JS.double (JS.double q) = JS.double q.
Proof.
  destruct (Qeq_bool q 0) eqn:E0.
  { assert (Hd : JS.double q = 0)
      by (unfold JS.double; now rewrite E0).
    rewrite Hd. reflexivity. }
  set (e := Z.max (JS.binade q) (-1022)).
  set (ulp := 2 ^ (e - 52)).
  set (r := JS.roundEven (q / ulp)).
  assert (Hd : JS.double q = Qred (inject_Z r * ulp))
    by (unfold JS.double; now rewrite E0).
  rewrite Hd.
  apply Qeq_bool_neq in E0.
  assert (Hulp : 0 < ulp) by (apply Qpower_0_lt; reflexivity).
  assert (He : (-1022 <= e)%Z) by (unfold e; lia).
  pose proof (roundEven_error (q / ulp)) as Hr. fold r in Hr.
  apply Qabs_Qle_condition in Hr.
  assert (E52 : 2 ^ e == inject_Z (2 ^ 52) * ulp).
  { unfold ulp. replace e with (52 + (e - 52))%Z at 1 by lia.
    rewrite (Qpower_plus 2 _ _ two_neq_0). reflexivity. }
  assert (E53 : 2 ^ (e + 1) == inject_Z (2 ^ 53) * ulp).
  { unfold ulp. replace (e + 1)%Z with (53 + (e - 52))%Z by lia.
    rewrite (Qpower_plus 2 _ _ two_neq_0). reflexivity. }
  assert (Eabs : Qabs (q / ulp) == Qabs q / ulp).
  { unfold Qdiv. rewrite Qabs_Qmult, Qabs_Qinv.
    now rewrite (Qabs_pos ulp) by now apply Qlt_le_weak. }
  (* the scaled number is below 2 ^ 53 in magnitude *)
  assert (Hhi : Qabs (q / ulp) < inject_Z (2 ^ 53)).
  { rewrite Eabs. apply Qlt_shift_div_r; [exact Hulp |].
    rewrite <- E53.
    apply Qlt_le_trans with (2 ^ (JS.binade q + 1));
      [now apply binade_lt |].
    apply Qpower_le_compat_l; [unfold e; lia | discriminate]. }
  apply Qabs_Qlt_condition in Hhi.
  change (inject_Z (2 ^ 53)) with 9007199254740992 in Hhi.
  assert (Hr53 : (Z.abs r <= 2 ^ 53)%Z).
  { assert (H1 : inject_Z r < inject_Z (2 ^ 53 + 1)).
    { change (inject_Z (2 ^ 53 + 1)) with 9007199254740993. lra. }
    assert (H2 : inject_Z (- (2 ^ 53 + 1)) < inject_Z r).
    { change (inject_Z (- (2 ^ 53 + 1))) with (-9007199254740993). lra. }
    rewrite <- Zlt_Qlt in H1, H2. lia. }
  (* and at least 2 ^ 52 unless the exponent is the lowest *)
  assert (Hlo : (2 ^ 52 <= Z.abs r)%Z \/ e = (-1022)%Z).
  { destruct (Z.max_spec (JS.binade q) (-1022)) as [[_ Hm] | [Hge Hm]];
      [now right | left].
    assert (Hx : inject_Z (2 ^ 52) <= Qabs (q / ulp)).
    { rewrite Eabs. apply Qle_shift_div_l; [exact Hulp |].
      rewrite <- E52. unfold e. rewrite Hm. now apply binade_le. }
    change (inject_Z (2 ^ 52)) with 4503599627370496 in Hx.
    apply abs_ge_cases in Hx as [Hx | Hx].
    - assert (H1 : inject_Z r < inject_Z (- 2 ^ 52 + 1)).
      { change (inject_Z (- 2 ^ 52 + 1)) with (-4503599627370495). lra. }
      rewrite <- Zlt_Qlt in H1. lia.
    - assert (H1 : inject_Z (2 ^ 52 - 1) < inject_Z r).
      { change (inject_Z (2 ^ 52 - 1)) with 4503599627370495. lra. }
      rewrite <- Zlt_Qlt in H1. lia. }
  destruct (Z.eq_dec r 0%Z) as [Hr0 | Hr0].
  { rewrite Hr0.
    assert (E : Qred (inject_Z 0 * ulp) = 0).
    { rewrite (Qred_complete (inject_Z 0 * ulp) 0); [reflexivity |].
      change (inject_Z 0) with 0. ring. }
    rewrite E. reflexivity. }
  destruct (Z.eq_dec (Z.abs r) (2 ^ 53)%Z) as [Htop | Htop].
  - (* the significand has overflown: one exponent up *)
    assert (Hhalf : r = (2 * (r / 2))%Z /\ Z.abs (r / 2) = (2 ^ 52)%Z).
    { destruct (Z.abs_spec r) as [[_ Ha] | [_ Ha]]; rewrite Ha in Htop.
      - rewrite Htop. split; reflexivity.
      - assert (Er : r = (- 2 ^ 53)%Z) by lia. rewrite Er.
        split; reflexivity. }
    destruct Hhalf as [Hr2 Habs2].
    rewrite (double_scaled _ (r / 2) (e + 1)).
    + apply Qred_complete. rewrite Hr2 at 2. rewrite inject_Z_mult.
      unfold ulp. replace (e + 1 - 52)%Z with (1 + (e - 52))%Z by lia.
      rewrite (Qpower_plus 2 _ _ two_neq_0).
      change (inject_Z 2) with 2. change (2 ^ 1) with 2. ring.
    + lia.
    + intros H0. rewrite H0 in Habs2. discriminate Habs2.
    + rewrite Habs2. reflexivity.
    + left. rewrite Habs2. reflexivity.
    + rewrite Qred_correct. rewrite Hr2 at 1. rewrite inject_Z_mult.
      unfold ulp. replace (e + 1 - 52)%Z with (1 + (e - 52))%Z by lia.
      rewrite (Qpower_plus 2 _ _ two_neq_0).
      change (inject_Z 2) with 2. change (2 ^ 1) with 2. ring.
  - apply (double_scaled _ r e); [exact He | exact Hr0 | lia | exact Hlo |].
    apply Qred_correct.
Qed.

(** On Number values [JS.add] is the addition of the language: the
    binary64 number nearest to the exact sum. *)
Lemma add_numbers x y :
  JS.add (Some (JS.double x)) (Some (JS.double y))
  = Some (JS.double (JS.double x + JS.double y)).
Proof. cbn [JS.add]. now rewrite !double_idempotent. Qed.

Lemma rounding_units :
  0 < 2 ^ (-53) /\ 2 ^ (-53) <= 1 # 9007199254740992
  /\ 0 < 2 ^ (-1075) /\ 2 ^ (-1075) <= 1 # 1152921504606846976.
Proof. repeat split; vm_compute; congruence. Qed.

(** One addition of the running sum is off by at most [2 ^ -34] while
    the sum stays below 181 * 1024. *)
Lemma add_error s x :
  Qabs s <= 185344 -> Qabs x <= 180 ->
  Qabs (JS.double (JS.double s + JS.double x) - (s + x))
  <= 1 # 17179869184.
Proof.
  intros Hs Hx.
  pose proof (double_error s _ Hs) as H1.
  pose proof (double_error x _ Hx) as H2.
  destruct rounding_units as (Hu0 & Hu & He0 & He).
  set (u := 2 ^ (-53)) in *. set (eta := 2 ^ (-1075)) in *.
  assert (H3 : Qabs (JS.double s + JS.double x) <= 185525).
  { apply Qabs_Qle_condition in Hs, Hx, H1, H2.
    apply Qabs_Qle_condition. split; lra. }
  apply double_error in H3. fold u eta in H3.
  apply Qabs_Qle_condition in Hs, Hx, H1, H2, H3.
  apply Qabs_Qle_condition. split; lra.
Qed.

Lemma inject_S k :
  inject_Z (Z.of_nat (S k)) == inject_Z (Z.of_nat k) + 1.
Proof. rewrite Nat2Z.inj_succ, <- Z.add_1_r, inject_Z_plus. reflexivity. Qed.

Lemma inject_nat_le k n :
  (k <= n)%nat -> inject_Z (Z.of_nat k) <= inject_Z (Z.of_nat n).
Proof. intros H. rewrite <- Zle_Qle. lia. Qed.

(** The running sum of up to 1024 numbers between -180 and 180. *)
Lemma sum_error qs : forall s S k,
  Forall (fun q => Qabs q <= 180) qs ->
  (k + length qs <= 1024)%nat ->
  Qabs S <= 180 * inject_Z (Z.of_nat k) ->
  Qabs (s - S) <= (1 # 17179869184) * inject_Z (Z.of_nat k) ->
  Qabs (fold_left (fun sum q => JS.double (JS.double sum + JS.double q))
                  qs s
        - fold_left Qplus qs S)
  <= (1 # 17179869184) * inject_Z (Z.of_nat (k + length qs))
  /\ Qabs (fold_left Qplus qs S)
     <= 180 * inject_Z (Z.of_nat (k + length qs)).
Proof.
  induction qs as [|q qs IH]; intros s S k Hqs Hk HS Hs.
  - cbn [fold_left length]. rewrite Nat.add_0_r. now split.
  - inversion Hqs as [|? ? Hq Hqs']; subst. cbn [fold_left length] in *.
    replace (k + Datatypes.S (length qs))%nat
      with (Datatypes.S k + length qs)%nat by lia.
    pose proof (inject_nat_le k 1023 ltac:(lia)) as Hk'.
    change (inject_Z (Z.of_nat 1023)) with 1023 in Hk'.
    assert (0 <= inject_Z (Z.of_nat k)) as Hk0.
    { change 0 with (inject_Z 0). rewrite <- Zle_Qle. lia. }
    assert (Hbound : Qabs s <= 185344).
    { apply Qabs_Qle_condition in HS, Hs.
      apply Qabs_Qle_condition. split; lra. }
    pose proof (add_error s q Hbound Hq) as Hadd.
    apply IH; [exact Hqs' | lia | |]; rewrite inject_S.
    + apply Qabs_Qle_condition in HS, Hq.
      apply Qabs_Qle_condition. split; lra.
    + apply Qabs_Qle_condition in Hs, Hadd.
      apply Qabs_Qle_condition. split; lra.
Qed.

Lemma fold_left_Qplus qs : forall acc,
  fold_left Qplus qs acc == acc + fold_right Qplus 0 qs.
Proof.
  induction qs as [|q qs IH]; intros acc; cbn [fold_left fold_right].
  - lra.
  - rewrite IH. lra.
Qed.

Lemma div_abs a c n :
  1 <= n -> Qabs a <= c * n -> Qabs (a / n) <= c.
Proof.
  intros Hn Ha. apply Qabs_Qle_condition in Ha as [Hlo Hhi].
  assert (Hn0 : 0 < n) by lra.
  apply Qabs_Qle_condition. split.
  - apply Qle_shift_div_l; [exact Hn0 |]. lra.
  - apply Qle_shift_div_r; [exact Hn0 |]. lra.
Qed.

(** The array lengths up to 1024 are binary64 numbers. *)
Lemma length_exact n :
  (0 < n <= 1024)%nat ->
  JS.double (inject_Z (Z.of_nat n)) = inject_Z (Z.of_nat n).
Proof.
  intros Hn.
  assert (H : forallb
                (fun k =>
                   match JS.double (inject_Z (Z.of_nat k)) with
                   | a # b => (a =? Z.of_nat k)%Z && (b =? 1)%positive
                   end)
                (seq 1 1024) = true) by (vm_compute; reflexivity).
  rewrite forallb_forall in H. specialize (H n).
  destruct (JS.double (inject_Z (Z.of_nat n))) as [a b].
  assert (Hin : In n (seq 1 1024)) by (apply in_seq; lia).
  apply H in Hin. apply andb_true_iff in Hin as [Ha Hb].
  apply Z.eqb_eq in Ha. apply Pos.eqb_eq in Hb. now subst.
Qed.

(** The mean as the code computes it is within [2 ^ -33] of the
    arithmetic mean, for up to 1024 numbers between -180 and 180. *)
Lemma floatMean_near_mean qs :
  (0 < length qs <= 1024)%nat ->
  Forall (fun q => Qabs q <= 180) qs ->
  Qabs (floatMean qs - mean qs) <= 2 ^ (-33).
Proof.
  intros Hn Hqs. unfold floatMean, mean.
  rewrite (length_exact _ Hn).
  set (n := inject_Z (Z.of_nat (length qs))).
  assert (Hn1 : 1 <= n).
  { change 1 with (inject_Z (Z.of_nat 1)). apply inject_nat_le. lia. }
  assert (HnN : n <= 1024).
  { change 1024 with (inject_Z (Z.of_nat 1024)). apply inject_nat_le. lia. }
  destruct (sum_error qs 0 0 0%nat Hqs ltac:(lia)) as [Hsum Hexact].
  { change (inject_Z (Z.of_nat 0)) with 0. now rewrite Qmult_0_r. }
  { change (inject_Z (Z.of_nat 0)) with 0.
    setoid_replace (0 - 0) with 0 using relation Qeq by ring.
    now rewrite Qmult_0_r. }
  cbn [Nat.add] in Hsum, Hexact. fold n in Hsum, Hexact.
  assert (Eright : fold_right Qplus 0 qs == fold_left Qplus qs 0).
  { rewrite fold_left_Qplus. ring. }
  rewrite Eright.
  set (s := fold_left (fun sum q => JS.double (JS.double sum + JS.double q))
                      qs 0) in *.
  set (S := fold_left Qplus qs 0) in *.
  destruct rounding_units as (Hu0 & Hu & He0 & He).
  assert (Hs : Qabs s <= 185344).
  { apply Qabs_Qle_condition in Hsum, Hexact.
    apply Qabs_Qle_condition. split; lra. }
  pose proof (double_error s _ Hs) as Hd.
  assert (Hq : Qabs (JS.double s / n - S / n) <= 3 # 34359738368).
  { assert (E : JS.double s / n - S / n == (JS.double s - S) / n)
      by (unfold Qdiv; ring).
    rewrite E. apply div_abs; [exact Hn1 |].
    set (u := 2 ^ (-53)) in *. set (eta := 2 ^ (-1075)) in *.
    apply Qabs_Qle_condition in Hsum, Hd.
    apply Qabs_Qle_condition. split; lra. }
  assert (Hm : Qabs (S / n) <= 180) by now apply div_abs.
  assert (Hr : Qabs (JS.double s / n) <= 181).
  { apply Qabs_Qle_condition in Hq, Hm.
    apply Qabs_Qle_condition. split; lra. }
  apply double_error in Hr.
  assert (Etol : 2 ^ (-33) == 1 # 8589934592) by reflexivity.
  rewrite Etol.
  set (u := 2 ^ (-53)) in *. set (eta := 2 ^ (-1075)) in *.
  apply Qabs_Qle_condition in Hq, Hr.
  apply Qabs_Qle_condition. split; lra.
Qed.

End RoundingProofs.

(** ** The clusters and their groups *)

Module CentroidProofs.

Section Engine.
Variable M : JS.JSMath.
Variable photos : list Photo.t.

Lemma manager_centroid a others :
  others <> [] ->
  Forall (fun o => MarkerManager.near M a o = true) others ->
  FloatCentroidOf (a :: others)
    (MarkerManager.makeCluster M photos (a :: others)).
Proof.
  intros Hne Hnear.
  destruct (ClusterProofs.near_coordinates M a others Hne Hnear)
    as (lats & lngs & Elat & Elng).
  exists lats, lngs. split; [exact Elat |]. split; [exact Elng |].
  split; [exact (ClusterProofs.mean_of_sum Area.center_lat _ _ Elat) |].
  exact (ClusterProofs.mean_of_sum Area.center_lng _ _ Elng).
Qed.


(** What the loop of [createClusters] pushes for a seed and the areas
    near it stands for that group. *)
Lemma emit_stands_for a others :
  Forall (fun o => MarkerManager.near M a o = true) others ->
  StandsFor (fun a => length (DataManager.getPhotosInArea M photos a))
    (a :: others) (MarkerManager.emit M photos a others).
Proof.
  intros Hnear. unfold StandsFor. destruct others as [|o others].
  - reflexivity.
  - change (MarkerManager.emit M photos a (o :: others))
      with (MarkerManager.makeCluster M photos (a :: o :: others)).
    cbn [length Nat.ltb Nat.leb].
    split; [reflexivity |]. split; [reflexivity |].
    split; [now apply manager_centroid |].
    eexists. split; [reflexivity |]. apply ClusterProofs.flat_map_length.
Qed.

Lemma greedy_stands_for fuel : forall l,
  Forall2
    (StandsFor (fun a => length (DataManager.getPhotosInArea M photos a)))
    (greedyGroups M fuel l) (greedy M photos fuel l).
Proof.
  induction fuel as [|fuel IH]; intros [|a rest]; cbn [greedyGroups greedy];
    try constructor.
  - apply emit_stands_for. apply List.Forall_forall. intros o Ho.
    now apply filter_In in Ho.
  - apply IH.
Qed.

Lemma manager_marker_count zoom areas :
  Forall
    (fun m =>
       In (MarkerManager.areaData m)
          (MarkerManager.createClusters M photos zoom areas)
       /\ forall ps,
            Cluster.isCluster (MarkerManager.areaData m) = true ->
            Cluster.photos (MarkerManager.areaData m) = Some ps ->
            MarkerManager.photoCount m = length ps)
    (MarkerManager.addAreaMarkers M photos zoom areas).
Proof.
  apply List.Forall_forall. intros m Hm.
  apply CoverageProofs.marker_cluster in Hm as (Hc & _ & Hn).
  split; [exact Hc |]. intros ps Hk Hps. rewrite Hn.
  unfold MarkerManager.photosInArea. now rewrite Hk, Hps.
Qed.

Lemma legacy_centroid a others ps :
  others <> [] ->
  Forall (fun o => legacyNear M a o = true) others ->
  FloatCentroidOf (a :: others)
    (PhotoMapApp.makeCluster a (a :: others) ps).
Proof.
  intros Hne Hnear.
  destruct (LegacyProofs.legacyNear_coordinates M a others Hne Hnear)
    as (lats & lngs & Elat & Elng).
  exists lats, lngs. split; [exact Elat |]. split; [exact Elng |].
  split; [exact (ClusterProofs.mean_of_sum Area.center_lat _ _ Elat) |].
  exact (ClusterProofs.mean_of_sum Area.center_lng _ _ Elng).
Qed.


(** One turn of the legacy loop and one step of the grouping take the
    same ids and add a candidate that stands for the group added. *)
Lemma visit_groups areas taken clusters groups area :
  Forall2
    (StandsFor (fun a => length (PhotoMapApp.getPhotosInArea M photos a)))
    groups clusters ->
  fst (legacyGroupStep M photos areas (taken, groups) area)
  = fst (PhotoMapApp.visit M photos areas (taken, clusters) area)
  /\ Forall2
       (StandsFor
          (fun a => length (PhotoMapApp.getPhotosInArea M photos a)))
       (snd (legacyGroupStep M photos areas (taken, groups) area))
       (snd (PhotoMapApp.visit M photos areas (taken, clusters) area)).
Proof.
  intros Hst. unfold legacyGroupStep, PhotoMapApp.visit.
  destruct (bool_decide (Area.id area ∈ taken)
            || negb (Area.is_active area)); [now split |].
  match goal with
  | |- context [List.filter ?f areas] =>
      match goal with
      | |- context [List.filter ?g areas] =>
          tryif constr_eq f g then fail else
            assert (Efilter : List.filter f areas = List.filter g areas)
      end
  end.
  { apply List.filter_ext. intros o. unfold legacyNear.
    destruct (String.eqb (Area.id o) (Area.id area)),
      (bool_decide (Area.id o ∈ taken)), (Area.is_active o);
      reflexivity. }
  rewrite Efilter. clear Efilter.
  match goal with
  | |- context [List.filter ?g areas] => set (nearbyAreas := List.filter g areas)
  end.
  assert (Hnear : Forall (fun o => legacyNear M area o = true) nearbyAreas).
  { apply List.Forall_forall. intros o Ho.
    apply filter_In in Ho as [_ Ho].
    destruct (_ || _ || _); [discriminate | exact Ho]. }
  destruct nearbyAreas as [|o others] eqn:E.
  - change (0 <? length (@nil Area.t))%nat with false. cbv iota.
    cbn [flat_map]. rewrite app_nil_r.
    destruct (PhotoMapApp.getPhotosInArea M photos area) as [|p ps] eqn:Ep.
    + now split.
    + cbn [length Nat.eqb Nat.ltb Nat.leb]. cbv iota.
      split; [reflexivity |]. cbn [snd].
      apply Forall2_app; [exact Hst |]. constructor; [| constructor].
      reflexivity.
  - change (0 <? length (o :: others))%nat with true. cbv iota.
    set (allPhotos :=
           flat_map (PhotoMapApp.getPhotosInArea M photos)
             (area :: o :: others)).
    destruct allPhotos as [|p ps] eqn:Ep.
    + now split.
    + cbn [length Nat.eqb Nat.ltb Nat.leb]. cbv iota.
      split; [reflexivity |]. cbn [snd].
      apply Forall2_app; [exact Hst |]. constructor; [| constructor].
      unfold StandsFor. cbn [length Nat.ltb Nat.leb].
      split; [reflexivity |]. split; [reflexivity |].
      split; [now apply legacy_centroid |].
      eexists. split; [reflexivity |].
      rewrite <- Ep. apply ClusterProofs.flat_map_length.
Qed.

Lemma createPhotoClusters_groups areas :
  Forall2
    (StandsFor (fun a => length (PhotoMapApp.getPhotosInArea M photos a)))
    (legacyGroups M photos areas)
    (PhotoMapApp.createPhotoClusters M photos areas).
Proof.
  unfold legacyGroups, PhotoMapApp.createPhotoClusters.
  generalize areas at 1 3 as fixed. intros fixed.
  assert (H : Forall2
                (StandsFor
                   (fun a =>
                      length (PhotoMapApp.getPhotosInArea M photos a)))
                (@nil (list Area.t)) (@nil Cluster.t)) by constructor.
  revert H.
  generalize (@nil (list Area.t)) as groups, (@nil Cluster.t) as clusters.
  generalize (∅ : gset string) as taken.
  induction areas as [|a l IH]; intros taken groups clusters Hst;
    [exact Hst |].
  cbn [fold_left].
  destruct (visit_groups fixed taken clusters groups a Hst) as [Hfst Hsnd].
  destruct (legacyGroupStep M photos fixed (taken, groups) a)
    as [taken1 groups1].
  destruct (PhotoMapApp.visit M photos fixed (taken, clusters) a)
    as [taken2 clusters2].
  cbn [fst snd] in Hfst, Hsnd. subst taken2. now apply IH.
Qed.

Lemma legacy_marker_count zoom areas :
  PhotoMapApp.shouldClusterMarkers zoom = true ->
  Forall
    (fun m =>
       In (PhotoMapApp.clusterData m)
          (PhotoMapApp.createPhotoClusters M photos areas)
       /\ forall ps,
            Cluster.photos (PhotoMapApp.clusterData m) = Some ps ->
            PhotoMapApp.photoCount m = length ps)
    (PhotoMapApp.addAreaMarkers M photos zoom areas).
Proof.
  intros Hz. apply List.Forall_forall. intros m Hm.
  unfold PhotoMapApp.addAreaMarkers in Hm. rewrite Hz in Hm.
  apply in_flat_map in Hm as (c & Hc & Hm).
  destruct (_ && _ && _); [| destruct Hm].
  destruct (Cluster.photos c) as [l|] eqn:E.
  - destruct (length l =? 0)%nat; [destruct Hm |].
    destruct Hm as [<- | []]. cbn. split; [exact Hc |].
    intros ps Hps. congruence.
  - destruct (length _ =? 0)%nat; [destruct Hm |].
    destruct Hm as [<- | []]. cbn. split; [exact Hc |].
    intros ps Hps. congruence.
Qed.

End Engine.
End CentroidProofs.

(** C3 (as amended).  At or below the zoom threshold the marker
    candidates of [createClusters] are, one for one and in order, those
    of the greedy groups of the areas, and the candidates of the legacy
    [createPhotoClusters] those of the legacy groups.  A group of two
    areas or more gives a cluster that holds these areas, all of which
    have both coordinates, and whose latitude and longitude are the sums
    of theirs, added to 0 in member order, divided by their number, each
    addition and the division rounded to the nearest binary64 number;
    its photo list is as long as the sum of the members' own photo lists,
    so a photo that lies in two member areas is counted twice.  The photo
    count of a marker drawn for a cluster is the length of that list.
    The quotient so computed need not be the arithmetic mean, but for up
    to 1024 numbers between -180 and 180 it is within [2 ^ -33] of it. *)
Theorem C3_cluster_center_and_count (M : JS.JSMath)
    (photos : list Photo.t) (zoom : Q) (areas : list Area.t) :
  zoom <= APP_CONFIG.MAP.CLUSTER_ZOOM_THRESHOLD ->
  (Forall2
     (StandsFor (fun a => length (DataManager.getPhotosInArea M photos a)))
     (greedyGroups M (length areas) areas)
     (MarkerManager.createClusters M photos zoom areas)
   /\ Forall
        (fun m =>
           In (MarkerManager.areaData m)
              (MarkerManager.createClusters M photos zoom areas)
           /\ forall ps,
                Cluster.isCluster (MarkerManager.areaData m) = true ->
                Cluster.photos (MarkerManager.areaData m) = Some ps ->
                MarkerManager.photoCount m = length ps)
        (MarkerManager.addAreaMarkers M photos zoom areas))
  /\ (Forall2
        (StandsFor
           (fun a => length (PhotoMapApp.getPhotosInArea M photos a)))
        (legacyGroups M photos areas)
        (PhotoMapApp.createPhotoClusters M photos areas)
      /\ Forall
           (fun m =>
              In (PhotoMapApp.clusterData m)
                 (PhotoMapApp.createPhotoClusters M photos areas)
              /\ forall ps,
                   Cluster.photos (PhotoMapApp.clusterData m) = Some ps ->
                   PhotoMapApp.photoCount m = length ps)
           (PhotoMapApp.addAreaMarkers M photos zoom areas))
  /\ (forall qs,
        (0 < length qs <= 1024)%nat ->
        Forall (fun q => Qabs q <= 180) qs ->
        Qabs (floatMean qs - mean qs) <= 2 ^ (-33)).
Proof.
  intros Hz. apply Qle_bool_iff in Hz. split; [split | split; [split |]].
  - rewrite ClusterProofs.createClusters_greedy by exact Hz.
    apply CentroidProofs.greedy_stands_for.
  - apply CentroidProofs.manager_marker_count.
  - apply CentroidProofs.createPhotoClusters_groups.
  - apply CentroidProofs.legacy_marker_count. exact Hz.
  - apply RoundingProofs.floatMean_near_mean.
Qed.

(** C3 (as stated) fails on scenario A: the two latitudes, read as
    binary64 numbers, add up to a number that is not one, so that the
    cluster sits at 34.850750000000005, next to their mean and not on
    it. *)
Lemma C3_center_is_not_the_exact_mean :
  ~ (forall (M : JS.JSMath) (photos : list Photo.t) (zoom : Q)
            (areas : list Area.t) (c : Cluster.t),
        In c (MarkerManager.createClusters M photos zoom areas) ->
        Cluster.isCluster c = true ->
        exists members,
          Cluster.areas c = Some members /\ CentroidOf members c).
Proof.
  intros H.
  let clusters :=
    eval vm_compute in
      (MarkerManager.createClusters JS.refMath [Sample.p1] 10
         [as_numbers Sample.a1; as_numbers Sample.a2]) in
  match clusters with
  | [?c] =>
      specialize (H JS.refMath [Sample.p1] 10
                    [as_numbers Sample.a1; as_numbers Sample.a2] c)
  end.
  destruct H as (members & Hm & lats & lngs & clat & clng
                 & Elat & _ & Hc & Hmean & _).
  - vm_compute. left. reflexivity.
  - reflexivity.
  - cbn [Cluster.areas] in Hm. injection Hm as <-.
    destruct lats as [|x [|y [|z lats]]]; try discriminate Elat.
    cbn [List.map] in Elat. injection Elat as <- <-.
    cbn [Cluster.center_lat] in Hc. injection Hc as <-.
    apply Qeq_bool_iff in Hmean. vm_compute in Hmean. discriminate Hmean.
Qed.



(** C1 (as stated) fails: an area with no photo of its own, 254 m from an
    area that has one, is a member of the cluster that gets the marker. *)
Lemma C1_zero_photo_area_in_rendered_cluster :
  ~ (forall (M : JS.JSMath) (photos : list Photo.t) (zoom : Q)
            (areas : list Area.t) (a : Area.t) (m : MarkerManager.Marker),
        In a areas ->
        DataManager.getPhotosInArea M photos a = [] ->
        In m (MarkerManager.addAreaMarkers M photos zoom areas) ->
        ~ In a (Cluster.members (MarkerManager.areaData m))).
Proof.
  intros H.
  let markers :=
    eval vm_compute in
      (MarkerManager.addAreaMarkers JS.refMath [Sample.p1] 10
         [Sample.a1; Sample.a2_small]) in
  match markers with
  | [?m] =>
      apply (H JS.refMath [Sample.p1] 10 [Sample.a1; Sample.a2_small]
               Sample.a2_small m)
  end.
  - right. left. reflexivity.
  - vm_compute. reflexivity.
  - vm_compute. left. reflexivity.
  - vm_compute. right. left. reflexivity.
Qed.

(** C2 at zoom 14 on the areas of scenario A and an area without
    latitude. *)
Lemma C2_zoom_gating_witness :
  List.map MarkerManager.areaData
    (MarkerManager.addAreaMarkers JS.refMath [Sample.p1] 14
       [Sample.a1; Sample.a_missing; Sample.a2])
  = List.map MarkerManager.spread
      (List.filter (photoBearing JS.refMath [Sample.p1])
         [Sample.a1; Sample.a_missing; Sample.a2]).
Proof.
  apply (C2_zoom_gating JS.refMath [Sample.p1] 14
           [Sample.a1; Sample.a_missing; Sample.a2]).
  reflexivity.
Defined.

(** C9 at zoom 10 for an area without latitude between the areas of
    scenario A. *)
Lemma C9_missing_coordinate_skipped_witness :
  MarkerManager.addAreaMarkers JS.refMath [Sample.p1] 10
    ([Sample.a1] ++ Sample.a_missing :: [Sample.a2])
  = MarkerManager.addAreaMarkers JS.refMath [Sample.p1] 10
      ([Sample.a1] ++ [Sample.a2]).
Proof.
  apply (C9_missing_coordinate_skipped JS.refMath [Sample.p1] 10
           [Sample.a1] Sample.a_missing [Sample.a2]).
  left. reflexivity.
Defined.

(** C10 (as amended) at zoom 10 for an area on the equator, alone on the
    map and next to an area with a photo. *)
Lemma C10_zero_coordinate_witness :
  (DataManager.getPhotosInArea JS.refMath [Sample.p_north] Sample.a_equator
   = []
   /\ PhotoMapApp.getPhotosInArea JS.refMath [Sample.p_north]
        Sample.a_equator = []
   /\ MarkerManager.createAreaMarker 10
        (MarkerManager.spread Sample.a_equator) 1 = None
   /\ MarkerManager.addAreaMarkers JS.refMath [Sample.p_north] 10
        [Sample.a_equator] = []
   /\ PhotoMapApp.addAreaMarkers JS.refMath [Sample.p_north] 10
        [Sample.a_equator] = [])
  /\ Forall
       (fun m =>
          In Sample.a_equator (Cluster.members (MarkerManager.areaData m)) ->
          Cluster.isCluster (MarkerManager.areaData m) = true
          /\ (2 <= length (Cluster.members (MarkerManager.areaData m)))%nat)
       (MarkerManager.addAreaMarkers JS.refMath [Sample.p_north] 10
          [Sample.a_equator; Sample.a_north]).
Proof.
  assert (H : is_zero (Area.center_lat Sample.a_equator)
              \/ is_zero (Area.center_lng Sample.a_equator)).
  { left. exists 0. split; reflexivity. }
  split.
  - exact (proj1 (C10_zero_coordinate JS.refMath [Sample.p_north] 10
                    Sample.a_equator 1 H)).
  - exact (proj1 (proj1 (proj2 (C10_zero_coordinate JS.refMath
                                  [Sample.p_north] 10 Sample.a_equator 1 H))
                    [Sample.a_equator; Sample.a_north])).
Defined.

(** C3 (as amended) on scenario A at zoom 10: one cluster of the two
    areas. *)
Lemma C3_cluster_center_and_count_witness :
  Forall2
    (StandsFor
       (fun a =>
          length (DataManager.getPhotosInArea JS.refMath [Sample.p1] a)))
    (greedyGroups JS.refMath 2 [Sample.a1; Sample.a2])
    (MarkerManager.createClusters JS.refMath [Sample.p1] 10
       [Sample.a1; Sample.a2])
  /\ Forall2
       (StandsFor
          (fun a =>
             length (PhotoMapApp.getPhotosInArea JS.refMath [Sample.p1] a)))
       (legacyGroups JS.refMath [Sample.p1] [Sample.a1; Sample.a2])
       (PhotoMapApp.createPhotoClusters JS.refMath [Sample.p1]
          [Sample.a1; Sample.a2])
  /\ Qabs (floatMean [34.85; 34.8515] - mean [34.85; 34.8515])
     <= 2 ^ (-33).
Proof.
  assert (Hz : 10 <= APP_CONFIG.MAP.CLUSTER_ZOOM_THRESHOLD)
    by (unfold APP_CONFIG.MAP.CLUSTER_ZOOM_THRESHOLD; lra).
  pose proof (C3_cluster_center_and_count JS.refMath [Sample.p1] 10
                [Sample.a1; Sample.a2] Hz) as H.
  split; [exact (proj1 (proj1 H)) |].
  split; [exact (proj1 (proj1 (proj2 H))) |].
  apply (proj2 (proj2 H)); [cbn; lia |].
  repeat constructor; discriminate.
Defined.

(** The groups, the cluster and the marker of scenario A: the center is
    the binary64 number written 34.850750000000005, and the photo at the
    first area, which lies in both, is counted twice. *)
Example scenario_A_cluster :
  greedyGroups JS.refMath 2 [Sample.a1; Sample.a2]
  = [[Sample.a1; Sample.a2]]
  /\ legacyGroups JS.refMath [Sample.p1] [Sample.a1; Sample.a2]
     = [[Sample.a1; Sample.a2]]
  /\ List.map
       (fun m => (Cluster.center_lat (MarkerManager.areaData m),
                  Cluster.center_lng (MarkerManager.areaData m),
                  MarkerManager.photoCount m))
       (MarkerManager.addAreaMarkers JS.refMath [Sample.p1] 10
          [Sample.a1; Sample.a2])
     = [(Some (JS.double 34.850750000000005), Some (JS.double 134.60105),
         2%nat)]
  /\ List.map
       (fun m => (Cluster.center_lat (PhotoMapApp.clusterData m),
                  Cluster.center_lng (PhotoMapApp.clusterData m),
                  PhotoMapApp.photoCount m))
       (PhotoMapApp.addAreaMarkers JS.refMath [Sample.p1] 10
          [Sample.a1; Sample.a2])
     = [(Some (JS.double 34.850750000000005), Some (JS.double 134.60105),
         2%nat)]
  /\ Qeq_bool (JS.double 34.850750000000005) (mean [34.85; 34.8515]) = false.
Proof. repeat split; vm_compute; reflexivity. Qed.

(** Scenario A of the specification, and a photo counted twice. *)
Example scenario_A :
  List.map (fun c => (Cluster.id c, Cluster.isCluster c))
    (MarkerManager.createClusters JS.refMath [Sample.p1] 10
       [Sample.a1; Sample.a2])
  = [("cluster_a1_a2"%string, true)]
  /\ List.map (fun c => (Cluster.id c, Cluster.isCluster c))
       (MarkerManager.createClusters JS.refMath [Sample.p1] 14
          [Sample.a1; Sample.a2])
     = [("a1"%string, false); ("a2"%string, false)]
  /\ List.map MarkerManager.photoCount
       (MarkerManager.addAreaMarkers JS.refMath [Sample.p1] 10
          [Sample.a1; Sample.a2])
     = [2%nat].
Proof. repeat split; vm_compute; reflexivity. Qed.

(** * Lists *)

Module ListFacts.

Lemma NoDup_map_filter {A B} (f : A -> B) (p : A -> bool) (l : list A) :
  List.NoDup (List.map f l) -> List.NoDup (List.map f (List.filter p l)).
Proof.
  induction l as [|x l IH]; intros Hnd; [constructor |].
  cbn [List.map] in Hnd. apply List.NoDup_cons_iff in Hnd as [Hx Hnd].
  cbn [List.filter]. destruct (p x); [| now apply IH].
  cbn [List.map]. constructor; [| now apply IH].
  intros Hin. apply Hx. apply in_map_iff in Hin as (y & <- & Hy).
  apply filter_In in Hy as [Hy _]. now apply in_map.
Qed.

Lemma NoDup_map_inj {A B} (f : A -> B) (l : list A) a b :
  List.NoDup (List.map f l) -> In a l -> In b l -> f a = f b -> a = b.
Proof.
  induction l as [|x l IH]; intros Hnd Ha Hb E; [destruct Ha |].
  cbn [List.map] in Hnd. apply List.NoDup_cons_iff in Hnd as [Hx Hnd].
  destruct Ha as [<- | Ha], Hb as [<- | Hb].
  - reflexivity.
  - exfalso. apply Hx. rewrite E. now apply in_map.
  - exfalso. apply Hx. rewrite <- E. now apply in_map.
  - now apply IH.
Qed.

Lemma NoDup_app_disjoint {A} (l1 l2 : list A) :
  List.NoDup l1 -> List.NoDup l2 ->
  (forall x, In x l1 -> In x l2 -> False) ->
  List.NoDup (l1 ++ l2).
Proof.
  induction l1 as [|x l1 IH]; intros H1 H2 Hd; [exact H2 |].
  apply List.NoDup_cons_iff in H1 as [Hx H1]. cbn [app]. constructor.
  - intros Hin. apply in_app_or in Hin as [Hin | Hin]; [now apply Hx |].
    apply (Hd x); [now left | exact Hin].
  - apply IH; [exact H1 | exact H2 |].
    intros y Hy1 Hy2. apply (Hd y); [now right | exact Hy2].
Qed.

Lemma filter_keep_all {A} (p : A -> bool) (l : list A) :
  (forall x, In x l -> p x = true) -> List.filter p l = l.
Proof.
  induction l as [|x l IH]; intros H; [reflexivity |].
  cbn [List.filter]. rewrite (H x) by now left.
  f_equal. apply IH. intros y Hy. apply H. now right.
Qed.

Lemma filter_filter {A} (p q : A -> bool) (l : list A) :
  List.filter q (List.filter p l) = List.filter (fun x => p x && q x) l.
Proof.
  induction l as [|x l IH]; [reflexivity |].
  cbn [List.filter]. destruct (p x); cbn [andb List.filter];
    [destruct (q x) |]; now rewrite IH.
Qed.

End ListFacts.

(** * Grouping: what the marker candidates are *)

Module GroupingProofs.
Import MarkerManager.

Section Engine.
Variable M : JS.JSMath.
Variable photos : list Photo.t.

Lemma greedy_members_incl n l c :
  In c (greedy M photos n l) -> incl (Cluster.members c) l.
Proof.
  intros Hc.
  pose proof (ClusterProofs.greedy_grouped M photos n l) as Hg.
  rewrite List.Forall_forall in Hg.
  destruct (Hg c Hc) as (a & others & -> & Ha & Ho & _).
  rewrite ClusterProofs.members_emit. intros x [<- | Hx]; auto.
Qed.

Lemma greedy_separated n : forall l before c after s others,
  greedy M photos n l = before ++ c :: after ->
  Cluster.members c = s :: others ->
  Forall (fun c' => Forall (fun x => near M s x = false) (Cluster.members c'))
    after.
Proof.
  induction n as [|n IH]; intros l before c after s others Hg Hm.
  - destruct before; discriminate Hg.
  - destruct l as [|a rest]; [destruct before; discriminate Hg |].
    cbn [greedy] in Hg. destruct before as [|c0 before].
    + cbn [app] in Hg. injection Hg as <- <-.
      rewrite ClusterProofs.members_emit in Hm. injection Hm as <- _.
      apply List.Forall_forall. intros c' Hc'.
      apply List.Forall_forall. intros x Hx.
      apply greedy_members_incl in Hc'. apply Hc' in Hx.
      apply filter_In in Hx as [_ Hx]. now apply negb_true_iff.
    + cbn [app] in Hg. injection Hg as _ Hg. eauto.
Qed.

Lemma members_length_emit a others :
  Cluster.isCluster (emit M photos a others)
  = (1 <? length (Cluster.members (emit M photos a others)))%nat.
Proof.
  rewrite ClusterProofs.members_emit. now destruct others.
Qed.

Lemma clusters_count zoom areas :
  (length (createClusters M photos zoom areas) <= length areas)%nat.
Proof.
  rewrite <- (Permutation_length
                (ClusterProofs.createClusters_members M photos zoom areas)).
  pose proof (ClusterProofs.createClusters_grouped M photos zoom areas) as Hg.
  induction Hg as [|c l (a & others & -> & _) _ IH]; [simpl; lia |].
  cbn [flat_map length]. rewrite length_app, ClusterProofs.members_emit.
  simpl. lia.
Qed.

End Engine.
End GroupingProofs.

(** X1.  Whatever the zoom, [createClusters] loses and duplicates no
    area: the member lists of the marker candidates, put end to end, are
    a rearrangement of the input list, so there are at most as many
    candidates as areas. *)
Theorem X1_candidates_partition_the_areas (M : JS.JSMath)
    (photos : list Photo.t) (zoom : Q) (areas : list Area.t) :
  Permutation
    (flat_map Cluster.members
       (MarkerManager.createClusters M photos zoom areas))
    areas
  /\ (length (MarkerManager.createClusters M photos zoom areas)
      <= length areas)%nat.
Proof.
  split.
  - apply ClusterProofs.createClusters_members.
  - apply GroupingProofs.clusters_count.
Qed.

(** X2.  At or below the zoom threshold the loop of [createClusters], with
    its set of processed indices, computes the greedy grouping: the first
    area still unassigned seeds a group and takes every later unassigned
    area within the cluster distance of it. *)
Theorem X2_createClusters_is_greedy (M : JS.JSMath)
    (photos : list Photo.t) (zoom : Q) (areas : list Area.t) :
  zoom <= APP_CONFIG.MAP.CLUSTER_ZOOM_THRESHOLD ->
  MarkerManager.createClusters M photos zoom areas
  = greedy M photos (length areas) areas.
Proof.
  intros Hz. apply ClusterProofs.createClusters_greedy.
  now apply Qle_bool_iff.
Qed.

Lemma X2_createClusters_is_greedy_witness :
  MarkerManager.createClusters JS.refMath [Sample.p1] 10
    [Sample.a1; Sample.a_missing; Sample.a2]
  = greedy JS.refMath [Sample.p1] 3 [Sample.a1; Sample.a_missing; Sample.a2].
Proof.
  apply (X2_createClusters_is_greedy JS.refMath [Sample.p1] 10
           [Sample.a1; Sample.a_missing; Sample.a2]).
  vm_compute. discriminate.
Defined.

(** X3.  Every marker candidate is star-shaped around its first member,
    the seed: each other member is within the cluster distance of the
    seed (not necessarily of one another), all members come from the
    input, and [isCluster] is set exactly when there are two members or
    more. *)
Theorem X3_candidates_are_stars (M : JS.JSMath) (photos : list Photo.t)
    (zoom : Q) (areas : list Area.t) :
  Forall
    (fun c =>
       exists seed others,
         Cluster.members c = seed :: others
         /\ Forall (fun o => MarkerManager.near M seed o = true) others
         /\ incl (seed :: others) areas
         /\ Cluster.isCluster c = (1 <? length (Cluster.members c))%nat)
    (MarkerManager.createClusters M photos zoom areas).
Proof.
  eapply List.Forall_impl;
    [| apply (ClusterProofs.createClusters_grouped M photos zoom areas)].
  intros c (a & others & -> & Ha & Ho & Hn).
  exists a, others. rewrite ClusterProofs.members_emit.
  split; [reflexivity |]. split; [exact Hn |]. split.
  - intros x [<- | Hx]; auto.
  - rewrite <- (ClusterProofs.members_emit M photos a others).
    apply GroupingProofs.members_length_emit.
Qed.

(** X4.  At or below the zoom threshold no member of a later candidate is
    within the cluster distance of the seed of an earlier one: a seed
    takes every area it can reach. *)
Theorem X4_later_candidates_are_out_of_reach (M : JS.JSMath)
    (photos : list Photo.t) (zoom : Q) (areas : list Area.t)
    (before : list Cluster.t) (c : Cluster.t) (after : list Cluster.t)
    (seed : Area.t) (others : list Area.t) :
  zoom <= APP_CONFIG.MAP.CLUSTER_ZOOM_THRESHOLD ->
  MarkerManager.createClusters M photos zoom areas = before ++ c :: after ->
  Cluster.members c = seed :: others ->
  Forall
    (fun c' =>
       Forall (fun x => MarkerManager.near M seed x = false)
         (Cluster.members c'))
    after.
Proof.
  intros Hz Hsplit Hm.
  rewrite ClusterProofs.createClusters_greedy in Hsplit
    by now apply Qle_bool_iff.
  exact (GroupingProofs.greedy_separated M photos _ _ _ _ _ _ _ Hsplit Hm).
Qed.

Lemma X4_later_candidates_are_out_of_reach_witness :
  exists c after,
    MarkerManager.createClusters JS.refMath [Sample.p1] 10
      [Sample.a1; SampleState.a_far] = [] ++ c :: after
    /\ after <> []
    /\ Forall
         (fun c' =>
            Forall (fun x => MarkerManager.near JS.refMath Sample.a1 x = false)
              (Cluster.members c'))
         after.
Proof.
  assert (Hrun : exists c after,
    MarkerManager.createClusters JS.refMath [Sample.p1] 10
      [Sample.a1; SampleState.a_far] = [] ++ c :: after
    /\ Cluster.members c = Sample.a1 :: []
    /\ after <> []).
  { eexists _, _. vm_compute.
    split; [reflexivity |]. split; [reflexivity | discriminate]. }
  destruct Hrun as (c & after & Hsplit & Hm & Hne).
  exists c, after. split; [exact Hsplit |]. split; [exact Hne |].
  refine (X4_later_candidates_are_out_of_reach JS.refMath [Sample.p1] 10
            [Sample.a1; SampleState.a_far] [] c after Sample.a1 [] _
            Hsplit Hm).
  vm_compute. discriminate.
Defined.

(** * The marker layer, selection and zoom changes *)

Module MarkerStateProofs.
Import MarkerState.

Lemma objects_setIcon h i st h' :
  objects (setIcon h i st) !! h'
  = if decide (h = h')
    then (fun o => {| areaData := areaData o; clusterData := clusterData o;
                      icon := i |}) <$> objects st !! h'
    else objects st !! h'.
Proof.
  cbn [setIcon objects]. rewrite lookup_alter.
  now destruct (decide (h = h')) as [<- |].
Qed.

Lemma inv_initial : MarkerInvariant initial.
Proof.
  split; cbn; intros; try easy.
Qed.

Lemma inv_clear st :
  MarkerInvariant st -> MarkerInvariant (clearAreaMarkers st).
Proof.
  intros [H1 H2 H3 H4 H5 H6]. split; cbn; intros; try easy; eauto.
Qed.

(** Replacing the icon of a marker by a plain one. *)
Lemma inv_setIcon_plain h i st :
  MarkerInvariant st -> highlighted i = false ->
  MarkerInvariant (setIcon h i st).
Proof.
  intros [H1 H2 H3 H4 H5 H6] Hi.
  split; [| exact H2 | | | exact H5 | exact H6].
  - intros h' Hh'. rewrite objects_setIcon.
    destruct (decide (h = h')); [| exact (H1 _ Hh')].
    apply fmap_is_Some. exact (H1 _ Hh').
  - intros h' o. rewrite objects_setIcon.
    destruct (decide (h = h')); [| apply H3].
    intros Ho. apply fmap_Some in Ho as (o' & Ho' & ->). cbn. eauto.
  - intros h' o Hin. rewrite objects_setIcon.
    destruct (decide (h = h')); [| apply H4; exact Hin].
    intros Ho. apply fmap_Some in Ho as (o' & Ho' & ->). cbn. congruence.
Qed.

Lemma inv_createAreaMarker zoom c n st :
  MarkerInvariant st -> MarkerInvariant (createAreaMarker zoom c n st).
Proof.
  intros Hinv. unfold createAreaMarker.
  destruct (_ || _ || _); [exact Hinv |].
  destruct Hinv as [H1 H2 H3 H4 H5 H6].
  set (h := fresh (dom (objects st))).
  assert (Hfresh : objects st !! h = None).
  { apply not_elem_of_dom. apply is_fresh. }
  split; cbn [objects areaLayer markerLookup selectedMarker selectedCluster].
  - intros h' Hin. destruct (decide (h = h')) as [<- | Hne].
    + rewrite lookup_insert_eq. eauto.
    + rewrite lookup_insert_ne by exact Hne.
      apply in_app_or in Hin as [Hin | [E | []]]; [apply H1, Hin | easy].
  - intros k info. destruct (decide (Cluster.id c = k)) as [<- | Hne].
    + rewrite lookup_insert_eq. intros [= <-]. cbn.
      apply in_or_app. right. now left.
    + rewrite lookup_insert_ne by exact Hne. intros Hk.
      apply in_or_app. left. exact (H2 _ _ Hk).
  - intros h' o. destruct (decide (h = h')) as [<- | Hne].
    + rewrite lookup_insert_eq. intros [= <-]. reflexivity.
    + rewrite lookup_insert_ne by exact Hne. apply H3.
  - intros h' o Hin. destruct (decide (h = h')) as [<- | Hne].
    + rewrite lookup_insert_eq. intros [= <-]. cbn. discriminate.
    + rewrite lookup_insert_ne by exact Hne.
      apply in_app_or in Hin as [Hin | [E | []]]; [apply H4, Hin | easy].
  - intros h' Hsel. destruct (H5 h' Hsel) as (c' & info & Hc' & Hl).
    exists c'. destruct (decide (Cluster.id c = Cluster.id c')) as [E | Hne].
    + eexists. split; [exact Hc' |]. rewrite E. apply lookup_insert_eq.
    + exists info. split; [exact Hc' |]. now rewrite lookup_insert_ne.
  - intros k info. destruct (decide (Cluster.id c = k)) as [<- | Hne].
    + rewrite lookup_insert_eq. intros [= <-]. reflexivity.
    + rewrite lookup_insert_ne by exact Hne. apply H6.
Qed.

(** Forgetting the selection of a state none of whose layer markers is
    highlighted. *)
Lemma inv_forget st :
  MarkerInvariant st ->
  (forall h o, In h (areaLayer st) -> objects st !! h = Some o ->
               highlighted (icon o) = false) ->
  MarkerInvariant
    {| objects := objects st; areaLayer := areaLayer st;
       markerLookup := markerLookup st;
       selectedMarker := None; selectedCluster := None;
       lastClusterState := lastClusterState st |}.
Proof.
  intros [H1 H2 H3 H4 H5 H6] Hplain.
  split; cbn [objects areaLayer markerLookup selectedMarker selectedCluster];
    [exact H1 | exact H2 | exact H3 | | discriminate | exact H6].
  intros h o Hin Ho Hh. rewrite (Hplain h o Hin Ho) in Hh. discriminate.
Qed.

(** The markers of the layer after [deselectCurrentMarker]: none is
    highlighted. *)
Lemma deselect_layer_plain st :
  MarkerInvariant st ->
  forall h o,
    In h (areaLayer (deselectCurrentMarker st)) ->
    objects (deselectCurrentMarker st) !! h = Some o ->
    highlighted (icon o) = false.
Proof.
  intros Hinv h o. unfold deselectCurrentMarker.
  destruct (selectedMarker st) as [h0|] eqn:Hsel.
  - destruct (selection_is_known st Hinv h0 Hsel) as (c & info & Hc & Hl).
    rewrite Hc, Hl. cbn [objects areaLayer].
    pose proof (original_is_plain st Hinv _ _ Hl) as Hplain.
    rewrite objects_setIcon. intros Hin.
    destruct (decide (h0 = h)) as [<- | Hne].
    + intros Ho. apply fmap_Some in Ho as (o' & _ & ->). exact Hplain.
    + intros Ho. destruct (highlighted (icon o)) eqn:Hh; [| reflexivity].
      pose proof (highlighted_is_selected st Hinv h o Hin Ho Hh). congruence.
  - cbn [objects areaLayer]. intros Hin Ho.
    destruct (highlighted (icon o)) eqn:Hh; [| reflexivity].
    pose proof (highlighted_is_selected st Hinv h o Hin Ho Hh). congruence.
Qed.

Lemma inv_deselect st :
  MarkerInvariant st -> MarkerInvariant (deselectCurrentMarker st).
Proof.
  intros Hinv. pose proof (deselect_layer_plain st Hinv) as Hplain.
  unfold deselectCurrentMarker in *.
  destruct (selectedMarker st) as [h0|] eqn:Hsel.
  - destruct (selection_is_known st Hinv h0 Hsel) as (c & info & Hc & Hl).
    rewrite Hc, Hl in *.
    apply (inv_forget (setIcon h0 (originalIcon info) st)); [| exact Hplain].
    apply inv_setIcon_plain; [exact Hinv |].
    exact (original_is_plain st Hinv _ _ Hl).
  - now apply (inv_forget st).
Qed.

Lemma inv_select zoom c st :
  MarkerInvariant st -> MarkerInvariant (selectMarker zoom c st).
Proof.
  intros Hinv. unfold selectMarker.
  pose proof (inv_deselect st Hinv) as Hd.
  pose proof (deselect_layer_plain st Hinv) as Hplain.
  set (st1 := deselectCurrentMarker st) in *.
  destruct (markerLookup st1 !! Cluster.id c) as [info|] eqn:Hl;
    [| exact Hd].
  destruct Hd as [H1 H2 H3 H4 H5 H6].
  split; cbn [setIcon objects areaLayer markerLookup selectedMarker
              selectedCluster].
  - intros h Hin. rewrite lookup_alter.
    destruct (decide (marker info = h)) as [<- |]; [| apply H1, Hin].
    apply fmap_is_Some, H1, Hin.
  - exact H2.
  - intros h o. rewrite lookup_alter.
    destruct (decide (marker info = h)) as [<- |]; [| apply H3].
    intros Ho. apply fmap_Some in Ho as (o' & Ho' & ->). cbn.
    exact (H3 _ _ Ho').
  - intros h o Hin. rewrite lookup_alter.
    destruct (decide (marker info = h)) as [<- | Hne]; [reflexivity |].
    intros Ho Hh. rewrite (Hplain h o Hin Ho) in Hh. discriminate.
  - intros h _. exists c, info. split; [reflexivity | exact Hl].
  - exact H6.
Qed.

Lemma inv_last b st :
  MarkerInvariant st ->
  MarkerInvariant
    {| objects := objects st; areaLayer := areaLayer st;
       markerLookup := markerLookup st;
       selectedMarker := selectedMarker st;
       selectedCluster := selectedCluster st;
       lastClusterState := b |}.
Proof. intros [H1 H2 H3 H4 H5 H6]. now split. Qed.

Section Engine.
Variable M : JS.JSMath.
Variable photos : list Photo.t.
Variable areas : list Area.t.

Lemma inv_addAreaMarkers zoom st :
  MarkerInvariant st ->
  MarkerInvariant (addAreaMarkers M photos areas zoom st).
Proof.
  unfold addAreaMarkers.
  generalize (MarkerManager.createClusters M photos zoom areas) as clusters.
  intros clusters. revert st.
  induction clusters as [|c l IH]; intros st Hinv; [exact Hinv |].
  cbn [fold_left]. apply IH. unfold addAreaMarker.
  destruct (0 <? _)%nat; [now apply inv_createAreaMarker | exact Hinv].
Qed.

Lemma inv_updateMarkerSize zoom st h :
  MarkerInvariant st ->
  MarkerInvariant (updateMarkerSize M photos zoom st h).
Proof.
  intros Hinv. unfold updateMarkerSize.
  destruct (objects st !! h) as [o|]; [| exact Hinv].
  destruct (Qeq_bool _ _); [exact Hinv |].
  now apply inv_setIcon_plain.
Qed.

Lemma inv_updateMarkerSizes zoom st :
  MarkerInvariant st ->
  MarkerInvariant (updateMarkerSizesSafely M photos zoom st).
Proof.
  unfold updateMarkerSizesSafely. generalize (areaLayer st) as l.
  intros l. revert st. induction l as [|h l IH]; intros st Hinv;
    [exact Hinv |].
  cbn [fold_left]. apply IH. now apply inv_updateMarkerSize.
Qed.

Lemma inv_handleZoomChange zoom st :
  MarkerInvariant st ->
  MarkerInvariant (handleZoomChange M photos areas zoom st).
Proof.
  intros Hinv. unfold handleZoomChange, refreshAreaMarkers.
  destruct (negb _).
  - apply inv_last, inv_addAreaMarkers, inv_clear, Hinv.
  - now apply inv_updateMarkerSizes.
Qed.

Lemma reachable_invariant st :
  MarkerReachable M photos areas st -> MarkerInvariant st.
Proof.
  induction 1.
  - apply inv_initial.
  - now apply inv_addAreaMarkers.
  - now apply inv_addAreaMarkers, inv_clear.
  - now apply inv_clear.
  - now apply inv_select.
  - now apply inv_deselect.
  - now apply inv_updateMarkerSizes.
  - now apply inv_handleZoomChange.
Qed.

End Engine.

(** ** The layer after a redraw *)

Lemma omap_ext_In {A B} (f g : A -> option B) (l : list A) :
  (forall x, In x l -> f x = g x) -> omap f l = omap g l.
Proof.
  induction l as [|x l IH]; intros H; [reflexivity |].
  cbn. rewrite (H x) by now left.
  rewrite IH by (intros y Hy; apply H; now right). reflexivity.
Qed.

Lemma fresh_not_on_layer st :
  heaped st -> ~ In (fresh (dom (objects st))) (areaLayer st).
Proof.
  intros Hheap Hin. apply Hheap in Hin.
  apply elem_of_dom in Hin. now apply is_fresh in Hin.
Qed.

Lemma layerClusters_create zoom c n st :
  heaped st ->
  heaped (createAreaMarker zoom c n st)
  /\ layerClusters (createAreaMarker zoom c n st)
     = layerClusters st
       ++ (if JS.truthy (Cluster.center_lat c)
              && JS.truthy (Cluster.center_lng c)
              && Cluster.is_active c
           then [c] else []).
Proof.
  intros Hheap. unfold createAreaMarker.
  destruct (JS.truthy (Cluster.center_lat c)),
    (JS.truthy (Cluster.center_lng c)), (Cluster.is_active c);
    cbn [negb orb andb]; try (now rewrite app_nil_r).
  pose proof (fresh_not_on_layer st Hheap) as Hfresh.
  set (h := fresh (dom (objects st))) in *. split.
  - intros h' Hin. cbn [objects areaLayer] in *.
    destruct (decide (h = h')) as [<- | Hne].
    + rewrite lookup_insert_eq. eauto.
    + rewrite lookup_insert_ne by exact Hne.
      apply in_app_or in Hin as [Hin | [E | []]]; [apply Hheap, Hin | easy].
  - unfold layerClusters. cbn [objects areaLayer].
    rewrite omap_app. cbn [omap list_omap]. rewrite lookup_insert_eq. cbn.
    f_equal. apply omap_ext_In. intros h' Hin.
    rewrite lookup_insert_ne; [reflexivity |]. intros <-. contradiction.
Qed.

Lemma layerClusters_setIcon h i st :
  layerClusters (setIcon h i st) = layerClusters st.
Proof.
  unfold layerClusters. cbn [setIcon areaLayer].
  apply omap_ext_In. intros h' _. rewrite objects_setIcon.
  destruct (decide (h = h')); [| reflexivity].
  now destruct (objects st !! h').
Qed.

Section Redraw.
Variable M : JS.JSMath.
Variable photos : list Photo.t.
Variable areas : list Area.t.

Lemma layerClusters_fold zoom clusters : forall st,
  heaped st ->
  heaped (fold_left (addAreaMarker M photos zoom) clusters st)
  /\ layerClusters (fold_left (addAreaMarker M photos zoom) clusters st)
     = layerClusters st ++ List.filter (rendered M photos) clusters.
Proof.
  induction clusters as [|c l IH]; intros st Hheap; cbn [fold_left].
  - split; [exact Hheap | now rewrite app_nil_r].
  - cbn [List.filter].
    assert (Hr : rendered M photos c
                 = (0 <? length (MarkerManager.photosInArea M photos c))%nat
                   && (JS.truthy (Cluster.center_lat c)
                       && JS.truthy (Cluster.center_lng c)
                       && Cluster.is_active c))
      by (unfold rendered; now rewrite !andb_assoc).
    rewrite Hr. unfold addAreaMarker at 2 4.
    destruct (0 <? length (MarkerManager.photosInArea M photos c))%nat eqn:Hn.
    + destruct (layerClusters_create zoom c
                  (length (MarkerManager.photosInArea M photos c)) st Hheap)
        as [Hheap' Hlayer].
      destruct (IH _ Hheap') as [Hh Hl]. split; [exact Hh |].
      rewrite Hl, Hlayer, <- app_assoc. f_equal. cbn [andb].
      now destruct (_ && _ && _).
    + destruct (IH _ Hheap) as [Hh Hl]. split; [exact Hh |].
      rewrite Hl. reflexivity.
Qed.

Lemma layerClusters_refresh zoom st :
  layerClusters (refreshAreaMarkers M photos areas zoom st)
  = List.map MarkerManager.areaData
      (MarkerManager.addAreaMarkers M photos zoom areas).
Proof.
  rewrite CoverageProofs.shown_rendered.
  unfold refreshAreaMarkers, addAreaMarkers.
  destruct (layerClusters_fold zoom
              (MarkerManager.createClusters M photos zoom areas)
              (clearAreaMarkers st)) as [_ ->]; [intros h [] |].
  reflexivity.
Qed.

(** The marker candidates depend on the zoom through the clustering
    mode only. *)
Lemma createClusters_mode z1 z2 :
  MarkerManager.shouldClusterMarkers z1
  = MarkerManager.shouldClusterMarkers z2 ->
  MarkerManager.createClusters M photos z1 areas
  = MarkerManager.createClusters M photos z2 areas.
Proof. intros E. unfold MarkerManager.createClusters. now rewrite E. Qed.

Lemma layerClusters_updateSizes zoom st :
  layerClusters (updateMarkerSizesSafely M photos zoom st) = layerClusters st.
Proof.
  unfold updateMarkerSizesSafely. generalize (areaLayer st) as l.
  intros l. revert st. induction l as [|h l IH]; intros st; [reflexivity |].
  cbn [fold_left]. rewrite IH. unfold updateMarkerSize.
  destruct (objects st !! h); [| reflexivity].
  destruct (Qeq_bool _ _); [reflexivity | apply layerClusters_setIcon].
Qed.

(** ** Icon sizes *)

Lemma sized_create zoom c n st :
  heaped st ->
  (forall h, In h (areaLayer st) -> sizedFor zoom st h) ->
  forall h, In h (areaLayer (createAreaMarker zoom c n st)) ->
            sizedFor zoom (createAreaMarker zoom c n st) h.
Proof.
  intros Hheap Hsized. unfold createAreaMarker.
  destruct (_ || _ || _); [exact Hsized |].
  pose proof (fresh_not_on_layer st Hheap) as Hfresh.
  set (h0 := fresh (dom (objects st))) in *.
  intros h Hin. cbn [areaLayer] in Hin. unfold sizedFor. cbn [objects].
  apply in_app_or in Hin as [Hin | [<- | []]].
  - destruct (Hsized h Hin) as (o & Ho & Hs). exists o. split; [| exact Hs].
    rewrite lookup_insert_ne; [exact Ho |]. intros <-. contradiction.
  - eexists. rewrite lookup_insert_eq. split; [reflexivity |]. cbn. reflexivity.
Qed.

Lemma sized_fold zoom clusters : forall st,
  heaped st ->
  (forall h, In h (areaLayer st) -> sizedFor zoom st h) ->
  forall h,
    In h (areaLayer (fold_left (addAreaMarker M photos zoom) clusters st)) ->
    sizedFor zoom (fold_left (addAreaMarker M photos zoom) clusters st) h.
Proof.
  induction clusters as [|c l IH]; intros st Hheap Hsized; [exact Hsized |].
  cbn [fold_left]. unfold addAreaMarker at 2 4.
  destruct (0 <? _)%nat; [| now apply IH].
  apply IH.
  - now apply layerClusters_create.
  - now apply sized_create.
Qed.

Lemma sized_updateMarkerSize zoom st h h' :
  MarkerInvariant st ->
  (h' = h /\ is_Some (objects st !! h)) \/ sizedFor zoom st h' ->
  sizedFor zoom (updateMarkerSize M photos zoom st h) h'.
Proof.
  intros Hinv Hcase. unfold updateMarkerSize.
  destruct (objects st !! h) as [o|] eqn:Ho.
  - pose proof (cluster_data_shape st Hinv h o Ho) as Hshape.
    assert (Hkind : match clusterData o with
                    | Some c => Cluster.isCluster c
                    | None => false
                    end = Cluster.isCluster (areaData o)).
    { rewrite Hshape.
      now destruct (Cluster.isCluster (areaData o)) eqn:Hk; cbn; rewrite ?Hk. }
    rewrite Hkind.
    destruct (Qeq_bool _ _) eqn:Hsame.
    + destruct Hcase as [[-> _] | Hs]; [| exact Hs].
      exists o. split; [exact Ho |]. now apply Qeq_bool_iff.
    + unfold sizedFor. rewrite objects_setIcon.
      destruct (decide (h = h')) as [<- | Hne].
      * rewrite Ho. eexists. split; [reflexivity |]. cbn. reflexivity.
      * destruct Hcase as [[-> _] | Hs]; [contradiction | exact Hs].
  - destruct Hcase as [[-> [o Ho']] | Hs]; [congruence | exact Hs].
Qed.

Lemma heap_updateMarkerSize zoom st h h' :
  is_Some (objects st !! h') ->
  is_Some (objects (updateMarkerSize M photos zoom st h) !! h').
Proof.
  intros Hsome. unfold updateMarkerSize.
  destruct (objects st !! h) as [o|]; [| exact Hsome].
  destruct (Qeq_bool _ _); [exact Hsome |].
  rewrite objects_setIcon. destruct (decide (h = h')); [| exact Hsome].
  destruct Hsome as [o' ->]. now eexists.
Qed.

Lemma sized_updateSizes zoom l : forall st,
  MarkerInvariant st ->
  forall h,
    (In h l /\ is_Some (objects st !! h)) \/ sizedFor zoom st h ->
    sizedFor zoom (fold_left (updateMarkerSize M photos zoom) l st) h.
Proof.
  induction l as [|h0 l IH]; intros st Hinv h Hcase.
  - destruct Hcase as [[[] _] | Hs]. exact Hs.
  - cbn [fold_left]. apply IH; [now apply inv_updateMarkerSize |].
    destruct Hcase as [[[-> | Hin] Hsome] | Hs].
    + right. apply sized_updateMarkerSize; [exact Hinv | now left].
    + left. split; [exact Hin | now apply heap_updateMarkerSize].
    + right. apply sized_updateMarkerSize; [exact Hinv | now right].
Qed.

Lemma areaLayer_updateSizes zoom l : forall st,
  areaLayer (fold_left (updateMarkerSize M photos zoom) l st) = areaLayer st.
Proof.
  induction l as [|h0 l IH]; intros st; [reflexivity |].
  cbn [fold_left]. rewrite IH. unfold updateMarkerSize.
  destruct (objects st !! h0); [| reflexivity].
  now destruct (Qeq_bool _ _).
Qed.

Lemma last_updateSizes zoom l : forall st,
  lastClusterState (fold_left (updateMarkerSize M photos zoom) l st)
  = lastClusterState st.
Proof.
  induction l as [|h0 l IH]; intros st; [reflexivity |].
  cbn [fold_left]. rewrite IH. unfold updateMarkerSize.
  destruct (objects st !! h0); [| reflexivity].
  now destruct (Qeq_bool _ _).
Qed.

Lemma sized_handleZoomChange zoom st :
  MarkerInvariant st ->
  lastClusterState (handleZoomChange M photos areas zoom st)
  = Some (MarkerManager.shouldClusterMarkers zoom)
  /\ Forall (sizedFor zoom (handleZoomChange M photos areas zoom st))
       (areaLayer (handleZoomChange M photos areas zoom st)).
Proof.
  intros Hinv. unfold handleZoomChange.
  destruct (bool_decide _) eqn:Hd; cbn [negb].
  - apply bool_decide_eq_true_1 in Hd. split.
    + unfold updateMarkerSizesSafely. now rewrite last_updateSizes.
    + apply List.Forall_forall. intros h Hin.
      unfold updateMarkerSizesSafely in *.
      rewrite areaLayer_updateSizes in Hin.
      apply sized_updateSizes; [exact Hinv |]. left. split; [exact Hin |].
      now apply (layer_in_heap st Hinv).
  - split; [reflexivity |]. cbn [areaLayer].
    apply List.Forall_forall. intros h Hin.
    assert (Hs : sizedFor zoom (refreshAreaMarkers M photos areas zoom st) h).
    { unfold refreshAreaMarkers, addAreaMarkers in *.
      apply sized_fold; [intros ? [] | intros ? [] | exact Hin]. }
    exact Hs.
Qed.

Lemma sync_handleZoomChange zoom st :
  inSync M photos areas st ->
  layerClusters (handleZoomChange M photos areas zoom st)
  = List.map MarkerManager.areaData
      (MarkerManager.addAreaMarkers M photos zoom areas).
Proof.
  intros Hsync. unfold handleZoomChange.
  destruct (bool_decide _) eqn:Hd; cbn [negb].
  - apply bool_decide_eq_true_1 in Hd.
    rewrite layerClusters_updateSizes. now apply Hsync.
  - exact (layerClusters_refresh zoom st).
Qed.

Lemma sync_keeps zoom st :
  inSync M photos areas st ->
  inSync M photos areas (handleZoomChange M photos areas zoom st).
Proof.
  intros Hsync zoom' Hlast.
  assert (Hinv : lastClusterState (handleZoomChange M photos areas zoom st)
                 = Some (MarkerManager.shouldClusterMarkers zoom)).
  { unfold handleZoomChange. destruct (bool_decide _) eqn:Hd; cbn [negb].
    - apply bool_decide_eq_true_1 in Hd. unfold updateMarkerSizesSafely.
      now rewrite last_updateSizes.
    - reflexivity. }
  rewrite Hinv in Hlast. injection Hlast as Hmode.
  rewrite (sync_handleZoomChange zoom st Hsync).
  rewrite !CoverageProofs.shown_rendered.
  now rewrite (createClusters_mode zoom zoom').
Qed.

End Redraw.

(** ** Selection *)


(** ** The text in the circle *)

Lemma short_counts :
  forallb (fun n => String.eqb (String.substring 0 3 (displayCount n))
                               (toString n))
          (seq 0 1000) = true.
Proof. vm_compute. reflexivity. Qed.

Lemma label_text n :
  String.substring 0 3 (displayCount n)
  = if (999 <? n)%nat then "999"%string else toString n.
Proof.
  destruct (999 <? n)%nat eqn:E.
  - unfold displayCount. now rewrite E.
  - apply String.eqb_eq.
    apply (proj1 (forallb_forall _ _) short_counts n).
    apply in_seq. apply Nat.ltb_ge in E. lia.
Qed.

End MarkerStateProofs.

(** X5 (MarkerManager.selectMarker, deselectCurrentMarker,
    updateMarkerSizesSafely, handleZoomChange, clearAreaMarkers,
    addAreaMarkers): in every state the marker manager can reach from the
    one its constructor builds, a marker of the layer that carries the
    highlighted icon is the selected marker; so at most one marker is
    highlighted at a time. *)
Theorem X5_only_the_selected_marker_is_highlighted
    (M : JS.JSMath) (photos : list Photo.t) (areas : list Area.t)
    (st : MarkerState.t) :
  MarkerReachable M photos areas st ->
  forall h o,
    In h (MarkerState.areaLayer st) ->
    MarkerState.objects st !! h = Some o ->
    MarkerState.highlighted (MarkerState.icon o) = true ->
    MarkerState.selectedMarker st = Some h.
Proof.
  intros Hreach h o Hin Ho Hhi.
  pose proof (MarkerStateProofs.reachable_invariant M photos areas st Hreach)
    as Hinv.
  exact (highlighted_is_selected st Hinv h o Hin Ho Hhi).
Qed.

Lemma X5_only_the_selected_marker_is_highlighted_witness :
  exists h o,
    In h (MarkerState.areaLayer
            (MarkerState.selectMarker 14 SampleState.c1 SampleState.shown))
    /\ MarkerState.objects
         (MarkerState.selectMarker 14 SampleState.c1 SampleState.shown) !! h
       = Some o
    /\ MarkerState.highlighted (MarkerState.icon o) = true
    /\ MarkerState.selectedMarker
         (MarkerState.selectMarker 14 SampleState.c1 SampleState.shown)
       = Some h.
Proof.
  assert (Hshape :
    exists h o,
      In h (MarkerState.areaLayer
              (MarkerState.selectMarker 14 SampleState.c1 SampleState.shown))
      /\ MarkerState.objects
           (MarkerState.selectMarker 14 SampleState.c1 SampleState.shown) !! h
         = Some o
      /\ MarkerState.highlighted (MarkerState.icon o) = true).
  { eexists _, _. vm_compute. split; [left; reflexivity |].
    split; reflexivity. }
  destruct Hshape as (h & o & Hin & Ho & Hhi).
  exists h, o. split; [exact Hin |]. split; [exact Ho |].
  split; [exact Hhi |].
  refine (X5_only_the_selected_marker_is_highlighted JS.refMath
            [Sample.p1] [Sample.a1] _ _ h o Hin Ho Hhi).
  apply reach_selectMarker. apply reach_addAreaMarkers. apply reach_initial.
Defined.



(** X7 (MarkerManager.handleZoomChange, updateMarkerSizesSafely,
    refreshAreaMarkers): after a zoom change, whichever branch it takes,
    [lastClusterState] holds the clustering mode of the new zoom and
    every marker of the layer has an icon of the size
    [getResponsiveMarkerSize] gives its kind at the new zoom. *)
Theorem X7_zoom_change_resizes_every_marker
    (M : JS.JSMath) (photos : list Photo.t) (areas : list Area.t)
    (zoom : Q) (st : MarkerState.t) :
  MarkerReachable M photos areas st ->
  MarkerState.lastClusterState
    (MarkerState.handleZoomChange M photos areas zoom st)
  = Some (MarkerManager.shouldClusterMarkers zoom)
  /\ Forall
       (sizedFor zoom (MarkerState.handleZoomChange M photos areas zoom st))
       (MarkerState.areaLayer
          (MarkerState.handleZoomChange M photos areas zoom st)).
Proof.
  intros Hreach. apply MarkerStateProofs.sized_handleZoomChange.
  exact (MarkerStateProofs.reachable_invariant M photos areas st Hreach).
Qed.

Lemma X7_zoom_change_resizes_every_marker_witness :
  MarkerState.lastClusterState
    (MarkerState.handleZoomChange JS.refMath [Sample.p1] [Sample.a1] 16
       SampleState.shown)
  = Some false.
Proof.
  refine (proj1 (X7_zoom_change_resizes_every_marker JS.refMath [Sample.p1]
                   [Sample.a1] 16 SampleState.shown _)).
  apply reach_addAreaMarkers. apply reach_initial.
Defined.

(** X8 (MarkerManager.refreshAreaMarkers, clearAreaMarkers,
    addAreaMarkers, createAreaMarker): whatever the layer held before, a
    redraw leaves on it, in order, exactly the markers of the marker
    candidates that have photos and pass the guard of
    [createAreaMarker]. *)
Theorem X8_redraw_shows_the_current_markers
    (M : JS.JSMath) (photos : list Photo.t) (areas : list Area.t)
    (zoom : Q) (st : MarkerState.t) :
  layerClusters (MarkerState.refreshAreaMarkers M photos areas zoom st)
  = List.map MarkerManager.areaData
      (MarkerManager.addAreaMarkers M photos zoom areas).
Proof. apply MarkerStateProofs.layerClusters_refresh. Qed.

(** X9 (MarkerManager.handleZoomChange): if the layer shows the markers
    of the clustering mode recorded in [lastClusterState] (as it does
    while nothing is recorded yet), then after a zoom change it shows the
    markers of the new zoom, and is again in step with the recorded
    mode: markers are rebuilt exactly when the mode changes. *)
Theorem X9_zoom_change_keeps_layer_in_step
    (M : JS.JSMath) (photos : list Photo.t) (areas : list Area.t)
    (zoom : Q) (st : MarkerState.t) :
  inSync M photos areas st ->
  layerClusters (MarkerState.handleZoomChange M photos areas zoom st)
  = List.map MarkerManager.areaData
      (MarkerManager.addAreaMarkers M photos zoom areas)
  /\ inSync M photos areas
       (MarkerState.handleZoomChange M photos areas zoom st).
Proof.
  intros Hsync. split.
  - now apply MarkerStateProofs.sync_handleZoomChange.
  - now apply MarkerStateProofs.sync_keeps.
Qed.

Lemma X9_zoom_change_keeps_layer_in_step_witness :
  inSync JS.refMath [Sample.p1] [Sample.a1]
    (MarkerState.handleZoomChange JS.refMath [Sample.p1] [Sample.a1] 11
       (MarkerState.handleZoomChange JS.refMath [Sample.p1] [Sample.a1] 16
          SampleState.shown)).
Proof.
  refine (proj2 (X9_zoom_change_keeps_layer_in_step JS.refMath [Sample.p1]
                   [Sample.a1] 11 _ _)).
  refine (proj2 (X9_zoom_change_keeps_layer_in_step JS.refMath [Sample.p1]
                   [Sample.a1] 16 SampleState.shown _)).
  intros zoom Hlast. vm_compute in Hlast. discriminate Hlast.
Defined.

(** X10 (MarkerManager.createAreaMarker): the text in the circle of a new
    marker is the photo count in decimal up to 999 and the three
    characters 999, without the plus sign, above: the plus of
    ['999+'] is cut by [substring(0, 3)]. *)
Theorem X10_marker_label
    (zoom : Q) (c : Cluster.t) (n : nat) (st : MarkerState.t) :
  JS.truthy (Cluster.center_lat c) = true ->
  JS.truthy (Cluster.center_lng c) = true ->
  Cluster.is_active c = true ->
  exists h o,
    MarkerState.areaLayer (MarkerState.createAreaMarker zoom c n st)
    = MarkerState.areaLayer st ++ [h]
    /\ MarkerState.objects (MarkerState.createAreaMarker zoom c n st) !! h
       = Some o
    /\ MarkerState.label (MarkerState.icon o)
       = (if (999 <? n)%nat then "999"%string
          else MarkerState.toString n).
Proof.
  intros Hlat Hlng Hact. unfold MarkerState.createAreaMarker.
  rewrite Hlat, Hlng, Hact. cbn [negb orb].
  eexists _, _. cbn [MarkerState.areaLayer MarkerState.objects].
  split; [reflexivity |]. rewrite lookup_insert_eq.
  split; [reflexivity |]. cbn. apply MarkerStateProofs.label_text.
Qed.

Lemma X10_marker_label_witness :
  exists h o,
    MarkerState.areaLayer
      (MarkerState.createAreaMarker 14 SampleState.c1 1000
         MarkerState.initial) = [] ++ [h]
    /\ MarkerState.objects
         (MarkerState.createAreaMarker 14 SampleState.c1 1000
            MarkerState.initial) !! h = Some o
    /\ MarkerState.label (MarkerState.icon o) = "999"%string.
Proof.
  exact (X10_marker_label 14 SampleState.c1 1000 MarkerState.initial
           eq_refl eq_refl eq_refl).
Defined.

(** * The legacy clustering: what a marker candidate is made of *)

Module LegacyGroupProofs.
Import PhotoMapApp.

Section Engine.
Variable M : JS.JSMath.
Variable photos : list Photo.t.
Variable areas : list Area.t.

Lemma in_processedAreas (l : list Area.t) (P : gset string) (k : string) :
  k ∈ fold_left (fun s a => {[Area.id a]} ∪ s) l P
  <-> k ∈ P \/ In k (List.map Area.id l).
Proof.
  revert P. induction l as [|x l IH]; intros P; simpl.
  - tauto.
  - rewrite IH. rewrite elem_of_union, elem_of_singleton. intuition.
Qed.

Lemma members_singleArea a ps : Cluster.members (singleArea a ps) = [a].
Proof. now destruct a. Qed.

Lemma visit_inv st area :
  In area areas -> legacyLoopInvariant areas st ->
  legacyLoopInvariant areas (visit M photos areas st area).
Proof.
  intros Harea. destruct st as [processedAreas clusters].
  intros (Hgood & Hproc & Hnd). cbn [fst snd] in *. unfold visit.
  destruct (bool_decide (Area.id area ∈ processedAreas)) eqn:Hseen;
    [repeat split; assumption |].
  destruct (Area.is_active area) eqn:Hact; [| repeat split; assumption].
  cbn [negb orb].
  apply bool_decide_eq_false_1 in Hseen.
  match goal with
  | |- context [List.filter ?f areas] =>
      set (keep := f); set (nearbyAreas := List.filter keep areas)
  end.
  assert (Hnear : forall o, In o nearbyAreas ->
            In o areas /\ Area.id o <> Area.id area
            /\ (Area.id o ∉ processedAreas) /\ Area.is_active o = true).
  { intros o Ho. apply filter_In in Ho as [Hin Ho]. unfold keep in Ho.
    destruct (String.eqb (Area.id o) (Area.id area)) eqn:E1;
      [discriminate |].
    destruct (bool_decide (Area.id o ∈ processedAreas)) eqn:E2;
      [discriminate |].
    destruct (Area.is_active o); [| discriminate].
    apply String.eqb_neq in E1. apply bool_decide_eq_false_1 in E2.
    easy. }
  assert (Hfresh : forall x, In x (flat_map Cluster.members clusters) ->
            In (Area.id x) (List.map Area.id (area :: nearbyAreas)) -> False).
  { intros x Hx Hin. apply Hproc in Hx.
    cbn [List.map] in Hin. destruct Hin as [E | Hin].
    - apply Hseen. now rewrite E.
    - apply in_map_iff in Hin as (o & E & Ho).
      apply Hnear in Ho as (_ & _ & Ho & _). apply Ho. now rewrite E. }
  destruct (0 <? length nearbyAreas)%nat eqn:Hsome.
  - match goal with
    | |- context [(0 <? length ?l)%nat] =>
        destruct l as [|p ps] eqn:Ep
    end.
    + change (0 <? length (@nil Photo.t))%nat with false. cbv iota.
      unfold legacyLoopInvariant. cbn [fst snd]. split; [exact Hgood |].
      split; [| exact Hnd].
      intros a Ha. apply in_processedAreas. left. now apply Hproc.
    + change (0 <? length (p :: ps))%nat with true. cbv iota.
      unfold legacyLoopInvariant. cbn [fst snd]. rewrite flat_map_app.
      cbn [flat_map].
      rewrite app_nil_r.
      change (Cluster.members (makeCluster area (area :: nearbyAreas)
                                 (p :: ps)))
        with (area :: nearbyAreas).
      split; [| split].
      * apply Forall_app. split; [exact Hgood |].
        constructor; [| constructor]. split; [reflexivity |].
        split; [now exists p, ps |].
        change (Cluster.members (makeCluster area (area :: nearbyAreas)
                                   (p :: ps)))
          with (area :: nearbyAreas).
        constructor; [easy |]. apply List.Forall_forall. intros o Ho.
        apply Hnear in Ho. easy.
      * intros a Ha. apply in_processedAreas.
        apply in_app_or in Ha as [Ha | Ha]; [left; now apply Hproc |].
        right. now apply in_map.
      * intros Hids. rewrite map_app.
        apply ListFacts.NoDup_app_disjoint; [exact (Hnd Hids) | |].
        -- cbn [List.map]. constructor.
           ++ intros Hin. apply in_map_iff in Hin as (o & E & Ho).
              apply Hnear in Ho as (_ & Ho & _). now apply Ho.
           ++ now apply ListFacts.NoDup_map_filter.
        -- intros k Hk1 Hk2. apply in_map_iff in Hk1 as (x & <- & Hx).
           exact (Hfresh x Hx Hk2).
  - destruct (getPhotosInArea M photos area) as [|p ps] eqn:Ep.
    + change (0 <? length (@nil Photo.t))%nat with false. cbv iota.
      repeat split; assumption.
    + change (0 <? length (p :: ps))%nat with true. cbv iota.
      unfold legacyLoopInvariant. cbn [fst snd]. rewrite flat_map_app.
      cbn [flat_map].
      rewrite app_nil_r, members_singleArea.
      split; [| split].
      * apply Forall_app. split; [exact Hgood |].
        constructor; [| constructor]. split; [exact Hact |].
        split; [now exists p, ps |]. rewrite members_singleArea.
        constructor; [easy | constructor].
      * intros a Ha. rewrite elem_of_union, elem_of_singleton.
        apply in_app_or in Ha as [Ha | [<- | []]];
          [right; now apply Hproc | now left].
      * intros Hids. rewrite map_app.
        apply ListFacts.NoDup_app_disjoint; [exact (Hnd Hids) | |].
        -- cbn [List.map]. constructor; [intros [] | constructor].
        -- intros k Hk1 Hk2. apply in_map_iff in Hk1 as (x & <- & Hx).
           apply (Hfresh x Hx). cbn [List.map] in *.
           destruct Hk2 as [E | []]. now left.
Qed.

Lemma fold_inv todo : forall st,
  incl todo areas ->
  legacyLoopInvariant areas st ->
  legacyLoopInvariant areas (fold_left (visit M photos areas) todo st).
Proof.
  induction todo as [|a l IH]; intros st Hincl Hst; [exact Hst |].
  cbn [fold_left]. apply IH.
  - intros x Hx. apply Hincl. now right.
  - apply visit_inv; [| exact Hst]. apply Hincl. now left.
Qed.

Lemma createPhotoClusters_inv :
  legacyLoopInvariant areas (fold_left (visit M photos areas) areas (∅, [])).
Proof.
  apply fold_inv; [apply incl_refl |].
  split; [constructor |]. split; [intros a [] | intros _; constructor].
Qed.

End Engine.
End LegacyGroupProofs.

(** X11 (PhotoMapApp.createPhotoClusters): every marker candidate of the
    legacy clustering is active, carries at least one photo, and stands
    only for active areas of the input; an inactive area is in no
    candidate. *)
Theorem X11_legacy_candidates_have_photos
    (M : JS.JSMath) (photos : list Photo.t) (areas : list Area.t) :
  Forall (legacyCandidate areas)
    (PhotoMapApp.createPhotoClusters M photos areas).
Proof.
  exact (proj1 (LegacyGroupProofs.createPhotoClusters_inv M photos areas)).
Qed.

(** X12 (PhotoMapApp.createPhotoClusters): when the areas have distinct
    ids, no area is a member of two marker candidates, or twice of
    one. *)
Theorem X12_legacy_candidates_are_disjoint
    (M : JS.JSMath) (photos : list Photo.t) (areas : list Area.t) :
  List.NoDup (List.map Area.id areas) ->
  List.NoDup
    (List.map Area.id
       (flat_map Cluster.members
          (PhotoMapApp.createPhotoClusters M photos areas))).
Proof.
  exact (proj2 (proj2
           (LegacyGroupProofs.createPhotoClusters_inv M photos areas))).
Qed.

Lemma X12_legacy_candidates_are_disjoint_witness :
  List.NoDup
    (List.map Area.id
       (flat_map Cluster.members
          (PhotoMapApp.createPhotoClusters JS.refMath [Sample.p1]
             [Sample.a1; Sample.a2]))).
Proof.
  apply (X12_legacy_candidates_are_disjoint JS.refMath [Sample.p1]
           [Sample.a1; Sample.a2]).
  repeat constructor; cbn; intuition discriminate.
Defined.

(** * The event emitter *)

Module EventEmitterProofs.
Import EventEmitter.

Lemma insert_head y l :
  Forall (fun z => (priority z <= priority y)%Z) l -> insert y l = y :: l.
Proof.
  intros H. destruct l as [|z l]; [reflexivity |]. cbn [insert].
  apply List.Forall_inv in H.
  destruct (priority y <? priority z)%Z eqn:E; [| reflexivity].
  apply Z.ltb_lt in E. lia.
Qed.

Lemma place_low x l :
  Forall (fun z => (priority z < priority x)%Z) l -> place x l = x :: l.
Proof.
  intros H. destruct l as [|z l]; [reflexivity |]. cbn [place].
  apply List.Forall_inv in H.
  destruct (priority z <? priority x)%Z eqn:E; [reflexivity |].
  apply Z.ltb_ge in E. lia.
Qed.

Lemma place_bound x y l :
  (priority x <= priority y)%Z ->
  Forall (fun z => (priority z <= priority y)%Z) l ->
  Forall (fun z => (priority z <= priority y)%Z) (place x l).
Proof.
  intros Hx. induction l as [|z l IH]; intros H; cbn [place].
  - now constructor.
  - destruct (priority z <? priority x)%Z.
    + now constructor.
    + constructor; [now apply List.Forall_inv in H |].
      apply IH. now apply List.Forall_inv_tail in H.
Qed.

(** Sorting after [push] puts the new listener behind those of its
    priority or a higher one. *)
Lemma sort_push x l : descending l -> sort (l ++ [x]) = place x l.
Proof.
  unfold sort. rewrite fold_right_app. cbn [fold_right insert].
  induction 1 as [|y l Hl IH Hy]; [reflexivity |].
  cbn [fold_right place]. rewrite IH.
  destruct (priority y <? priority x)%Z eqn:E.
  - apply Z.ltb_lt in E.
    assert (Hlow : Forall (fun z => (priority z < priority x)%Z) l).
    { eapply List.Forall_impl; [| exact Hy]. cbv beta. intros z Hz. lia. }
    rewrite (place_low x l Hlow). cbn [insert].
    assert (E' : (priority y <? priority x)%Z = true) by now apply Z.ltb_lt.
    rewrite E'. now rewrite insert_head.
  - apply Z.ltb_ge in E. apply insert_head. now apply place_bound.
Qed.

Lemma place_split x l :
  descending l ->
  exists front back,
    l = front ++ back
    /\ place x l = front ++ x :: back
    /\ Forall (fun z => (priority x <= priority z)%Z) front
    /\ Forall (fun z => (priority z < priority x)%Z) back.
Proof.
  induction 1 as [|y l Hl IH Hy].
  - exists [], []. repeat split; constructor.
  - cbn [place]. destruct (priority y <? priority x)%Z eqn:E.
    + apply Z.ltb_lt in E. exists [], (y :: l).
      repeat split; [constructor |]. constructor; [exact E |].
      eapply List.Forall_impl; [| exact Hy]. cbv beta. intros z Hz. lia.
    + apply Z.ltb_ge in E.
      destruct IH as (front & back & -> & -> & Hf & Hb).
      exists (y :: front), back. repeat split; [| exact Hb].
      now constructor.
Qed.

Lemma place_descending x l : descending l -> descending (place x l).
Proof.
  induction 1 as [|y l Hl IH Hy]; cbn [place].
  - repeat constructor.
  - destruct (priority y <? priority x)%Z eqn:E.
    + apply Z.ltb_lt in E. constructor; [now constructor |].
      constructor; [lia |].
      eapply List.Forall_impl; [| exact Hy]. cbv beta. intros z Hz. lia.
    + apply Z.ltb_ge in E. constructor; [exact IH |].
      now apply place_bound.
Qed.

Lemma remove_first_sub p l r :
  remove_first p l = Some r -> forall x, In x r -> In x l.
Proof.
  revert r. induction l as [|y l IH]; intros r H; [discriminate |].
  cbn [remove_first] in H. destruct (p y).
  - injection H as <-. intros x Hx. now right.
  - destruct (remove_first p l) as [r'|]; [| discriminate].
    injection H as <-. intros x [<- | Hx]; [now left |].
    right. now apply (IH r').
Qed.

Lemma remove_first_descending p l r :
  descending l -> remove_first p l = Some r -> descending r.
Proof.
  intros Hd. revert r. induction Hd as [|y l Hl IH Hy]; intros r H;
    [discriminate |].
  cbn [remove_first] in H. destruct (p y).
  - now injection H as <-.
  - destruct (remove_first p l) as [r'|] eqn:E; [| discriminate].
    injection H as <-. constructor; [now apply IH |].
    apply List.Forall_forall. intros x Hx.
    rewrite List.Forall_forall in Hy. apply Hy.
    now apply (remove_first_sub p l r').
Qed.

Lemma filter_descending p l : descending l -> descending (List.filter p l).
Proof.
  induction 1 as [|y l Hl IH Hy]; [constructor |].
  cbn [List.filter]. destruct (p y); [| exact IH].
  constructor; [exact IH |].
  apply List.Forall_forall. intros x Hx. apply filter_In in Hx as [Hx _].
  rewrite List.Forall_forall in Hy. now apply Hy.
Qed.

(** ** What every table keeps *)

Lemma tidy_insert eventName l events :
  tidy events ->
  descending l ->
  Forall (fun x => exists stamp, id x = generateId stamp) l ->
  tidy (<[eventName := l]> events).
Proof.
  intros Ht Hd Hi name l' Hl'.
  destruct (decide (eventName = name)) as [<- | Hne].
  - rewrite lookup_insert_eq in Hl'. injection Hl' as <-. now split.
  - rewrite lookup_insert_ne in Hl' by exact Hne. now apply (Ht name).
Qed.

Lemma tidy_on eventName fn options stamp events :
  tidy events -> tidy (fst (on eventName fn options stamp events)).
Proof.
  intros Ht. unfold on. cbn [fst].
  assert (Hold : descending (default [] (events !! eventName))
                 /\ Forall (fun x => exists stamp, id x = generateId stamp)
                      (default [] (events !! eventName))).
  { destruct (events !! eventName) as [l|] eqn:E; [now apply (Ht eventName) |].
    split; constructor. }
  destruct Hold as [Hd Hi]. rewrite (sort_push _ _ Hd).
  apply tidy_insert; [exact Ht | now apply place_descending |].
  destruct (place_split
              {| listener := fn; context := opt_context options;
                 priority := opt_priority options; once := opt_once options;
                 id := generateId stamp |} _ Hd)
    as (front & back & Hl & -> & _).
  rewrite Hl in Hi. apply Forall_app in Hi as [Hf Hb].
  apply Forall_app. split; [exact Hf |].
  constructor; [now exists stamp | exact Hb].
Qed.

Lemma tidy_off eventName target events :
  tidy events -> tidy (fst (off eventName target events)).
Proof.
  intros Ht. unfold off. destruct (no_target target); cbn [fst].
  - intros name l Hl. apply lookup_delete_Some in Hl as [_ Hl].
    now apply (Ht name).
  - destruct (events !! eventName) as [l|] eqn:E; [| exact Ht].
    destruct (remove_first (matches target) l) as [r|] eqn:Er; [| exact Ht].
    cbn [fst]. destruct (Ht eventName l E) as [Hd Hi].
    apply tidy_insert;
      [exact Ht | exact (remove_first_descending _ l r Hd Er) |].
    apply List.Forall_forall. intros x Hx.
    rewrite List.Forall_forall in Hi. apply Hi.
    exact (remove_first_sub _ l r Er x Hx).
Qed.

Lemma tidy_offAll ctx events :
  tidy events -> tidy (fst (offAll ctx events)).
Proof.
  intros Ht name l Hl. unfold offAll in Hl. cbn [fst] in Hl.
  rewrite lookup_fmap in Hl.
  destruct (events !! name) as [l0|] eqn:E; [| discriminate].
  cbn in Hl. injection Hl as <-. destruct (Ht name l0 E) as [Hd Hi].
  split; [now apply filter_descending |].
  apply List.Forall_forall. intros x Hx. apply filter_In in Hx as [Hx _].
  rewrite List.Forall_forall in Hi. now apply Hi.
Qed.

Section Emit.
Context {Data Value : Type}.
Variable call : nat -> option nat -> EventData Data -> Outcome Value.

Lemma notify_step eventData results listenersToRemove x :
  notify call eventData (results, listenersToRemove) x
  = (results ++ [answered call eventData x],
     listenersToRemove
     ++ (if spent call eventData x then [id x] else [])).
Proof.
  unfold notify, answered, spent.
  destruct (call (listener x) (context x) eventData).
  - destruct (once x); [reflexivity | now rewrite app_nil_r].
  - now rewrite app_nil_r.
Qed.

(** The loop of [emit] as a map and a filter. *)
Lemma notify_fold eventData l : forall results listenersToRemove,
  fold_left (notify call eventData) l (results, listenersToRemove)
  = (results ++ List.map (answered call eventData) l,
     listenersToRemove
     ++ List.map id (List.filter (spent call eventData) l)).
Proof.
  induction l as [|x l IH]; intros rs rm.
  - cbn. now rewrite !app_nil_r.
  - cbn [fold_left List.map List.filter]. rewrite notify_step, IH.
    rewrite <- !app_assoc. cbn [app].
    now destruct (spent call eventData x).
Qed.

Lemma tidy_off_ids eventName ids : forall events,
  tidy events ->
  tidy (fold_left
          (fun events ident => fst (off eventName (Some (inl ident)) events))
          ids events).
Proof.
  induction ids as [|i ids IH]; intros events Ht; [exact Ht |].
  cbn [fold_left]. apply IH. now apply tidy_off.
Qed.

Lemma tidy_emit eventName payload now events :
  tidy events -> tidy (fst (emit call eventName payload now events)).
Proof.
  intros Ht. unfold emit.
  destruct (events !! eventName) as [[|x l]|]; [exact Ht | | exact Ht].
  rewrite notify_fold. cbn [fst]. now apply tidy_off_ids.
Qed.

Lemma reachable_tidy events : EmitterReachable call events -> tidy events.
Proof.
  induction 1.
  - intros name l Hl. unfold initial in Hl. now rewrite lookup_empty in Hl.
  - now apply tidy_on.
  - now apply tidy_off.
  - now apply tidy_offAll.
  - now apply tidy_emit.
  - intros name l Hl. unfold clear in Hl. now rewrite lookup_empty in Hl.
Qed.

End Emit.

(** ** Taking listeners out by id *)

Lemma generateId_nonempty stamp : String.eqb (generateId stamp) "" = false.
Proof. reflexivity. Qed.

Lemma remove_by_id l x :
  List.NoDup (List.map id l) -> In x l ->
  remove_first (matches (Some (inl (id x)))) l
  = Some (List.filter (fun y => negb (String.eqb (id y) (id x))) l).
Proof.
  induction l as [|y l IH]; intros Hnd Hx; [destruct Hx |].
  cbn [List.map] in Hnd. apply List.NoDup_cons_iff in Hnd as [Hy Hnd].
  cbn [remove_first List.filter].
  change (matches (Some (inl (id x))) y) with (String.eqb (id y) (id x)).
  destruct (String.eqb (id y) (id x)) eqn:E; cbn [negb].
  - apply String.eqb_eq in E. f_equal. symmetry.
    apply ListFacts.filter_keep_all. intros z Hz.
    apply negb_true_iff. apply String.eqb_neq. intros Ez.
    apply Hy. rewrite E, <- Ez. now apply in_map.
  - destruct Hx as [-> | Hx]; [now rewrite String.eqb_refl in E |].
    now rewrite (IH Hnd Hx).
Qed.

Lemma off_ids eventName ids : forall events l,
  events !! eventName = Some l ->
  Forall (fun i => exists stamp, i = generateId stamp) ids ->
  fold_left
    (fun events ident => fst (off eventName (Some (inl ident)) events))
    ids events
  = <[eventName := drop_ids ids l]> events.
Proof.
  induction ids as [|i ids IH]; intros events l Hl Hids.
  - cbn. now rewrite insert_id.
  - cbn [fold_left drop_ids].
    apply List.Forall_cons_iff in Hids as [[stamp ->] Hids].
    unfold off at 2. cbn [no_target].
    rewrite generateId_nonempty, Hl.
    destruct (remove_first _ l) as [r|]; cbn [fst default from_option];
      unfold Datatypes.id.
    + rewrite (IH _ r); [| now rewrite lookup_insert_eq | exact Hids].
      now rewrite insert_insert_eq.
    + now apply IH.
Qed.

Lemma drop_ids_filter ids : forall l,
  List.NoDup ids -> List.NoDup (List.map id l) ->
  incl ids (List.map id l) ->
  drop_ids ids l
  = List.filter (fun y => negb (existsb (String.eqb (id y)) ids)) l.
Proof.
  induction ids as [|i ids IH]; intros l Hids Hl Hincl.
  - cbn. symmetry. now apply ListFacts.filter_keep_all.
  - apply List.NoDup_cons_iff in Hids as [Hi Hids].
    assert (Hx : In i (List.map id l)) by (apply Hincl; now left).
    apply in_map_iff in Hx as (x & <- & Hx).
    unfold drop_ids. cbn [fold_left].
    rewrite (remove_by_id l x Hl Hx). cbn [default from_option].
    unfold Datatypes.id.
    fold (drop_ids ids
            (List.filter (fun y => negb (String.eqb (id y) (id x))) l)).
    rewrite IH; [| exact Hids | now apply ListFacts.NoDup_map_filter |].
    + rewrite ListFacts.filter_filter. apply filter_ext. intros y.
      cbn [existsb]. now rewrite negb_orb.
    + intros j Hj.
      assert (Hjl : In j (List.map id l)) by (apply Hincl; now right).
      apply in_map_iff in Hjl as (z & <- & Hz). apply in_map.
      apply filter_In. split; [exact Hz |].
      apply negb_true_iff, String.eqb_neq. intros E. apply Hi.
      now rewrite <- E.
Qed.

Lemma drop_spent (q : ListenerObj -> bool) l :
  List.NoDup (List.map id l) ->
  drop_ids (List.map id (List.filter q l)) l
  = List.filter (fun y => negb (q y)) l.
Proof.
  intros Hl. rewrite drop_ids_filter;
    [| now apply ListFacts.NoDup_map_filter | exact Hl |].
  - apply filter_ext_in. intros y Hy. f_equal.
    destruct (q y) eqn:Hq.
    + apply existsb_exists. exists (id y). split; [| apply String.eqb_refl].
      apply in_map. now apply filter_In.
    + destruct (existsb _ _) eqn:E; [| reflexivity].
      apply existsb_exists in E as (j & Hj & E).
      apply String.eqb_eq in E. apply in_map_iff in Hj as (z & Ez & Hz).
      apply filter_In in Hz as [Hz Hqz].
      assert (z = y) as ->
        by (apply (ListFacts.NoDup_map_inj id l); congruence).
      congruence.
  - intros j Hj. apply in_map_iff in Hj as (z & <- & Hz).
    apply in_map. now apply filter_In in Hz as [Hz _].
Qed.

Lemma remove_first_app p front x back :
  Forall (fun y => p y = false) front -> p x = true ->
  remove_first p (front ++ x :: back) = Some (front ++ back).
Proof.
  intros Hf Hx. induction Hf as [|y front Hy _ IH]; cbn [app remove_first].
  - now rewrite Hx.
  - now rewrite Hy, IH.
Qed.

Lemma offAll_count (events : gmap string (list ListenerObj)) :
  map_fold
    (fun (_ : string) (listeners : list ListenerObj) removedCount =>
       let initialLength := length listeners in
       (removedCount + (initialLength - length listeners))%nat)
    0%nat events = 0%nat.
Proof.
  apply (map_fold_weak_ind (fun n _ => n = 0%nat)); [reflexivity |].
  intros name l m n _ ->. cbv zeta. lia.
Qed.

End EventEmitterProofs.

(** X13 (EventEmitter.on, generateId): registering a listener puts it
    behind every listener of the event with the same or a higher
    priority and before every one with a lower priority, leaves the
    others in their order, and returns the new id. *)
Theorem X13_on_keeps_priority_order
    {Data Value : Type}
    (call : nat -> option nat -> EventEmitter.EventData Data
            -> EventEmitter.Outcome Value)
    (eventName : string) (fn : nat) (options : EventEmitter.Options)
    (stamp : string) (events : gmap string (list EventEmitter.ListenerObj)) :
  EmitterReachable call events ->
  exists front back,
    default [] (events !! eventName) = front ++ back
    /\ fst (EventEmitter.on eventName fn options stamp events) !! eventName
       = Some
           (front
            ++ {| EventEmitter.listener := fn;
                  EventEmitter.context := EventEmitter.opt_context options;
                  EventEmitter.priority := EventEmitter.opt_priority options;
                  EventEmitter.once := EventEmitter.opt_once options;
                  EventEmitter.id := EventEmitter.generateId stamp |}
               :: back)
    /\ Forall
         (fun x => (EventEmitter.opt_priority options
                    <= EventEmitter.priority x)%Z) front
    /\ Forall
         (fun x => (EventEmitter.priority x
                    < EventEmitter.opt_priority options)%Z) back
    /\ snd (EventEmitter.on eventName fn options stamp events)
       = EventEmitter.generateId stamp.
Proof.
  intros Hreach.
  pose proof (EventEmitterProofs.reachable_tidy call events Hreach) as Ht.
  assert (Hd : descending (default [] (events !! eventName))).
  { destruct (events !! eventName) as [l|] eqn:E;
      [now apply (Ht eventName) | constructor]. }
  destruct (EventEmitterProofs.place_split
              {| EventEmitter.listener := fn;
                 EventEmitter.context := EventEmitter.opt_context options;
                 EventEmitter.priority := EventEmitter.opt_priority options;
                 EventEmitter.once := EventEmitter.opt_once options;
                 EventEmitter.id := EventEmitter.generateId stamp |} _ Hd)
    as (front & back & Hl & Hp & Hf & Hb).
  exists front, back. split; [exact Hl |].
  unfold EventEmitter.on. cbn [fst snd]. rewrite lookup_insert_eq.
  rewrite (EventEmitterProofs.sort_push _ _ Hd), Hp.
  repeat split; assumption.
Qed.

Lemma X13_on_keeps_priority_order_witness :
  exists front back,
    default [] (SampleEmitter.events !! "e"%string) = front ++ back
    /\ fst (EventEmitter.on "e" 2
              {| EventEmitter.opt_context := None;
                 EventEmitter.opt_priority := 5;
                 EventEmitter.opt_once := false |}
              "c" SampleEmitter.events) !! "e"%string
       = Some
           (front
            ++ {| EventEmitter.listener := 2;
                  EventEmitter.context := None;
                  EventEmitter.priority := 5;
                  EventEmitter.once := false;
                  EventEmitter.id := EventEmitter.generateId "c" |}
               :: back).
Proof.
  destruct (X13_on_keeps_priority_order SampleEmitter.call "e" 2
              {| EventEmitter.opt_context := None;
                 EventEmitter.opt_priority := 5;
                 EventEmitter.opt_once := false |}
              "c" SampleEmitter.events)
    as (front & back & H1 & H2 & _).
  - apply (emitter_on SampleEmitter.call "e" 0
             {| EventEmitter.opt_context := None;
                EventEmitter.opt_priority := 0;
                EventEmitter.opt_once := true |} "b").
    apply emitter_on. apply emitter_initial.
  - exists front, back. split; assumption.
Defined.

(** X14 (EventEmitter.emit, off): with distinct listener ids, a
    synchronous [emit] calls the listeners of the event in descending
    priority, returns one entry per listener in that order, an error
    entry for a listener that throws, and afterwards has removed exactly
    the [once] listeners that returned; a [once] listener that threw
    stays registered. *)
Theorem X14_emit_runs_by_priority_and_drops_once
    {Data Value : Type}
    (call : nat -> option nat -> EventEmitter.EventData Data
            -> EventEmitter.Outcome Value)
    (eventName : string) (payload : Data) (now : Z)
    (events : gmap string (list EventEmitter.ListenerObj))
    (listeners : list EventEmitter.ListenerObj) :
  EmitterReachable call events ->
  events !! eventName = Some listeners ->
  List.NoDup (List.map EventEmitter.id listeners) ->
  descending listeners
  /\ EventEmitter.emit call eventName payload now events
     = (<[eventName :=
            List.filter
              (fun l =>
                 negb (spent call
                         (EventEmitter.Build_EventData eventName payload now)
                         l))
              listeners]> events,
        List.map
          (answered call
             (EventEmitter.Build_EventData eventName payload now))
          listeners).
Proof.
  intros Hreach Hl Hnd.
  destruct (EventEmitterProofs.reachable_tidy call events Hreach
              eventName listeners Hl) as [Hd Hi].
  split; [exact Hd |]. unfold EventEmitter.emit. rewrite Hl.
  destruct listeners as [|x l] eqn:El.
  - cbn [List.filter List.map]. now rewrite insert_id.
  - rewrite <- El in *. rewrite EventEmitterProofs.notify_fold.
    cbn [app]. f_equal.
    rewrite (EventEmitterProofs.off_ids eventName _ events listeners Hl).
    + now rewrite EventEmitterProofs.drop_spent.
    + apply List.Forall_forall. intros i Hin.
      apply in_map_iff in Hin as (y & <- & Hy).
      apply filter_In in Hy as [Hy _].
      rewrite List.Forall_forall in Hi. destruct (Hi y Hy) as [stamp E].
      now exists stamp.
Qed.

Lemma X14_emit_runs_by_priority_and_drops_once_witness :
  exists l1 l0,
    SampleEmitter.events !! "e"%string = Some [l1; l0]
    /\ EventEmitter.emit SampleEmitter.call "e" tt 0 SampleEmitter.events
       = (<["e"%string := [l1; l0]]> SampleEmitter.events,
          [EventEmitter.Success "listener_a" 1%nat;
           EventEmitter.Failure "listener_b" "boom"]).
Proof.
  assert (Hl : exists l1 l0,
    SampleEmitter.events !! "e"%string = Some [l1; l0]
    /\ List.NoDup (List.map EventEmitter.id [l1; l0])
    /\ List.filter
         (fun l =>
            negb (spent SampleEmitter.call
                    (EventEmitter.Build_EventData "e" tt 0) l)) [l1; l0]
       = [l1; l0]
    /\ List.map
         (answered SampleEmitter.call
            (EventEmitter.Build_EventData "e" tt 0)) [l1; l0]
       = [EventEmitter.Success "listener_a" 1%nat;
          EventEmitter.Failure "listener_b" "boom"]).
  { eexists _, _. split; [vm_compute; reflexivity |].
    split; [| split; reflexivity].
    repeat constructor; cbn; intuition discriminate. }
  destruct Hl as (l1 & l0 & Hl & Hnd & Hkeep & Hres).
  exists l1, l0. split; [exact Hl |].
  rewrite <- Hkeep at 1. rewrite <- Hres.
  refine (proj2 (X14_emit_runs_by_priority_and_drops_once SampleEmitter.call
                   "e" tt 0 SampleEmitter.events [l1; l0] _ Hl Hnd)).
  apply (emitter_on SampleEmitter.call "e" 0
           {| EventEmitter.opt_context := None;
              EventEmitter.opt_priority := 0;
              EventEmitter.opt_once := true |} "b").
  apply emitter_on. apply emitter_initial.
Defined.

(** X15 (EventEmitter.on, off): taking a listener out again by the id
    that [on] returned, when no listener of the event had that id,
    reports success and leaves the listeners of the event as they were
    before the registration; the event keeps an entry, empty if it had
    none. *)
Theorem X15_on_then_off_restores
    {Data Value : Type}
    (call : nat -> option nat -> EventEmitter.EventData Data
            -> EventEmitter.Outcome Value)
    (eventName : string) (fn : nat) (options : EventEmitter.Options)
    (stamp : string) (events : gmap string (list EventEmitter.ListenerObj)) :
  EmitterReachable call events ->
  ~ In (EventEmitter.generateId stamp)
       (List.map EventEmitter.id (default [] (events !! eventName))) ->
  EventEmitter.off eventName
    (Some (inl (snd (EventEmitter.on eventName fn options stamp events))))
    (fst (EventEmitter.on eventName fn options stamp events))
  = (<[eventName := default [] (events !! eventName)]> events, true).
Proof.
  intros Hreach Hfresh.
  pose proof (EventEmitterProofs.reachable_tidy call events Hreach) as Ht.
  assert (Hd : descending (default [] (events !! eventName))).
  { destruct (events !! eventName) as [l|] eqn:E;
      [now apply (Ht eventName) | constructor]. }
  unfold EventEmitter.on. cbn [fst snd EventEmitter.id].
  unfold EventEmitter.off. cbn [EventEmitter.no_target].
  rewrite EventEmitterProofs.generateId_nonempty, lookup_insert_eq.
  rewrite (EventEmitterProofs.sort_push _ _ Hd).
  destruct (EventEmitterProofs.place_split
              {| EventEmitter.listener := fn;
                 EventEmitter.context := EventEmitter.opt_context options;
                 EventEmitter.priority := EventEmitter.opt_priority options;
                 EventEmitter.once := EventEmitter.opt_once options;
                 EventEmitter.id := EventEmitter.generateId stamp |} _ Hd)
    as (front & back & Hl & -> & _).
  rewrite EventEmitterProofs.remove_first_app.
  - now rewrite insert_insert_eq, Hl.
  - apply List.Forall_forall. intros y Hy. cbn [EventEmitter.matches].
    apply String.eqb_neq. intros E. apply Hfresh. rewrite Hl, <- E.
    apply in_map. apply in_or_app. now left.
  - cbn [EventEmitter.matches EventEmitter.id]. apply String.eqb_refl.
Qed.

Lemma X15_on_then_off_restores_witness :
  EventEmitter.off "e"
    (Some (inl (snd (EventEmitter.on "e" 2 EventEmitter.no_options "c"
                       SampleEmitter.events))))
    (fst (EventEmitter.on "e" 2 EventEmitter.no_options "c"
            SampleEmitter.events))
  = (<["e"%string := default [] (SampleEmitter.events !! "e"%string)]>
       SampleEmitter.events, true).
Proof.
  apply (X15_on_then_off_restores SampleEmitter.call).
  - apply (emitter_on SampleEmitter.call "e" 0
             {| EventEmitter.opt_context := None;
                EventEmitter.opt_priority := 0;
                EventEmitter.opt_once := true |} "b").
    apply emitter_on. apply emitter_initial.
  - vm_compute. intuition discriminate.
Defined.

(** X16 (EventEmitter.offAll): [offAll] removes from every event the
    listeners registered with the given context and keeps the others,
    but the count it returns is always 0: it subtracts the length of
    the array [filter] did not change. *)
Theorem X16_offAll_reports_zero
    (ctx : option nat) (events : gmap string (list EventEmitter.ListenerObj)) :
  snd (EventEmitter.offAll ctx events) = 0%nat
  /\ forall eventName l,
       events !! eventName = Some l ->
       exists l',
         fst (EventEmitter.offAll ctx events) !! eventName = Some l'
         /\ forall x, In x l' <-> In x l /\ EventEmitter.context x <> ctx.
Proof.
  split; [apply EventEmitterProofs.offAll_count |].
  intros eventName l Hl. unfold EventEmitter.offAll. cbn [fst].
  rewrite lookup_fmap, Hl. cbn. eexists. split; [reflexivity |].
  intros x. rewrite filter_In. unfold EventEmitter.same_context.
  rewrite negb_true_iff, bool_decide_eq_false. tauto.
Qed.

(** * The error handler *)

Module ErrorHandlerProofs.
Import ErrorHandler.

Lemma get_set_eq key value entries :
  get key (set key value entries) = Some value.
Proof.
  induction entries as [|[k v] rest IH]; cbn [set get].
  - now rewrite String.eqb_refl.
  - destruct (String.eqb k key) eqn:E; cbn [get].
    + now rewrite String.eqb_refl.
    + now rewrite E.
Qed.

Lemma get_set_ne key key' value entries :
  key <> key' -> get key' (set key value entries) = get key' entries.
Proof.
  intros Hne. induction entries as [|[k v] rest IH]; cbn [set get].
  - apply String.eqb_neq in Hne. now rewrite Hne.
  - destruct (String.eqb k key) eqn:E; cbn [get].
    + apply String.eqb_eq in E. subst k.
      apply String.eqb_neq in Hne. now rewrite Hne.
    + now rewrite IH.
Qed.

Lemma keys_set key value entries :
  List.map fst (set key value entries)
  = match get key entries with
    | Some _ => List.map fst entries
    | None => List.map fst entries ++ [key]
    end.
Proof.
  induction entries as [|[k v] rest IH]; cbn [set get List.map fst app];
    [reflexivity |].
  destruct (String.eqb k key) eqn:E; cbn [List.map fst].
  - apply String.eqb_eq in E. now subst k.
  - rewrite IH. now destruct (get key rest).
Qed.

Lemma get_None key entries :
  get key entries = None -> ~ In key (List.map fst entries).
Proof.
  induction entries as [|[k v] rest IH]; cbn [get List.map fst];
    [intros _ [] |].
  destruct (String.eqb k key) eqn:E; [discriminate |].
  apply String.eqb_neq in E. intros H [Hk | Hin]; [contradiction |].
  now apply IH.
Qed.

Lemma NoDup_set key value entries :
  List.NoDup (List.map fst entries) ->
  List.NoDup (List.map fst (set key value entries)).
Proof.
  intros Hnd. rewrite keys_set. destruct (get key entries) eqn:E;
    [exact Hnd |].
  apply ListFacts.NoDup_app_disjoint; [exact Hnd | |].
  - constructor; [intros [] | constructor].
  - intros x Hx [Ex | []]. subst x. now apply (get_None key entries).
Qed.

Lemma get_In key value entries :
  List.NoDup (List.map fst entries) -> In (key, value) entries ->
  get key entries = Some value.
Proof.
  induction entries as [|[k v] rest IH]; intros Hnd Hin; [destruct Hin |].
  cbn [List.map fst] in Hnd. apply List.NoDup_cons_iff in Hnd as [Hk Hnd].
  cbn [get]. destruct Hin as [E | Hin].
  - injection E as -> ->. now rewrite String.eqb_refl.
  - destruct (String.eqb k key) eqn:E; [| now apply IH].
    apply String.eqb_eq in E. subst k. exfalso. apply Hk.
    now apply (in_map fst _ (key, value)).
Qed.

Lemma In_get key value entries :
  get key entries = Some value -> In (key, value) entries.
Proof.
  induction entries as [|[k v] rest IH]; cbn [get]; [discriminate |].
  destruct (String.eqb k key) eqn:E.
  - apply String.eqb_eq in E. subst k. intros H. injection H as ->.
    now left.
  - intros H. right. now apply IH.
Qed.

Lemma sum_from (l : list nat) (n : nat) :
  fold_left (fun sum count => (sum + count)%nat) l n
  = (n + fold_left (fun sum count => (sum + count)%nat) l 0)%nat.
Proof.
  revert n. induction l as [|x l IH]; intros n; cbn [fold_left]; [lia |].
  rewrite (IH (n + x)%nat), (IH (0 + x)%nat). lia.
Qed.

Lemma sum_set key entries :
  fold_left (fun sum count => (sum + count)%nat)
    (List.map snd
       (set key (match get key entries with Some n => n | None => 0 end + 1)
          entries)) 0%nat
  = S (fold_left (fun sum count => (sum + count)%nat)
         (List.map snd entries) 0%nat).
Proof.
  induction entries as [|[k v] rest IH]; cbn [set get]; [reflexivity |].
  destruct (String.eqb k key) eqn:E; cbn [List.map snd fold_left].
  - rewrite (sum_from _ (0 + (v + 1))), (sum_from _ (0 + v)). lia.
  - rewrite (sum_from _ (0 + v)), IH, (sum_from _ (0 + v)). lia.
Qed.

Section Handle.
Context {Value : Type}.

Lemma errorCounts_handle context (options : Options Value) st :
  errorCounts (fst (handle context options st))
  = set context (currentCount context st + 1) (errorCounts st).
Proof.
  unfold handle.
  assert (Hshow : forall cat s,
            errorCounts (showUserNotification cat context s) = errorCounts s).
  { intros cat s. unfold showUserNotification. now destruct (bool_decide _). }
  destruct (showToUser options), (retry options && _),
    (fallback options) as [[|]|]; cbn [fst]; rewrite ?Hshow; reflexivity.
Qed.

Lemma count_handle context (options : Options Value) st context' :
  currentCount context' (fst (handle context options st))
  = (currentCount context' st
     + if String.eqb context context' then 1 else 0)%nat.
Proof.
  unfold currentCount at 1. rewrite errorCounts_handle.
  destruct (String.eqb context context') eqn:E.
  - apply String.eqb_eq in E. subst context'. now rewrite get_set_eq.
  - apply String.eqb_neq in E. rewrite get_set_ne by exact E.
    unfold currentCount. lia.
Qed.

Lemma total_handle context (options : Options Value) st :
  totalErrors (fst (handle context options st)) = S (totalErrors st).
Proof.
  unfold totalErrors. rewrite errorCounts_handle. apply sum_set.
Qed.

Lemma keys_handle context (options : Options Value) st :
  List.NoDup (List.map fst (errorCounts st)) ->
  List.NoDup (List.map fst (errorCounts (fst (handle context options st)))).
Proof. intros H. rewrite errorCounts_handle. now apply NoDup_set. Qed.

Lemma count_handleAll (calls : list (string * Options Value)) :
  forall st context,
    currentCount context (handleAll calls st)
    = (currentCount context st + occurrences context calls)%nat.
Proof.
  induction calls as [|[c o] calls IH]; intros st context.
  - cbn. lia.
  - unfold handleAll, occurrences in *. cbn [fold_left List.filter fst snd].
    rewrite IH, count_handle.
    destruct (String.eqb c context); cbn [length]; lia.
Qed.

Lemma total_handleAll (calls : list (string * Options Value)) :
  forall st,
    totalErrors (handleAll calls st) = (totalErrors st + length calls)%nat.
Proof.
  induction calls as [|[c o] calls IH]; intros st.
  - cbn. lia.
  - unfold handleAll in *. cbn [fold_left fst snd length].
    rewrite IH, total_handle. lia.
Qed.

Lemma keys_handleAll (calls : list (string * Options Value)) :
  forall st,
    List.NoDup (List.map fst (errorCounts st)) ->
    List.NoDup (List.map fst (errorCounts (handleAll calls st))).
Proof.
  induction calls as [|[c o] calls IH]; intros st H; [exact H |].
  unfold handleAll in *. cbn [fold_left fst snd]. apply IH.
  now apply keys_handle.
Qed.

End Handle.

(** The loop of [getMostFrequentError]: the largest count, and the first
    context that has it. *)
Lemma most_frequent_loop (entries : list (string * nat)) :
  forall (maxCount : nat) (mostFrequent : option string),
  (forall c, mostFrequent = Some c -> (0 < maxCount)%nat) ->
  let r :=
    fold_left
      (fun '(maxCount, mostFrequent) '(context, count) =>
         if (maxCount <? count)%nat then (count, Some context)
         else (maxCount, mostFrequent))
      entries (maxCount, mostFrequent) in
  (maxCount <= fst r)%nat
  /\ Forall (fun e => (snd e <= fst r)%nat) entries
  /\ (forall c, snd r = Some c ->
                (0 < fst r)%nat
                /\ ((snd r = mostFrequent /\ fst r = maxCount)
                    \/ In (c, fst r) entries)).
Proof.
  induction entries as [|[k v] rest IH]; intros m a Ha; cbn zeta.
  - cbn. split; [lia |]. split; [constructor |]. intros c Hc.
    split; [now apply (Ha c) | now left].
  - cbn [fold_left]. destruct (m <? v)%nat eqn:E.
    + apply Nat.ltb_lt in E.
      destruct (IH v (Some k)) as (H1 & H2 & H3); [intros; lia |].
      cbn zeta in *. split; [lia |]. split.
      * constructor; [exact H1 | exact H2].
      * intros c Hc. destruct (H3 c Hc) as [Hpos [[Hs Hf] | Hin]].
        -- split; [exact Hpos |]. right. left.
           rewrite Hc in Hs. injection Hs as ->. now rewrite Hf.
        -- split; [exact Hpos |]. right. now right.
    + apply Nat.ltb_ge in E.
      destruct (IH m a Ha) as (H1 & H2 & H3).
      cbn zeta in *. split; [exact H1 |]. split.
      * constructor; [cbn [snd]; lia | exact H2].
      * intros c Hc. destruct (H3 c Hc) as [Hpos [Hs | Hin]].
        -- split; [exact Hpos | now left].
        -- split; [exact Hpos |]. right. now right.
Qed.

End ErrorHandlerProofs.

(** X17 (ErrorHandler.handle, updateErrorCount, getErrorStats): whatever
    the options and the outcome, every handled error is counted once:
    after the errors [calls], the count of a context has grown by the
    number of them with that context, and [totalErrors] by their
    number. *)
Theorem X17_every_error_is_counted_once
    {Value : Type} (calls : list (string * ErrorHandler.Options Value))
    (st : ErrorHandler.t) (context : string) :
  ErrorHandler.currentCount context (handleAll calls st)
  = (ErrorHandler.currentCount context st + occurrences context calls)%nat
  /\ ErrorHandler.totalErrors (handleAll calls st)
     = (ErrorHandler.totalErrors st + length calls)%nat.
Proof.
  split.
  - apply ErrorHandlerProofs.count_handleAll.
  - apply ErrorHandlerProofs.total_handleAll.
Qed.

(** X18 (ErrorHandler.handle, shouldRetry, updateErrorCount): an error
    handled with [retry] is answered by a retry exactly when fewer than
    two errors of its context were handled before: the count is raised
    before it is compared with [maxRetries], so of the three retries the
    constant names, two are granted. *)
Theorem X18_two_retries_per_context
    {Value : Type} (calls : list (string * ErrorHandler.Options Value))
    (context : string) (options : ErrorHandler.Options Value) :
  ErrorHandler.retry options = true ->
  (snd (ErrorHandler.handle context options
          (handleAll calls ErrorHandler.initial))
   = ErrorHandler.Retry context
   <-> (occurrences context calls < 2)%nat).
Proof.
  intros Hretry. unfold ErrorHandler.handle. rewrite Hretry. cbn [andb].
  set (st := handleAll calls ErrorHandler.initial).
  assert (Hcount : forall s,
    ErrorHandler.currentCount context s
    = match ErrorHandler.get context (ErrorHandler.errorCounts s) with
      | Some n => n
      | None => 0%nat
      end) by reflexivity.
  assert (Hshould :
    ErrorHandler.shouldRetry context
      (if ErrorHandler.showToUser options
       then ErrorHandler.showUserNotification
              (ErrorHandler.category options) context
              (ErrorHandler.updateErrorCount context st)
       else ErrorHandler.updateErrorCount context st)
    = (occurrences context calls + 1 <? 3)%nat).
  { unfold ErrorHandler.shouldRetry, ErrorHandler.maxRetries. f_equal.
    assert (Hshow : forall cat s,
      ErrorHandler.currentCount context
        (ErrorHandler.showUserNotification cat context s)
      = ErrorHandler.currentCount context s).
    { intros cat s. unfold ErrorHandler.showUserNotification.
      now destruct (bool_decide _). }
    destruct (ErrorHandler.showToUser options); rewrite ?Hshow;
      unfold ErrorHandler.currentCount at 1, ErrorHandler.updateErrorCount;
      cbn [ErrorHandler.errorCounts];
      rewrite ErrorHandlerProofs.get_set_eq;
      unfold st; rewrite ErrorHandlerProofs.count_handleAll; reflexivity. }
  rewrite Hshould.
  destruct (occurrences context calls + 1 <? 3)%nat eqn:E.
  - apply Nat.ltb_lt in E. cbn [snd]. split; [lia | reflexivity].
  - apply Nat.ltb_ge in E. split; [| lia].
    destruct (ErrorHandler.fallback options) as [[|]|]; discriminate.
Qed.

Lemma X18_two_retries_per_context_witness :
  snd (ErrorHandler.handle "load"
         (ErrorHandler.Build_Options (Value := nat) "data" false None true)
         (handleAll
            [("load"%string,
              ErrorHandler.Build_Options (Value := nat) "data" false None
                true);
             ("draw"%string,
              ErrorHandler.Build_Options (Value := nat) "map" true None
                false)]
            ErrorHandler.initial))
  = ErrorHandler.Retry "load".
Proof.
  apply (X18_two_retries_per_context
           [("load"%string,
             ErrorHandler.Build_Options (Value := nat) "data" false None true);
            ("draw"%string,
             ErrorHandler.Build_Options (Value := nat) "map" true None false)]
           "load"
           (ErrorHandler.Build_Options (Value := nat) "data" false None true)
           eq_refl).
  vm_compute. lia.
Defined.

(** X19 (ErrorHandler.getMostFrequentError, updateErrorCount): after the
    errors [calls], the context that [getMostFrequentError] reports has
    the count reported, which is the number of errors of that context,
    and no context has more. *)
Theorem X19_most_frequent_error_has_the_most
    {Value : Type} (calls : list (string * ErrorHandler.Options Value))
    (context : string) (count : nat) :
  ErrorHandler.getMostFrequentError (handleAll calls ErrorHandler.initial)
  = Some (context, count) ->
  occurrences context calls = count
  /\ (0 < count)%nat
  /\ forall context', (occurrences context' calls <= count)%nat.
Proof.
  unfold ErrorHandler.getMostFrequentError.
  set (entries :=
         ErrorHandler.errorCounts (handleAll calls ErrorHandler.initial)).
  pose proof (ErrorHandlerProofs.most_frequent_loop entries 0%nat None)
    as Hloop.
  cbn zeta in Hloop.
  destruct (fold_left _ entries (0%nat, None)) as [maxCount mostFrequent].
  cbn [fst snd] in Hloop.
  destruct Hloop as (_ & Hmax & Harg); [discriminate |].
  destruct mostFrequent as [c|]; [| discriminate].
  destruct (String.eqb c ""); [discriminate |].
  intros H. injection H as -> ->.
  assert (Hkeys : List.NoDup (List.map fst entries)).
  { apply ErrorHandlerProofs.keys_handleAll. constructor. }
  assert (Hocc : forall c',
    occurrences c' calls
    = match ErrorHandler.get c' entries with
      | Some n => n
      | None => 0%nat
      end).
  { intros c'.
    pose proof (ErrorHandlerProofs.count_handleAll calls
                  ErrorHandler.initial c') as Hc.
    unfold ErrorHandler.currentCount in Hc at 1. fold entries in Hc.
    rewrite Hc. reflexivity. }
  destruct (Harg context eq_refl) as [Hpos [[Hs _] | Hin]];
    [discriminate |].
  assert (Hget : ErrorHandler.get context entries = Some count)
    by now apply ErrorHandlerProofs.get_In.
  split; [now rewrite Hocc, Hget |]. split; [exact Hpos |].
  - intros c'. rewrite Hocc.
    destruct (ErrorHandler.get c' entries) as [n|] eqn:E; [| lia].
    apply ErrorHandlerProofs.In_get in E.
    rewrite List.Forall_forall in Hmax. exact (Hmax _ E).
Qed.

Lemma X19_most_frequent_error_has_the_most_witness :
  occurrences "load"
    [("load"%string,
      ErrorHandler.Build_Options (Value := nat) "data" true None true);
     ("draw"%string,
      ErrorHandler.Build_Options (Value := nat) "map" true None false);
     ("load"%string,
      ErrorHandler.Build_Options (Value := nat) "data" true None true)]
  = 2%nat.
Proof.
  refine (proj1 (X19_most_frequent_error_has_the_most
                   [("load"%string,
                     ErrorHandler.Build_Options (Value := nat) "data" true
                       None true);
                    ("draw"%string,
                     ErrorHandler.Build_Options (Value := nat) "map" true
                       None false);
                    ("load"%string,
                     ErrorHandler.Build_Options (Value := nat) "data" true
                       None true)]
                   "load" 2 _)).
  vm_compute. reflexivity.
Defined.

(** * Loading the data *)

Module DataLoadingProofs.
Import DataLoading.

Section Load.
Context {Data : Type}.
Variable embeddedPhotos embeddedAreas : Data.

Lemma recover_returns (st : t Data) :
  snd (recover embeddedPhotos embeddedAreas st)
  = Returned embeddedPhotos embeddedAreas
  /\ responses (fst (recover embeddedPhotos embeddedAreas st)) = responses st
  /\ cache (fst (recover embeddedPhotos embeddedAreas st)) = cache st
  /\ photos (fst (recover embeddedPhotos embeddedAreas st))
     = Some embeddedPhotos
  /\ areas (fst (recover embeddedPhotos embeddedAreas st))
     = Some embeddedAreas
  /\ ErrorHandler.currentCount "DataManager.loadData"
       (errors (fst (recover embeddedPhotos embeddedAreas st)))
     = S (ErrorHandler.currentCount "DataManager.loadData" (errors st)).
Proof.
  unfold recover.
  pose proof (ErrorHandlerProofs.count_handle "DataManager.loadData"
                (ErrorHandler.Build_Options "data" true
                   (Some (ErrorHandler.FallbackReturned
                            (embeddedPhotos, embeddedAreas))) false)
                (errors st) "DataManager.loadData") as Hcount.
  rewrite String.eqb_refl in Hcount.
  destruct (ErrorHandler.handle _ _ _) as [handler result] eqn:E.
  cbn [fst snd] in *.
  assert (Hres : result
                 = ErrorHandler.Recovered (embeddedPhotos, embeddedAreas)
                     "DataManager.loadData").
  { unfold ErrorHandler.handle in E. cbn in E. now injection E as _ <-. }
  rewrite Hres. repeat split; try reflexivity. cbn [errors].
  rewrite Hcount. lia.
Qed.

(** Reading a body leaves no body to read. *)
Lemma json_spends h (st : t Data) :
  cache (fst (json h st)) = cache st
  /\ (forall content, ~ readable (fst (json h st)) h content)
  /\ (forall h' content,
        readable (fst (json h st)) h' content -> readable st h' content)
  /\ (forall h' content,
        h' <> h -> readable st h' content ->
        readable (fst (json h st)) h' content)
  /\ (forall content, readable st h content -> snd (json h st) = inr content)
  /\ ((forall content, ~ readable st h content) ->
      exists e, snd (json h st) = inl e).
Proof.
  unfold json. destruct (responses st !! h) as [r|] eqn:Hr.
  - destruct (bodyUsed r) eqn:Hused; cbn [fst snd].
    + split; [reflexivity |]. split; [| split; [easy | split; [easy |]]].
      * intros c (r' & Hr' & _ & Hu). congruence.
      * split.
        -- intros c (r' & Hr' & _ & Hu). congruence.
        -- intros _. now eexists.
    + split; [reflexivity |]. split; [| split; [| split; [| split]]].
      * intros c (r' & Hr' & _ & Hu). cbn in Hr'.
        rewrite lookup_insert_eq in Hr'. injection Hr' as <-. discriminate.
      * intros h' c (r' & Hr' & Hb & Hu). cbn in Hr'.
        destruct (decide (h = h')) as [<- | Hne].
        -- rewrite lookup_insert_eq in Hr'. injection Hr' as <-. discriminate.
        -- rewrite lookup_insert_ne in Hr' by exact Hne. now exists r'.
      * intros h' c Hne (r' & Hr' & Hb & Hu). exists r'. cbn.
        rewrite lookup_insert_ne by (intros E; now apply Hne). easy.
      * intros c (r' & Hr' & Hb & _). assert (r' = r) as -> by congruence.
        now rewrite Hb.
      * intros Hno. destruct (body r) as [c|] eqn:Hb; [| now eexists].
        exfalso. apply (Hno c). now exists r.
  - cbn [fst snd]. split; [reflexivity |].
    split; [| split; [easy | split; [easy |]]].
    + intros c (r' & Hr' & _). congruence.
    + split.
      * intros c (r' & Hr' & _). congruence.
      * intros _. now eexists.
Qed.

(** A file served from the cache. *)
Lemma fetch_hit url key now net stored (st : t Data) e :
  cache st !! (key +:+ "_" +:+ url) = Some e ->
  (now - timestamp e < cacheExpiry)%Z ->
  fetchWithCache url key now net stored st = (st, inr (response e)).
Proof.
  intros He Hfresh. unfold fetchWithCache. rewrite He.
  apply Z.ltb_lt in Hfresh. now rewrite Hfresh.
Qed.




(** Loading when both files are served from the cache. *)
Lemma load_from_cache baseUrl w (st : t Data) ep ea :
  cache st !! ("photos" +:+ "_" +:+ baseUrl +:+ "/data/photos.json")
  = Some ep ->
  (photosNow w - timestamp ep < cacheExpiry)%Z ->
  cache st !! ("areas" +:+ "_" +:+ baseUrl +:+ "/data/areas.json")
  = Some ea ->
  (areasNow w - timestamp ea < cacheExpiry)%Z ->
  cache (fst (loadData embeddedPhotos embeddedAreas baseUrl w st)) = cache st
  /\ (forall c,
        ~ readable (fst (loadData embeddedPhotos embeddedAreas baseUrl w st))
            (response ep) c)
  /\ (forall p a,
        readable st (response ep) p -> readable st (response ea) a ->
        response ep <> response ea ->
        snd (loadData embeddedPhotos embeddedAreas baseUrl w st)
        = Returned p a)
  /\ ((forall c, ~ readable st (response ep) c) ->
      snd (loadData embeddedPhotos embeddedAreas baseUrl w st)
      = Returned embeddedPhotos embeddedAreas).
Proof.
  intros Hp Hpf Ha Haf. unfold loadData.
  rewrite (fetch_hit _ "photos" _ _ _ st ep Hp Hpf).
  rewrite (fetch_hit _ "areas" _ _ _ st ea Ha Haf).
  destruct (json_spends (response ep) st)
    as (Hc1 & Hspent1 & Hback1 & Hkeep1 & Hread1 & Hfail1).
  destruct (json (response ep) st) as [st1 dp]. cbn [fst snd] in *.
  destruct (json_spends (response ea) st1)
    as (Hc2 & Hspent2 & Hback2 & Hkeep2 & Hread2 & Hfail2).
  destruct (json (response ea) st1) as [st2 da]. cbn [fst snd] in *.
  assert (Hspent : forall c, ~ readable st2 (response ep) c).
  { intros c Hr. apply (Hspent1 c). now apply Hback2. }
  destruct (recover_returns st2) as (Hr1 & Hr2 & Hr3 & _).
  split; [| split; [| split]].
  - destruct dp, da; cbn [fst cache]; rewrite ?Hr3; congruence.
  - intros c Hr. apply (Hspent c).
    destruct dp, da; cbn [fst] in Hr;
      destruct Hr as (r & Hr & Hb); exists r; split; try exact Hb;
      rewrite <- Hr; cbn [responses]; now rewrite ?Hr2.
  - intros p a Hrp Hra Hne.
    rewrite (Hread1 p Hrp) in *.
    assert (Hda : da = inr a).
    { apply Hread2. apply Hkeep1; [| exact Hra]. intros E. now apply Hne. }
    now rewrite Hda.
  - intros Hno. destruct (Hfail1 Hno) as [e ->]. exact Hr1.
Qed.


Lemma errors_fetch url key now net stored (st : t Data) :
  errors (fst (fetchWithCache url key now net stored st)) = errors st.
Proof.
  unfold fetchWithCache.
  destruct (cache st !! _) as [e|]; [destruct (_ <? _)%Z; [reflexivity |] |];
    destruct net as [|[|] content]; reflexivity.
Qed.

Lemma errors_json h (st : t Data) : errors (fst (json h st)) = errors st.
Proof.
  unfold json. destruct (responses st !! h) as [r|];
    [destruct (bodyUsed r) |]; reflexivity.
Qed.

Lemma load_returns baseUrl w (st : t Data) :
  exists p a,
    snd (loadData embeddedPhotos embeddedAreas baseUrl w st) = Returned p a
    /\ photos (fst (loadData embeddedPhotos embeddedAreas baseUrl w st))
       = Some p
    /\ areas (fst (loadData embeddedPhotos embeddedAreas baseUrl w st))
       = Some a
    /\ (errors (fst (loadData embeddedPhotos embeddedAreas baseUrl w st))
        = errors st
        \/ (p = embeddedPhotos /\ a = embeddedAreas
            /\ ErrorHandler.currentCount "DataManager.loadData"
                 (errors (fst (loadData embeddedPhotos embeddedAreas
                                 baseUrl w st)))
               = S (ErrorHandler.currentCount "DataManager.loadData"
                      (errors st)))).
Proof.
  unfold loadData.
  pose proof (errors_fetch (baseUrl +:+ "/data/photos.json") "photos"
                (photosNow w) (photosNet w) (photosStored w) st) as He1.
  destruct (fetchWithCache (baseUrl +:+ "/data/photos.json") "photos" _ _ _ st)
    as [st1 rp]. cbn [fst] in He1.
  pose proof (errors_fetch (baseUrl +:+ "/data/areas.json") "areas"
                (areasNow w) (areasNet w) (areasStored w) st1) as He2.
  destruct (fetchWithCache (baseUrl +:+ "/data/areas.json") "areas" _ _ _ st1)
    as [st2 ra]. cbn [fst] in He2.
  assert (Hrec : forall s : t Data,
    errors s = errors st ->
    exists p a,
      snd (recover embeddedPhotos embeddedAreas s) = Returned p a
      /\ photos (fst (recover embeddedPhotos embeddedAreas s)) = Some p
      /\ areas (fst (recover embeddedPhotos embeddedAreas s)) = Some a
      /\ (errors (fst (recover embeddedPhotos embeddedAreas s)) = errors st
          \/ (p = embeddedPhotos /\ a = embeddedAreas
              /\ ErrorHandler.currentCount "DataManager.loadData"
                   (errors (fst (recover embeddedPhotos embeddedAreas s)))
                 = S (ErrorHandler.currentCount "DataManager.loadData"
                        (errors st))))).
  { intros s Hs. destruct (recover_returns s) as (H1 & _ & _ & H4 & H5 & H6).
    exists embeddedPhotos, embeddedAreas. rewrite Hs in H6.
    repeat split; try assumption. right. easy. }
  destruct rp as [ep|hp]; [apply Hrec; congruence |].
  destruct ra as [ea|ha]; [apply Hrec; congruence |].
  pose proof (errors_json hp st2) as He3.
  destruct (json hp st2) as [st3 dp]. cbn [fst] in He3.
  pose proof (errors_json ha st3) as He4.
  destruct (json ha st3) as [st4 da]. cbn [fst] in He4.
  destruct dp as [e|p]; [apply Hrec; congruence |].
  destruct da as [e|a]; [apply Hrec; congruence |].
  exists p, a. cbn [fst snd photos areas errors].
  repeat split. left. congruence.
Qed.

End Load.
End DataLoadingProofs.

(** X20 (DataManager.loadData, fetchWithCache): [loadData] never throws:
    it returns data and leaves the same data in [photos] and [areas];
    either the error handler is left alone, or the data are the
    embedded ones and one more error is counted for
    'DataManager.loadData'. *)
Theorem X20_loadData_always_returns_data
    {Data : Type} (embeddedPhotos embeddedAreas : Data) (baseUrl : string)
    (w : DataLoading.World Data) (st : DataLoading.t Data) :
  exists p a,
    snd (DataLoading.loadData embeddedPhotos embeddedAreas baseUrl w st)
    = DataLoading.Returned p a
    /\ DataLoading.photos
         (fst (DataLoading.loadData embeddedPhotos embeddedAreas baseUrl w st))
       = Some p
    /\ DataLoading.areas
         (fst (DataLoading.loadData embeddedPhotos embeddedAreas baseUrl w st))
       = Some a
    /\ (DataLoading.errors
          (fst (DataLoading.loadData embeddedPhotos embeddedAreas baseUrl w
                  st))
        = DataLoading.errors st
        \/ (p = embeddedPhotos /\ a = embeddedAreas
            /\ ErrorHandler.currentCount "DataManager.loadData"
                 (DataLoading.errors
                    (fst (DataLoading.loadData embeddedPhotos embeddedAreas
                            baseUrl w st)))
               = S (ErrorHandler.currentCount "DataManager.loadData"
                      (DataLoading.errors st)))).
Proof. apply DataLoadingProofs.load_returns. Qed.



(** X22 (DataManager.loadData, fetchWithCache): a cached response can be
    read once.  Of two [loadData] in a row that are both served from
    the cache, the second returns the embedded data: the first has read
    the body of the cached response, which [fetchWithCache] then hands
    out again. *)
Theorem X22_cached_response_is_read_once
    {Data : Type} (embeddedPhotos embeddedAreas : Data) (baseUrl : string)
    (w1 w2 : DataLoading.World Data) (st : DataLoading.t Data) :
  cacheFresh baseUrl w1 st ->
  cacheFresh baseUrl w2 st ->
  snd (DataLoading.loadData embeddedPhotos embeddedAreas baseUrl w2
         (fst (DataLoading.loadData embeddedPhotos embeddedAreas baseUrl
                 w1 st)))
  = DataLoading.Returned embeddedPhotos embeddedAreas.
Proof.
  intros [(ep & Hep & Hp1) (ea & Hea & Ha1)]
         [(ep' & Hep' & Hp2) (ea' & Hea' & Ha2)].
  assert (ep' = ep) as -> by congruence.
  assert (ea' = ea) as -> by congruence.
  destruct (DataLoadingProofs.load_from_cache embeddedPhotos embeddedAreas
              baseUrl w1 st ep ea Hep Hp1 Hea Ha1)
    as (Hcache & Hspent & _ & _).
  destruct (DataLoadingProofs.load_from_cache embeddedPhotos embeddedAreas
              baseUrl w2
              (fst (DataLoading.loadData embeddedPhotos embeddedAreas baseUrl
                      w1 st)) ep ea)
    as (_ & _ & _ & Hfail); try assumption.
  - rewrite Hcache. exact Hep.
  - rewrite Hcache. exact Hea.
  - exact (Hfail Hspent).
Qed.

Lemma X22_cached_response_is_read_once_witness :
  snd (DataLoading.loadData 0%nat 0%nat "" (SampleLoad.offline 2000)
         (fst (DataLoading.loadData 0%nat 0%nat "" (SampleLoad.offline 1000)
                 SampleLoad.loaded)))
  = DataLoading.Returned 0%nat 0%nat.
Proof.
  apply (X22_cached_response_is_read_once 0%nat 0%nat ""
           (SampleLoad.offline 1000) (SampleLoad.offline 2000)
           SampleLoad.loaded).
  - split; eexists;
      (split; [vm_compute; reflexivity | vm_compute; reflexivity]).
  - split; eexists;
      (split; [vm_compute; reflexivity | vm_compute; reflexivity]).
Defined.

(** * The pages of the photo grid *)

Module PagingProofs.
Import Paging.

Lemma firstn_plus {A} (a b : nat) (l : list A) :
  firstn (a + b) l = firstn a l ++ firstn b (skipn a l).
Proof.
  revert l. induction a as [|a IH]; intros l; [reflexivity |].
  destruct l as [|x l]; cbn [Nat.add firstn skipn app].
  - now rewrite firstn_nil.
  - now rewrite IH.
Qed.

Lemma firstn_min {A} (n : nat) (l : list A) :
  firstn (Nat.min n (length l)) l = firstn n l.
Proof.
  destruct (Nat.le_ge_cases n (length l)) as [H | H].
  - now rewrite Nat.min_l.
  - rewrite Nat.min_r by exact H.
    now rewrite firstn_all, firstn_all2.
Qed.

(** A page is the next [photosPerPage] photos behind those of the pages
    before it. *)
Lemma pagePhotos_chunk st :
  pagePhotos st
  = firstn (photosPerPage st)
      (skipn ((currentPage st - 1) * photosPerPage st) (filteredPhotos st)).
Proof.
  unfold pagePhotos, slice. cbv zeta.
  set (s := ((currentPage st - 1) * photosPerPage st)%nat).
  set (p := photosPerPage st). set (l := filteredPhotos st).
  rewrite <- (firstn_min p (skipn s l)), length_skipn.
  f_equal. lia.
Qed.

Lemma pages_upto st k :
  concat (List.map (fun page => pagePhotos (at_page page st)) (seq 1 k))
  = firstn (k * photosPerPage st) (filteredPhotos st).
Proof.
  induction k as [|k IH]; [reflexivity |].
  rewrite seq_S, map_app, concat_app, IH. cbn [List.map concat Nat.add].
  rewrite app_nil_r, pagePhotos_chunk. cbn [at_page currentPage
    photosPerPage filteredPhotos].
  replace (S k - 1)%nat with k by lia.
  replace (S k * photosPerPage st)%nat
    with (k * photosPerPage st + photosPerPage st)%nat by lia.
  now rewrite firstn_plus.
Qed.

Lemma totalPages_spec st :
  (0 < photosPerPage st)%nat ->
  (length (filteredPhotos st) <= totalPages st * photosPerPage st)%nat
  /\ ((totalPages st - 1) * photosPerPage st < length (filteredPhotos st)
      \/ totalPages st = 0)%nat.
Proof.
  intros Hp. unfold totalPages.
  set (n := length (filteredPhotos st)). set (p := photosPerPage st) in *.
  pose proof (Nat.div_mod_eq (n + p - 1) p) as Hdm.
  pose proof (Nat.mod_upper_bound (n + p - 1) p ltac:(lia)) as Hlt.
  set (q := ((n + p - 1) / p)%nat) in *.
  set (r := ((n + p - 1) mod p)%nat) in *.
  split; [nia |].
  destruct q as [|q]; [now right |]. left.
  replace (S q - 1)%nat with q by lia. nia.
Qed.

Lemma page_size st :
  (0 < photosPerPage st)%nat ->
  (1 <= currentPage st <= totalPages st)%nat ->
  (0 < length (pagePhotos st) <= photosPerPage st)%nat.
Proof.
  intros Hp [H1 Hn]. rewrite pagePhotos_chunk, length_firstn, length_skipn.
  destruct (totalPages_spec st Hp) as [_ [Hlast | Hzero]]; [| lia].
  assert ((currentPage st - 1) * photosPerPage st
          <= (totalPages st - 1) * photosPerPage st)%nat
    by (apply Nat.mul_le_mono_r; lia).
  lia.
Qed.

Lemma changePage_range direction st :
  (1 <= currentPage st <= totalPages st)%nat ->
  filteredPhotos (changePage direction st) = filteredPhotos st
  /\ photosPerPage (changePage direction st) = photosPerPage st
  /\ (1 <= currentPage (changePage direction st)
      <= totalPages (changePage direction st))%nat.
Proof.
  intros [H1 Hn]. unfold changePage.
  destruct ((direction =? 1)%Z && (currentPage st <? totalPages st)%nat)
    eqn:Efwd.
  - apply andb_true_iff in Efwd as [_ Hlt]. apply Nat.ltb_lt in Hlt.
    unfold totalPages in *. cbn. repeat split; lia.
  - destruct ((direction =? -1)%Z && (1 <? currentPage st)%nat) eqn:Ebwd.
    + apply andb_true_iff in Ebwd as [_ Hlt]. apply Nat.ltb_lt in Hlt.
      unfold totalPages in *. cbn. repeat split; lia.
    + repeat split; assumption.
Qed.

End PagingProofs.

(** X23 (PhotoMapApp.renderAreaPhotosGrid): with a page size above 0, the
    pages 1 to [totalPages], put end to end, are the filtered photos:
    every photo is on exactly one page, in order; and every one of these
    pages holds at least one photo and at most a page full. *)
Theorem X23_pages_partition_the_photos (st : Paging.t) :
  (0 < Paging.photosPerPage st)%nat ->
  concat
    (List.map (fun page => Paging.pagePhotos (Paging.at_page page st))
       (seq 1 (Paging.totalPages st)))
  = Paging.filteredPhotos st
  /\ Forall
       (fun page =>
          (0 < length (Paging.pagePhotos (Paging.at_page page st))
           <= Paging.photosPerPage st)%nat)
       (seq 1 (Paging.totalPages st)).
Proof.
  intros Hp. split.
  - rewrite PagingProofs.pages_upto. apply firstn_all2.
    now apply PagingProofs.totalPages_spec.
  - apply List.Forall_forall. intros page Hin. apply in_seq in Hin.
    apply (PagingProofs.page_size (Paging.at_page page st)); [exact Hp |].
    change (Paging.totalPages (Paging.at_page page st))
      with (Paging.totalPages st).
    cbn [Paging.at_page Paging.currentPage]. lia.
Qed.

Lemma X23_pages_partition_the_photos_witness :
  concat
    (List.map
       (fun page =>
          Paging.pagePhotos
            (Paging.at_page page
               (Paging.showAreaInfo (repeat Sample.p1 30) Paging.initial)))
       (seq 1 3))
  = repeat Sample.p1 30.
Proof.
  refine (proj1 (X23_pages_partition_the_photos
                   (Paging.showAreaInfo (repeat Sample.p1 30) Paging.initial)
                   _)).
  cbn. lia.
Defined.

(** X24 (PhotoMapApp.changePage, renderAreaPhotosGrid): from a page
    between 1 and [totalPages], [changePage] leads to a page between 1
    and [totalPages], whatever the direction, and the grid then shows at
    least one photo and at most a page full. *)
Theorem X24_changePage_stays_on_the_pages
    (direction : Z) (st : Paging.t) :
  (0 < Paging.photosPerPage st)%nat ->
  (1 <= Paging.currentPage st <= Paging.totalPages st)%nat ->
  (1 <= Paging.currentPage (Paging.changePage direction st)
   <= Paging.totalPages st)%nat
  /\ (0 < length (Paging.pagePhotos (Paging.changePage direction st))
      <= Paging.photosPerPage st)%nat.
Proof.
  intros Hp Hrange.
  destruct (PagingProofs.changePage_range direction st Hrange)
    as (Hl & Hpp & Hr).
  assert (Ht : Paging.totalPages (Paging.changePage direction st)
               = Paging.totalPages st).
  { unfold Paging.totalPages. now rewrite Hl, Hpp. }
  split; [now rewrite <- Ht |]. rewrite <- Hpp.
  apply PagingProofs.page_size; [now rewrite Hpp | exact Hr].
Qed.

Lemma X24_changePage_stays_on_the_pages_witness :
  (1 <= Paging.currentPage
          (Paging.changePage 1
             (Paging.at_page 3
                (Paging.showAreaInfo (repeat Sample.p1 30) Paging.initial)))
   <= 3)%nat.
Proof.
  refine (proj1 (X24_changePage_stays_on_the_pages 1
                   (Paging.at_page 3
                      (Paging.showAreaInfo (repeat Sample.p1 30)
                         Paging.initial)) _ _)).
  - cbn. lia.
  - vm_compute. split; apply Nat.leb_le; reflexivity.
Defined.

(** * Thumbnail addresses *)

Module ThumbnailProofs.
Import Thumbnail.

Lemma includes_mark a rest :
  includes "?" (String a rest) = Ascii.eqb a "?"%char || includes "?" rest.
Proof.
  cbn [includes String.prefix].
  destruct (Ascii.ascii_dec "?"%char a) as [<- | Hne].
  - now destruct rest.
  - destruct (Ascii.eqb_spec a "?"%char) as [-> | _]; [contradiction |].
    reflexivity.
Qed.

Lemma before_clean s : includes "?" (before "?"%char s) = false.
Proof.
  induction s as [|a s IH]; [reflexivity |]. cbn [before].
  destruct (Ascii.eqb a "?"%char) eqn:E; [reflexivity |].
  now rewrite includes_mark, E, IH.
Qed.

Lemma before_app s t :
  includes "?" s = false -> before "?"%char (s +:+ String "?"%char t) = s.
Proof.
  induction s as [|a s IH]; intros H; [reflexivity |].
  rewrite includes_mark in H. apply orb_false_iff in H as [Ha Hs].
  change (String a s +:+ String "?"%char t)
      with (String a (s +:+ String "?"%char t)).
  cbn [before]. rewrite Ha. now rewrite IH.
Qed.

Lemma includes_app s t : includes "?" (s +:+ String "?"%char t) = true.
Proof.
  induction s as [|a s IH].
  - change ("" +:+ String "?"%char t) with (String "?"%char t).
    now rewrite includes_mark.
  - change (String a s +:+ String "?"%char t)
      with (String a (s +:+ String "?"%char t)).
    rewrite includes_mark, IH. apply orb_true_r.
Qed.

Lemma before_split s :
  includes "?" s = true ->
  exists rest, s = before "?"%char s +:+ String "?"%char rest.
Proof.
  induction s as [|a s IH]; [discriminate |].
  rewrite includes_mark. cbn [before].
  destruct (Ascii.eqb_spec a "?"%char) as [-> | Hne].
  - intros _. now exists s.
  - cbn [orb]. intros H. destruct (IH H) as (rest & E).
    exists rest.
    change (String a (before "?"%char s) +:+ String "?"%char rest)
      with (String a (before "?"%char s +:+ String "?"%char rest)).
    now rewrite <- E.
Qed.

Lemma clean_no_mark s :
  includes "?" s = false ->
  forall pre post, s <> pre +:+ String "?"%char post.
Proof.
  intros H pre post E. rewrite E, includes_app in H. discriminate H.
Qed.

(** The address made for an Unsplash picture. *)
Lemma thumbnail_shape imageUrl :
  includes "unsplash.com" imageUrl = true ->
  exists base,
    generateThumbnailUrl imageUrl = base +:+ "?w=200&h=200&fit=crop"
    /\ includes "?" base = false
    /\ (imageUrl = base
        \/ exists rest, imageUrl = base +:+ String "?"%char rest).
Proof.
  intros Hu. unfold generateThumbnailUrl. rewrite Hu.
  destruct (includes "?" imageUrl) eqn:Hq.
  - exists (before "?"%char imageUrl). split; [reflexivity |].
    split; [apply before_clean | right; now apply before_split].
  - exists imageUrl. split; [reflexivity |].
    split; [exact Hq | now left].
Qed.

End ThumbnailProofs.

(** X25 (PhotoMapApp.generateThumbnailUrl): the thumbnail address of a
    thumbnail address is that address.  An address that does not contain
    unsplash.com is returned as it is.  For one that does, the result is
    the fixed query [?w=200&h=200&fit=crop] put behind the part of the
    address before its first question mark: behind [base], where [base]
    holds no question mark and the address is [base] or [base], a
    question mark and a rest. *)
Theorem X25_thumbnail_address_is_stable (imageUrl : string) :
  Thumbnail.generateThumbnailUrl (Thumbnail.generateThumbnailUrl imageUrl)
  = Thumbnail.generateThumbnailUrl imageUrl
  /\ (Thumbnail.includes "unsplash.com" imageUrl = false ->
      Thumbnail.generateThumbnailUrl imageUrl = imageUrl)
  /\ (Thumbnail.includes "unsplash.com" imageUrl = true ->
      exists base,
        Thumbnail.generateThumbnailUrl imageUrl
        = base +:+ "?w=200&h=200&fit=crop"
        /\ (forall pre post, base <> pre +:+ String "?"%char post)
        /\ (imageUrl = base
            \/ exists rest, imageUrl = base +:+ String "?"%char rest)).
Proof.
  split; [| split].
  - destruct (Thumbnail.includes "unsplash.com" imageUrl) eqn:Hu.
    + destruct (ThumbnailProofs.thumbnail_shape imageUrl Hu)
        as (base & -> & Hclean & _).
      unfold Thumbnail.generateThumbnailUrl.
      destruct (Thumbnail.includes "unsplash.com"
                  (base +:+ "?w=200&h=200&fit=crop")); [| reflexivity].
      change (base +:+ "?w=200&h=200&fit=crop")
        with (base +:+ String "?"%char "w=200&h=200&fit=crop").
      rewrite ThumbnailProofs.includes_app.
      now rewrite ThumbnailProofs.before_app.
    + unfold Thumbnail.generateThumbnailUrl. now rewrite !Hu.
  - intros Hu. unfold Thumbnail.generateThumbnailUrl. now rewrite Hu.
  - intros Hu.
    destruct (ThumbnailProofs.thumbnail_shape imageUrl Hu)
      as (base & E & Hclean & Hsplit).
    exists base. split; [exact E |]. split; [| exact Hsplit].
    now apply ThumbnailProofs.clean_no_mark.
Qed.

(** The thumbnail address of an Unsplash picture with a query, and of a
    picture from elsewhere. *)
Example thumbnail_addresses :
  Thumbnail.generateThumbnailUrl
    "https://images.unsplash.com/photo-1?w=800&q=80"
  = "https://images.unsplash.com/photo-1?w=200&h=200&fit=crop"%string
  /\ Thumbnail.generateThumbnailUrl "https://example.com/a.jpg?x=1"
     = "https://example.com/a.jpg?x=1"%string.
Proof. split; reflexivity. Qed.

(** * A photo at the centre of an area *)

Module OriginProofs.

Lemma zero_num q : q == 0 <-> Qnum q = 0%Z.
Proof. unfold Qeq. cbn. lia. Qed.

Lemma fixed_zero q : Qnum q = 0%Z -> Qnum (JS.fixed q) = 0%Z.
Proof. intros H. unfold JS.fixed. cbn [Qnum]. now rewrite H. Qed.

Lemma mult_zero_l a b : Qnum a = 0%Z -> Qnum (a * b) = 0%Z.
Proof. intros H. cbn. now rewrite H. Qed.

Lemma mult_zero_r a b : Qnum b = 0%Z -> Qnum (a * b) = 0%Z.
Proof. intros H. cbn. rewrite H. lia. Qed.

Lemma div_zero_l a b : Qnum a = 0%Z -> Qnum (a / b) = 0%Z.
Proof. intros H. unfold Qdiv. now apply mult_zero_l. Qed.

Lemma ref_sin_origin x : x == 0 -> JS.ref_sin x == 0.
Proof.
  intros H. apply zero_num in H. apply zero_num. unfold JS.ref_sin.
  cbv zeta. apply fixed_zero. apply mult_zero_l. now apply fixed_zero.
Qed.

Lemma ref_sqrt_origin x :
  x == 0 -> exists r, JS.ref_sqrt x = Some r /\ r == 0.
Proof.
  intros H. unfold JS.ref_sqrt.
  assert (Hle : Qle_bool 0 x = true) by (apply Qle_bool_iff; lra).
  rewrite Hle. eexists. split; [reflexivity |].
  apply zero_num in H. apply zero_num. unfold JS.ref_root. cbn [Qnum].
  now rewrite H.
Qed.

Lemma ref_sqrt_one x :
  x == 1 -> exists r, JS.ref_sqrt x = Some r /\ 0 < r.
Proof.
  intros H. unfold JS.ref_sqrt.
  assert (Hle : Qle_bool 0 x = true) by (apply Qle_bool_iff; lra).
  rewrite Hle. eexists. split; [reflexivity |].
  unfold JS.ref_root.
  assert (Hn : Qnum x = Zpos (Qden x)).
  { unfold Qeq in H. cbn in H. lia. }
  rewrite Hn.
  replace (Z.pos (Qden x) * 10 ^ 40 / Z.pos (Qden x))%Z with (10 ^ 40)%Z.
  - vm_compute. reflexivity.
  - rewrite Z.mul_comm, Z.div_mul; [reflexivity | lia].
Qed.

Lemma ref_half_tan_zero t : Qnum t = 0%Z -> Qnum (JS.ref_half_tan t) = 0%Z.
Proof.
  intros H. unfold JS.ref_half_tan. apply fixed_zero. now apply div_zero_l.
Qed.

Lemma ref_atan_zero t : Qnum t = 0%Z -> JS.ref_atan t == 0.
Proof.
  intros H. unfold JS.ref_atan.
  assert (Hs : Qnum (JS.ref_atan_series
                       (JS.ref_half_tan (JS.ref_half_tan t))) = 0%Z).
  { unfold JS.ref_atan_series. cbv zeta. apply fixed_zero.
    apply mult_zero_l. apply fixed_zero.
    now apply ref_half_tan_zero, ref_half_tan_zero. }
  apply zero_num. now apply mult_zero_r.
Qed.

Lemma ref_atan2_origin y x : y == 0 -> 0 < x -> JS.ref_atan2 y x == 0.
Proof.
  intros Hy Hx. unfold JS.ref_atan2.
  destruct (Qlt_le_dec 0 x) as [_ | Hle]; [| lra].
  apply ref_atan_zero. apply div_zero_l. now apply zero_num.
Qed.

Lemma refMath_exact : exactAtOrigin JS.refMath.
Proof.
  split; [exact ref_sin_origin |]. split; [exact ref_sqrt_origin |].
  split; [exact ref_sqrt_one | exact ref_atan2_origin].
Qed.

Section Engine.
Variable M : JS.JSMath.
Hypothesis Hexact : exactAtOrigin M.

Lemma distance_origin lat1 lng1 lat2 lng2 :
  lat1 == lat2 -> lng1 == lng2 ->
  exists d,
    DataManager.calculateDistance M (Some lat1) (Some lng1) (Some lat2)
      (Some lng2) = Some d
    /\ d == 0.
Proof.
  intros Hlat Hlng. destruct Hexact as (Hsin & Hsqrt0 & Hsqrt1 & Hatan).
  unfold DataManager.calculateDistance. cbv zeta.
  set (s := JS.Math_sin M (DataManager.degToRad M (lat2 - lat1) / 2)).
  set (s' := JS.Math_sin M (DataManager.degToRad M (lng2 - lng1) / 2)).
  assert (Hs : s == 0).
  { apply Hsin. unfold DataManager.degToRad. rewrite Hlat.
    unfold Qdiv. ring. }
  assert (Hs' : s' == 0).
  { apply Hsin. unfold DataManager.degToRad. rewrite Hlng.
    unfold Qdiv. ring. }
  set (a := s * s + _).
  assert (Ha : a == 0).
  { unfold a. rewrite Hs, Hs'. ring. }
  destruct (Hsqrt0 a Ha) as (r0 & -> & Hr0).
  destruct (Hsqrt1 (1 - a)) as (r1 & -> & Hr1); [rewrite Ha; ring |].
  cbn [JS.lift2]. eexists. split; [reflexivity |].
  rewrite (Hatan r0 r1 Hr0 Hr1). ring.
Qed.

Lemma centre_photo photos area photo lat lng plat plng :
  Area.center_lat area = Some lat -> Area.center_lng area = Some lng ->
  Photo.latitude photo = Some plat -> Photo.longitude photo = Some plng ->
  plat == lat -> plng == lng ->
  ~ lat == 0 -> ~ lng == 0 ->
  0 <= JS.or_default (Area.radius area) 1.0 ->
  In photo photos ->
  In photo (DataManager.getPhotosInArea M photos area).
Proof.
  intros Hlat Hlng Hplat Hplng Elat Elng Nlat Nlng Hr Hin.
  unfold DataManager.getPhotosInArea. rewrite Hlat, Hlng.
  assert (T1 : JS.truthy (Some lat) = true).
  { cbn. apply negb_true_iff. destruct (Qeq_bool lat 0) eqn:E;
      [apply Qeq_bool_iff in E; contradiction | reflexivity]. }
  assert (T2 : JS.truthy (Some lng) = true).
  { cbn. apply negb_true_iff. destruct (Qeq_bool lng 0) eqn:E;
      [apply Qeq_bool_iff in E; contradiction | reflexivity]. }
  rewrite T1, T2. cbn [negb orb]. apply filter_In. split; [exact Hin |].
  rewrite Hplat, Hplng.
  destruct (distance_origin plat plng lat lng Elat Elng) as (d & -> & Hd).
  cbn [JS.le]. apply Qle_bool_iff. rewrite Hd. exact Hr.
Qed.

End Engine.
End OriginProofs.

(** X26 (DataManager.getPhotosInArea, calculateDistance): with an engine
    that is exact where the language standard says so ([sin 0],
    [sqrt 0], [sqrt 1], [atan2 0 x]), a photo that sits exactly at the
    centre of an area is at distance 0 from it and is one of the photos
    of the area, whatever the radius, as long as the radius in force is
    not negative and the centre has no zero coordinate. *)
Theorem X26_photo_at_the_centre_is_in_the_area
    (M : JS.JSMath) (photos : list Photo.t) (area : Area.t)
    (photo : Photo.t) (lat lng plat plng : Q) :
  exactAtOrigin M ->
  Area.center_lat area = Some lat -> Area.center_lng area = Some lng ->
  Photo.latitude photo = Some plat -> Photo.longitude photo = Some plng ->
  plat == lat -> plng == lng ->
  ~ lat == 0 -> ~ lng == 0 ->
  0 <= JS.or_default (Area.radius area) 1.0 ->
  In photo photos ->
  (exists d,
      DataManager.calculateDistance M (Photo.latitude photo)
        (Photo.longitude photo) (Area.center_lat area)
        (Area.center_lng area) = Some d
      /\ d == 0)
  /\ In photo (DataManager.getPhotosInArea M photos area).
Proof.
  intros Hexact Hlat Hlng Hplat Hplng Elat Elng Nlat Nlng Hr Hin. split.
  - rewrite Hlat, Hlng, Hplat, Hplng.
    now apply OriginProofs.distance_origin.
  - now apply (OriginProofs.centre_photo M Hexact photos area photo
                 lat lng plat plng).
Qed.

Lemma X26_photo_at_the_centre_is_in_the_area_witness :
  In Sample.p1 (DataManager.getPhotosInArea JS.refMath [Sample.p1] Sample.a1).
Proof.
  refine (proj2 (X26_photo_at_the_centre_is_in_the_area JS.refMath
                   [Sample.p1] Sample.a1 Sample.p1 34.85 134.60 34.85 134.60
                   OriginProofs.refMath_exact eq_refl eq_refl eq_refl eq_refl
                   _ _ _ _ _ _)).
  - reflexivity.
  - reflexivity.
  - intros H. discriminate H.
  - intros H. discriminate H.
  - cbn. discriminate.
  - now left.
Defined.

(** * Marker sizes within the zoom range of the map *)

Module SizeRangeProofs.

Lemma floor_between (x : Q) (lo hi : Z) :
  inject_Z lo <= x -> x < inject_Z (hi + 1) ->
  (lo <= Qfloor x <= hi)%Z.
Proof.
  intros Hlo Hhi. split.
  - rewrite <- (Qfloor_Z lo). now apply Qfloor_resp_le.
  - assert (H : (Qfloor x < hi + 1)%Z); [| lia].
    rewrite Zlt_Qlt. eapply Qle_lt_trans; [apply Qfloor_le | exact Hhi].
Qed.

End SizeRangeProofs.

(** X27 (MarkerManager.getResponsiveMarkerSize): for a zoom the map
    allows, from [MIN_ZOOM] to [MAX_ZOOM], the size of an area marker
    lies between [MIN_SIZE] and [MAX_SIZE] and that of a cluster marker
    between these bounds scaled by [SIZE_SCALE_FACTOR]; and a cluster
    marker is never smaller than an area marker at the same zoom. *)
Theorem X27_marker_size_within_bounds (zoom : Q) :
  APP_CONFIG.MAP.MIN_ZOOM <= zoom -> zoom <= APP_CONFIG.MAP.MAX_ZOOM ->
  (20 <= MarkerManager.getResponsiveMarkerSize zoom false <= 50)%Z
  /\ (30 <= MarkerManager.getResponsiveMarkerSize zoom true <= 75)%Z
  /\ (MarkerManager.getResponsiveMarkerSize zoom false
      <= MarkerManager.getResponsiveMarkerSize zoom true)%Z.
Proof.
  unfold APP_CONFIG.MAP.MIN_ZOOM, APP_CONFIG.MAP.MAX_ZOOM. intros Hlo Hhi.
  rewrite !MarkerSizeProofs.manager_linear. split; [| split].
  - apply SizeRangeProofs.floor_between;
      [change (inject_Z 20) with 20 | change (inject_Z (50 + 1)) with 51];
      lra.
  - apply SizeRangeProofs.floor_between;
      [change (inject_Z 30) with 30 | change (inject_Z (75 + 1)) with 76];
      lra.
  - apply Qfloor_resp_le. lra.
Qed.

Lemma X27_marker_size_within_bounds_witness :
  (20 <= MarkerManager.getResponsiveMarkerSize 14 false <= 50)%Z.
Proof.
  refine (proj1 (X27_marker_size_within_bounds 14 _ _)).
  - vm_compute. discriminate.
  - vm_compute. discriminate.
Defined.

(** * The legacy markers and their representative photos *)

Module LegacyMarkerProofs.
Import PhotoMapApp.

Lemma representative_member l :
  l <> [] -> exists p, getRepresentativePhoto l = Some p /\ In p l.
Proof.
  intros Hne. destruct l as [|p0 rest]; [contradiction |].
  destruct (List.filter Photo.is_featured (p0 :: rest)) as [|x fs] eqn:F.
  - destruct (RepresentativeProofs.popular_choice p0 rest F) as (p & H).
    exists p. tauto.
  - destruct (RepresentativeProofs.featured_choice (p0 :: rest)) as (p & H);
      [rewrite F; discriminate |].
    exists p. tauto.
Qed.

Section Engine.
Variable M : JS.JSMath.
Variable photos : list Photo.t.

Lemma area_photos_sub a p :
  In p (getPhotosInArea M photos a) -> In p photos.
Proof.
  unfold getPhotosInArea. destruct (_ || _ || _); [intros [] |].
  intros H. now apply filter_In in H.
Qed.

Lemma cluster_photos_sub c l p :
  legacyGrouped M photos c -> Cluster.photos c = Some l ->
  In p l -> In p photos.
Proof.
  intros [(a & ->) | (a & others & _ & _ & ->)] Hl Hp;
    cbn [Cluster.photos singleArea makeCluster] in Hl; injection Hl as <-.
  - now apply (area_photos_sub a).
  - apply in_app_or in Hp as [Hp | Hp]; [now apply (area_photos_sub a) |].
    apply in_flat_map in Hp as (x & _ & Hp). now apply (area_photos_sub x).
Qed.

Lemma marker_representative zoom areas m :
  In m (addAreaMarkers M photos zoom areas) ->
  (0 < photoCount m)%nat
  /\ iconSize m
     = getResponsiveMarkerSize zoom (Cluster.isCluster (clusterData m))
  /\ exists p, representativePhoto m = Some p /\ In p photos.
Proof.
  unfold addAreaMarkers. cbv zeta. intros Hm.
  apply in_flat_map in Hm as (c & Hc & Hm).
  destruct (JS.truthy (Cluster.center_lat c) && JS.truthy (Cluster.center_lng c)
            && Cluster.is_active c); [| destruct Hm].
  set (clusterPhotos := match Cluster.photos c with
                        | Some l => l
                        | None => getPhotosInArea M photos (Cluster.as_area c)
                        end) in *.
  destruct (length clusterPhotos =? 0)%nat eqn:E; [destruct Hm |].
  apply Nat.eqb_neq in E. destruct Hm as [<- | []].
  cbn [photoCount iconSize clusterData representativePhoto].
  split; [lia |]. split; [reflexivity |].
  destruct (representative_member clusterPhotos) as (p & Hp & Hin).
  { intros Hnil. apply E. now rewrite Hnil. }
  exists p. split; [exact Hp |].
  unfold clusterPhotos in Hin.
  destruct (Cluster.photos c) as [l|] eqn:Hl;
    [| now apply (area_photos_sub (Cluster.as_area c))].
  destruct (shouldClusterMarkers zoom).
  - pose proof (LegacyProofs.createPhotoClusters_grouped M photos areas)
      as Hg.
    rewrite List.Forall_forall in Hg.
    exact (cluster_photos_sub c l p (Hg c Hc) Hl Hin).
  - apply in_map_iff in Hc as (a & <- & _). discriminate Hl.
Qed.

End Engine.
End LegacyMarkerProofs.

(** X28 (PhotoMapApp.addAreaMarkers, getRepresentativePhoto,
    getPhotosInArea, createPhotoClusters): every marker the legacy
    application adds has a photo count above 0, the icon size of its
    kind at the current zoom, and a representative photo, which is one
    of the photos of the application. *)
Theorem X28_legacy_markers_have_a_representative
    (M : JS.JSMath) (photos : list Photo.t) (zoom : Q)
    (areas : list Area.t) :
  Forall
    (fun m =>
       (0 < PhotoMapApp.photoCount m)%nat
       /\ PhotoMapApp.iconSize m
          = PhotoMapApp.getResponsiveMarkerSize zoom
              (Cluster.isCluster (PhotoMapApp.clusterData m))
       /\ exists p,
            PhotoMapApp.representativePhoto m = Some p /\ In p photos)
    (PhotoMapApp.addAreaMarkers M photos zoom areas).
Proof.
  apply List.Forall_forall. intros m Hm.
  now apply (LegacyMarkerProofs.marker_representative M photos zoom areas).
Qed.

(** * The tags of a photo *)

Module TagsProofs.
Import Tags.

Lemma trimStart_split s :
  exists white,
    s = white ++ trimStart s /\ Forall (fun c => isWhite c = true) white.
Proof.
  induction s as [|c s IH]; [now exists [] |]. cbn [trimStart].
  destruct (isWhite c) eqn:E.
  - destruct IH as (w & Hs & Hw). exists (c :: w). split.
    + cbn [app]. now rewrite <- Hs.
    + now constructor.
  - now exists [].
Qed.

Lemma trimStart_head s c rest :
  trimStart s = c :: rest -> isWhite c = false.
Proof.
  induction s as [|x s IH]; [discriminate |]. cbn [trimStart].
  destruct (isWhite x) eqn:E; [exact IH |].
  intros H. injection H as <- _. exact E.
Qed.

Lemma trimStart_fixed c rest :
  isWhite c = false -> trimStart (c :: rest) = c :: rest.
Proof. intros H. cbn [trimStart]. now rewrite H. Qed.

Lemma trimStart_idem s : trimStart (trimStart s) = trimStart s.
Proof.
  destruct (trimStart s) as [|c rest] eqn:E; [reflexivity |].
  apply trimStart_fixed. now apply (trimStart_head s c rest).
Qed.

Lemma trimStart_sub s c : In c (trimStart s) -> In c s.
Proof.
  destruct (trimStart_split s) as (w & Hs & _). intros H.
  rewrite Hs. apply in_or_app. now right.
Qed.

Lemma trim_sub s c : In c (trim s) -> In c s.
Proof.
  unfold trim. intros H. apply in_rev in H. apply trimStart_sub in H.
  apply in_rev in H. now apply trimStart_sub in H.
Qed.

(** A string that starts and ends with other characters than white
    space is left as it is. *)
Lemma trim_fixed s :
  trimStart s = s -> trimStart (rev s) = rev s -> trim s = s.
Proof. intros H1 H2. unfold trim. now rewrite H1, H2, rev_involutive. Qed.

Lemma trim_ends s :
  trimStart (trim s) = trim s /\ trimStart (rev (trim s)) = rev (trim s).
Proof.
  unfold trim. set (a := trimStart s). set (b := trimStart (rev a)).
  rewrite rev_involutive. split; [| apply trimStart_idem].
  destruct (trimStart_split (rev a)) as (w & Hs & Hw). fold b in Hs.
  destruct (rev b) as [|c t] eqn:Eb; [reflexivity |].
  apply trimStart_fixed.
  assert (Ha : a = c :: t ++ rev w).
  { rewrite <- (rev_involutive a), Hs, rev_app_distr, Eb. reflexivity. }
  unfold a in Ha. now apply (trimStart_head s c (t ++ rev w)).
Qed.

Lemma trim_idem s : trim (trim s) = trim s.
Proof. apply trim_fixed; apply trim_ends. Qed.

Lemma split_nonempty sep s : split sep s <> [].
Proof.
  destruct s as [|c s]; cbn [split]; [discriminate |].
  destruct (c =? sep)%N; [discriminate |].
  destruct (split sep s); discriminate.
Qed.

Lemma split_no_sep sep s part : In part (split sep s) -> ~ In sep part.
Proof.
  revert part. induction s as [|c s IH]; intros part; cbn [split].
  - intros [<- | []] [].
  - destruct (c =? sep)%N eqn:E.
    + intros [<- | H]; [intros [] | now apply IH].
    + apply N.eqb_neq in E.
      destruct (split sep s) as [|first others] eqn:Es.
      * intros [<- | []] [H | []]. now apply E.
      * intros [<- | H].
        -- intros [Hc | Hin]; [now apply E |].
           apply (IH first); [now left | exact Hin].
        -- apply IH. now right.
Qed.

Lemma split_whole sep s : ~ In sep s -> split sep s = [s].
Proof.
  induction s as [|c s IH]; intros H; [reflexivity |]. cbn [split].
  destruct (c =? sep)%N eqn:E.
  - apply N.eqb_eq in E. exfalso. apply H. now left.
  - rewrite IH; [reflexivity |]. intros Hin. apply H. now right.
Qed.

Lemma split_app sep s rest :
  ~ In sep s -> split sep (s ++ sep :: rest) = s :: split sep rest.
Proof.
  induction s as [|c s IH]; intros H; cbn [app split].
  - now rewrite N.eqb_refl.
  - destruct (c =? sep)%N eqn:E.
    + apply N.eqb_eq in E. exfalso. apply H. now left.
    + rewrite IH; [reflexivity |]. intros Hin. apply H. now right.
Qed.

Lemma split_join sep tags :
  tags <> [] -> Forall (fun tag => ~ In sep tag) tags ->
  split sep (join sep tags) = tags.
Proof.
  induction tags as [|tag rest IH]; intros Hne Hclean; [contradiction |].
  apply List.Forall_cons_iff in Hclean as [Htag Hrest].
  destruct rest as [|tag' rest].
  - cbn [join]. now apply split_whole.
  - change (join sep (tag :: tag' :: rest))
      with (tag ++ sep :: join sep (tag' :: rest)).
    rewrite split_app by exact Htag. f_equal.
    apply IH; [discriminate | exact Hrest].
Qed.

Lemma trimStart_nil s :
  trimStart s = [] -> Forall (fun c => isWhite c = true) s.
Proof.
  intros H. destruct (trimStart_split s) as (w & Hs & Hw).
  rewrite H, app_nil_r in Hs. now rewrite Hs.
Qed.

Lemma trim_nil s : trim s = [] -> Forall (fun c => isWhite c = true) s.
Proof.
  unfold trim. intros H.
  assert (H' : trimStart (rev (trimStart s)) = []).
  { rewrite <- (rev_involutive (trimStart _)), H. reflexivity. }
  apply trimStart_nil in H'.
  destruct (trimStart s) as [|c rest] eqn:E; [now apply trimStart_nil |].
  exfalso. pose proof (trimStart_head s c rest E) as Hc.
  rewrite List.Forall_forall in H'.
  rewrite (H' c) in Hc; [discriminate |].
  apply in_rev. rewrite rev_involutive. now left.
Qed.

End TagsProofs.

(** X29 (PhotoMapApp.parseTags): every tag that [parseTags] returns is
    not empty, holds no comma and has no white space at either end; and
    the tags of a list of such tags joined by commas are that list. *)
Theorem X29_parseTags_gives_clean_tags :
  (forall tagsString tag,
      In tag (Tags.parseTags tagsString) ->
      tag <> [] /\ ~ In Tags.comma tag /\ Tags.trim tag = tag)
  /\ (forall tags,
        Forall (fun tag => tag <> [] /\ ~ In Tags.comma tag
                           /\ Tags.trim tag = tag) tags ->
        Tags.parseTags (Some (Tags.join Tags.comma tags)) = tags).
Proof.
  split.
  - intros [s|] tag; [| intros []]. unfold Tags.parseTags.
    destruct (negb (Tags.nonEmpty (Tags.trim s))); [intros [] |].
    intros H. apply filter_In in H as [H Hne].
    apply in_map_iff in H as (part & <- & Hpart). split; [| split].
    + intros E. now rewrite E in Hne.
    + intros Hc. apply TagsProofs.trim_sub in Hc.
      now apply (TagsProofs.split_no_sep Tags.comma s part).
    + apply TagsProofs.trim_idem.
  - intros tags Hclean. destruct tags as [|tag rest]; [reflexivity |].
    unfold Tags.parseTags.
    assert (Hne : Tags.nonEmpty
                    (Tags.trim (Tags.join Tags.comma (tag :: rest))) = true).
    { destruct (Tags.trim (Tags.join Tags.comma (tag :: rest))) eqn:E;
        [| reflexivity].
      exfalso. apply TagsProofs.trim_nil in E.
      apply List.Forall_inv in Hclean. destruct Hclean as (Hn & _ & Ht).
      assert (Hall : Forall (fun c => Tags.isWhite c = true) tag).
      { rewrite List.Forall_forall in *. intros c Hc. apply E.
        destruct rest; cbn [Tags.join]; [exact Hc |].
        apply in_or_app. now left. }
      destruct (Tags.trimStart tag) as [|c t] eqn:Ets.
      - apply Hn. rewrite <- Ht. unfold Tags.trim. now rewrite Ets.
      - pose proof (TagsProofs.trimStart_head tag c t Ets) as Hc.
        rewrite List.Forall_forall in Hall. rewrite Hall in Hc;
          [discriminate |].
        apply TagsProofs.trimStart_sub. rewrite Ets. now left. }
    rewrite Hne. cbn [negb].
    rewrite TagsProofs.split_join;
      [| discriminate
       | eapply List.Forall_impl; [| exact Hclean]; cbv beta; tauto].
    assert (Hmap : List.map Tags.trim (tag :: rest) = tag :: rest).
    { clear Hne. induction Hclean as [|t l (_ & _ & Ht) _ IH];
        [reflexivity |]. cbn [List.map]. now rewrite Ht, IH. }
    rewrite Hmap. apply ListFacts.filter_keep_all.
    intros t Ht. rewrite List.Forall_forall in Hclean.
    destruct (Hclean t Ht) as (Hn & _). now destruct t.
Qed.

(** * Clusters and the [is_active] flag of their members *)

Module ClusterFlagProofs.
Import MarkerManager.

Section Engine.
Variable M : JS.JSMath.
Variable photos : list Photo.t.



End Engine.
End ClusterFlagProofs.


(** An inactive area on a cluster marker: the second area of scenario A,
    switched off, is still a member of the one marker drawn at zoom 10. *)
Example inactive_member_is_shown :
  List.map (fun m => List.map Area.is_active
                       (Cluster.members (MarkerManager.areaData m)))
    (MarkerManager.addAreaMarkers JS.refMath [Sample.p1] 10
       [Sample.a1; SampleState.a2_inactive])
  = [[true; false]].
Proof. vm_compute. reflexivity. Qed.
